(** * Music-Listener-API: the in-memory catalog store of [musicListnerApi.go]

    A shallow embedding of the eight HTTP handlers and of the package-level
    state they share.  Go slices are modelled as the language has them: a
    header (pointer, length, capacity) over a backing array that lives in a
    memory, so that two headers over one array see each other's writes.  The
    handlers are state transformers over the package variables [users],
    [playlists], [randSrc] and the two memories of backing arrays.

    Every handler runs between [mu.Lock()] and the deferred [mu.Unlock()];
    the model is the sequential one the lock gives. *)

From Stdlib Require Import ZArith DecimalString.
From Stdlib Require DecimalZ DecimalPos.
From stdpp Require Import gmap strings list fin_maps.

(** ** Data model *)

(** [type Song struct] *)
Module Song.
Record t := mk { ID : string; Name : string; Composer : string; URL : string }.
Definition zero : t := mk "" "" "" "".
Definition set_ID (id : string) (s : t) : t := mk id (Name s) (Composer s) (URL s).
End Song.

(** A slice header.  All slices of the program start at the first cell of
    their backing array; [ptr] is the index of that array in the memory of
    its element type. *)
Record slice := Slice { ptr : nat; len : nat; cap : nat }.

(** The nil slice, also the zero value of a slice-typed field. *)
Definition nilSlice : slice := Slice 0 0 0.

(** [type Playlist struct] *)
Module Playlist.
Record t := mk { ID : string; Name : string; Songs : slice }.
Definition zero : t := mk "" "" nilSlice.
Definition set_Songs (s : slice) (p : t) : t := mk (ID p) (Name p) s.
End Playlist.

(** [type User struct] *)
Module User.
Record t := mk { ID : string; SecretCode : string; Name : string;
                 Email : string; Playlists : slice }.
Definition set_ID (id : string) (u : t) : t :=
  mk id (SecretCode u) (Name u) (Email u) (Playlists u).
Definition set_SecretCode (c : string) (u : t) : t :=
  mk (ID u) c (Name u) (Email u) (Playlists u).
Definition set_Playlists (s : slice) (u : t) : t :=
  mk (ID u) (SecretCode u) (Name u) (Email u) s.
End User.

(** The JSON documents that [json.Decoder] reads and [json.Encoder] writes:
    the same records with the slices spelled out as sequences. *)
Module PlaylistJSON.
Record t := mk { ID : string; Name : string; Songs : list Song.t }.
End PlaylistJSON.

Module UserJSON.
Record t := mk { ID : string; SecretCode : string; Name : string;
                 Email : string; Playlists : list PlaylistJSON.t }.
End UserJSON.

(** ** The Go runtime: slices over backing arrays *)

Inductive elemType := SongElem | PlaylistElem.

(** The capacity the runtime picks when [append] has to move a slice
    (element type, old capacity, needed length) and the capacity
    [encoding/json] leaves on a decoded slice (element type, length).  Go
    leaves both to the implementation; the handlers are modelled for any
    choice. *)
Class GoRuntime := {
  growslice : elemType → nat → nat → nat;
  decodecap : elemType → nat → nat
}.

(** The growth rule of small slices in the Go runtime, and the decoder's
    initial capacity of four; used to run the handlers on examples. *)
Definition doubling : GoRuntime := {|
  growslice := λ _ oldcap needed,
    if decide (oldcap + oldcap < needed) then needed else oldcap + oldcap;
  decodecap := λ _ n, 4 `max` (n + n `div` 2)
|}.

Section memory.
Context {A : Type}.
Implicit Types (mem : list (list A)) (s : slice) (elems : list A).

(** The elements a slice header sees. *)
Definition readSlice mem s : list A := take (len s) (mem !!! ptr s).

(** A new backing array of capacity at least [c] holding [elems]. *)
Definition makeSlice (zero : A) mem elems (c : nat) : slice * list (list A) :=
  let c := length elems `max` c in
  (Slice (length mem) (length elems) c,
   mem ++ [elems ++ replicate (c - length elems) zero]).

(** [s[:j]] *)
Definition sliceTo s (j : nat) : slice := Slice (ptr s) j (cap s).

(** The elements of [s[j:]]. *)
Definition elemsFrom mem s (j : nat) : list A := drop j (readSlice mem s).

(** [append(s, elems...)]: in place when the capacity allows, the cells from
    [len s] on overwritten; into a new array otherwise. *)
Definition appendSlice `{GoRuntime} (ty : elemType) (zero : A) mem s elems
    : slice * list (list A) :=
  let needed := len s + length elems in
  let arr := mem !!! ptr s in
  if decide (needed ≤ cap s) then
    (Slice (ptr s) needed (cap s),
     <[ptr s := take (len s) arr ++ elems ++ drop needed arr]> mem)
  else
    makeSlice zero mem (take (len s) arr ++ elems) (growslice ty (cap s) needed).

End memory.

(** ** Package state *)

(** [randSrc]: the outputs the source gives from its seed on, and how many
    have been drawn. *)
Record Source := mkSource { stream : nat → Z; drawn : nat }.

(** [rngSource.Int63]: [int64(rng.Uint64() & rngMask)]. *)
Definition Int63 (src : Source) : Z * Source :=
  (Z.land (stream src (drawn src)) (Z.ones 63),
   mkSource (stream src) (S (drawn src))).

(** [fmt.Sprintf("%d", v)] *)
Definition Sprintf_d (v : Z) : string := NilZero.string_of_int (Z.to_int v).

Record State := mkState {
  users : gmap string User.t;          (* Key is SecretCode *)
  playlists : gmap string Playlist.t;  (* Key is Playlist ID *)
  randSrc : Source;
  songMem : list (list Song.t);
  playlistMem : list (list Playlist.t)
}.

Definition set_users (m : gmap string User.t) (σ : State) : State :=
  mkState m (playlists σ) (randSrc σ) (songMem σ) (playlistMem σ).
Definition set_playlists (m : gmap string Playlist.t) (σ : State) : State :=
  mkState (users σ) m (randSrc σ) (songMem σ) (playlistMem σ).
Definition set_randSrc (r : Source) (σ : State) : State :=
  mkState (users σ) (playlists σ) r (songMem σ) (playlistMem σ).
Definition set_songMem (m : list (list Song.t)) (σ : State) : State :=
  mkState (users σ) (playlists σ) (randSrc σ) m (playlistMem σ).
Definition set_playlistMem (m : list (list Playlist.t)) (σ : State) : State :=
  mkState (users σ) (playlists σ) (randSrc σ) (songMem σ) m.

(** The package variables at start-up, for a source seeded to give
    [seed 0], [seed 1], ... *)
Definition initState (seed : nat → Z) : State :=
  mkState ∅ ∅ (mkSource seed 0) [] [].

(** [func generateID() string] *)
Definition generateID (σ : State) : string * State :=
  let '(v, src) := Int63 (randSrc σ) in
  (Sprintf_d v, set_randSrc src σ).

(** ** Responses *)

Inductive Body :=
  | UserBody (u : UserJSON.t)
  | PlaylistBody (p : PlaylistJSON.t)
  | SongBody (s : Song.t).

(** What a handler writes: [json.NewEncoder(w).Encode(v)] or
    [sendError(w, message, statusCode)]. *)
Inductive Response :=
  | Encode (v : Body)
  | sendError (message : string) (statusCode : nat).

Definition StatusBadRequest : nat := 400.
Definition StatusUnauthorized : nat := 401.
Definition StatusNotFound : nat := 404.

(** Encoding follows the slices through the memory as it is at the time of
    the call. *)
Definition encodePlaylist (smem : list (list Song.t)) (p : Playlist.t)
    : PlaylistJSON.t :=
  PlaylistJSON.mk (Playlist.ID p) (Playlist.Name p)
                  (readSlice smem (Playlist.Songs p)).

Definition encodeUser (σ : State) (u : User.t) : UserJSON.t :=
  UserJSON.mk (User.ID u) (User.SecretCode u) (User.Name u) (User.Email u)
              (encodePlaylist (songMem σ) <$>
                 readSlice (playlistMem σ) (User.Playlists u)).

(** ** The handlers *)

Section handlers.
Context `{GoRuntime}.

(** [json.NewDecoder(r.Body).Decode(&user)] builds the decoded value in new
    memory: a backing array for every non-empty sequence of the document; an
    empty or absent one decodes to a slice of capacity zero. *)
Definition decodeSlice {A : Type} (ty : elemType) (zero : A)
    (mem : list (list A)) (elems : list A) : slice * list (list A) :=
  match elems with
  | [] => (nilSlice, mem)
  | _ => makeSlice zero mem elems (decodecap ty (length elems))
  end.

Fixpoint decodePlaylists (smem : list (list Song.t)) (ps : list PlaylistJSON.t)
    : list Playlist.t * list (list Song.t) :=
  match ps with
  | [] => ([], smem)
  | p :: rest =>
    let '(songs, smem) := decodeSlice SongElem Song.zero smem (PlaylistJSON.Songs p) in
    let '(ps', smem) := decodePlaylists smem rest in
    (Playlist.mk (PlaylistJSON.ID p) (PlaylistJSON.Name p) songs :: ps', smem)
  end.

Definition decodeUser (j : UserJSON.t) (σ : State) : User.t * State :=
  let '(ps, smem) := decodePlaylists (songMem σ) (UserJSON.Playlists j) in
  let '(pls, pmem) := decodeSlice PlaylistElem Playlist.zero (playlistMem σ) ps in
  (User.mk (UserJSON.ID j) (UserJSON.SecretCode j) (UserJSON.Name j)
           (UserJSON.Email j) pls,
   set_playlistMem pmem (set_songMem smem σ)).

(** The composite literal [[]Song{{ID: generateID(), Name: "Default Song",
    ...}}] shared by [registerHandler] and [createPlaylist]. *)
Definition defaultSongs (σ : State) : slice * State :=
  let '(id, σ) := generateID σ in
  let song := Song.mk id "Default Song" "Default Composer" "http://default.url" in
  let '(songs, smem) := makeSlice Song.zero (songMem σ) [song] 1 in
  (songs, set_songMem smem σ).

(** [user.Playlists = append(user.Playlists, p)] *)
Definition appendPlaylist (user : User.t) (p : Playlist.t) (σ : State)
    : User.t * State :=
  let '(pls, pmem) :=
    appendSlice PlaylistElem Playlist.zero (playlistMem σ) (User.Playlists user) [p] in
  (User.set_Playlists pls user, set_playlistMem pmem σ).

(** [user.Playlists[i].Songs = songs] *)
Definition storeSongs (user : User.t) (i : nat) (songs : slice) (σ : State) : State :=
  set_playlistMem
    (alter (alter (Playlist.set_Songs songs) i) (ptr (User.Playlists user))
           (playlistMem σ)) σ.

(** [users[secretCode] = user] *)
Definition storeUser (secretCode : string) (user : User.t) (σ : State) : State :=
  set_users (<[secretCode := user]> (users σ)) σ.

(** [func loginHandler] *)
Definition loginHandler (secretCode : string) (σ : State) : Response * State :=
  match users σ !! secretCode with
  | Some user => (Encode (UserBody (encodeUser σ user)), σ)
  | None => (sendError "Invalid secret code" StatusUnauthorized, σ)
  end.

(** [func registerHandler]; [body] is [None] when the request body does not
    decode. *)
Definition registerHandler (body : option UserJSON.t) (σ : State)
    : Response * State :=
  match body with
  | None => (sendError "Invalid request body" StatusBadRequest, σ)
  | Some j =>
    let '(user, σ) := decodeUser j σ in
    let '(id, σ) := generateID σ in
    let user := User.set_ID id user in
    let '(code, σ) := generateID σ in
    let user := User.set_SecretCode code user in
    let '(pid, σ) := generateID σ in
    let '(songs, σ) := defaultSongs σ in
    let defaultPlaylist := Playlist.mk pid "Default" songs in
    let '(user, σ) := appendPlaylist user defaultPlaylist σ in
    let σ := storeUser (User.SecretCode user) user σ in
    (Encode (UserBody (encodeUser σ user)), σ)
  end.

(** [func createPlaylist] *)
Definition createPlaylist (secretCode playlistName : string) (σ : State)
    : Response * State :=
  match users σ !! secretCode with
  | Some user =>
    let '(pid, σ) := generateID σ in
    let '(songs, σ) := defaultSongs σ in
    let newPlaylist := Playlist.mk pid playlistName songs in
    let '(user, σ) := appendPlaylist user newPlaylist σ in
    let σ := storeUser secretCode user σ in
    (Encode (PlaylistBody (encodePlaylist (songMem σ) newPlaylist)), σ)
  | None => (sendError "Invalid secret code" StatusUnauthorized, σ)
  end.

(** [for j, song := range songs { if song.ID == songID {...} }]: the index
    at which the body runs, counting from [j]. *)
Fixpoint songIndex (songID : string) (j : nat) (songs : list Song.t) : option nat :=
  match songs with
  | [] => None
  | song :: rest =>
    if decide (Song.ID song = songID) then Some j
    else songIndex songID (S j) rest
  end.

(** The loop [for i, playlist := range user.Playlists] of
    [deleteSongFromPlaylist], from index [i] on; [pls] are the elements still
    to visit.  The loop variable [playlist] is a copy of the element: its
    [Songs] header keeps the length it had when the copy was made. *)
Fixpoint deleteSongRange (secretCode songID playlistID : string) (user : User.t)
    (σ : State) (i : nat) (pls : list Playlist.t) : Response * State :=
  match pls with
  | [] => (sendError "Invalid request" StatusBadRequest, σ)
  | playlist :: rest =>
    if decide (Playlist.ID playlist = playlistID) then
      if decide (len (Playlist.Songs playlist) = 1) then
        (sendError "Playlist cannot be empty" StatusBadRequest, σ)
      else
        match songIndex songID 0 (readSlice (songMem σ) (Playlist.Songs playlist)) with
        | Some j =>
          let '(songs, smem) :=
            appendSlice SongElem Song.zero (songMem σ)
              (sliceTo (Playlist.Songs playlist) j)
              (elemsFrom (songMem σ) (Playlist.Songs playlist) (j + 1)) in
          let σ := set_songMem smem σ in
          let σ := storeSongs user i songs σ in
          let σ := storeUser secretCode user σ in
          (Encode (PlaylistBody (encodePlaylist (songMem σ) playlist)), σ)
        | None => deleteSongRange secretCode songID playlistID user σ (S i) rest
        end
    else deleteSongRange secretCode songID playlistID user σ (S i) rest
  end.

(** [func deleteSongFromPlaylist] *)
Definition deleteSongFromPlaylist (secretCode songID playlistID : string)
    (σ : State) : Response * State :=
  match users σ !! secretCode with
  | Some user =>
    deleteSongRange secretCode songID playlistID user σ 0
      (readSlice (playlistMem σ) (User.Playlists user))
  | None => (sendError "Invalid request" StatusBadRequest, σ)
  end.

(** [func viewProfile] *)
Definition viewProfile (secretCode : string) (σ : State) : Response * State :=
  match users σ !! secretCode with
  | Some user => (Encode (UserBody (encodeUser σ user)), σ)
  | None => (sendError "Invalid secret code" StatusUnauthorized, σ)
  end.

(** The range loop of [addSongToPlaylist]. *)
Fixpoint addSongRange (secretCode playlistID : string) (newSong : Song.t)
    (user : User.t) (σ : State) (i : nat) (pls : list Playlist.t)
    : Response * State :=
  match pls with
  | [] => (sendError "Invalid playlist ID" StatusNotFound, σ)
  | playlist :: rest =>
    if decide (Playlist.ID playlist = playlistID) then
      let '(id, σ) := generateID σ in
      let newSong := Song.set_ID id newSong in
      let '(songs, smem) :=
        appendSlice SongElem Song.zero (songMem σ) (Playlist.Songs playlist) [newSong] in
      let σ := set_songMem smem σ in
      let σ := storeSongs user i songs σ in
      let σ := storeUser secretCode user σ in
      (Encode (SongBody newSong), σ)
    else addSongRange secretCode playlistID newSong user σ (S i) rest
  end.

(** [func addSongToPlaylist]; [body] is [None] when the request body does not
    decode. *)
Definition addSongToPlaylist (secretCode playlistID : string)
    (body : option Song.t) (σ : State) : Response * State :=
  match body with
  | None => (sendError "Invalid request body" StatusBadRequest, σ)
  | Some newSong =>
    match users σ !! secretCode with
    | Some user =>
      addSongRange secretCode playlistID newSong user σ 0
        (readSlice (playlistMem σ) (User.Playlists user))
    | None => (sendError "Invalid secret code" StatusUnauthorized, σ)
    end
  end.

(** The range loop of [deletePlaylist]. *)
Fixpoint deletePlaylistRange (secretCode playlistID : string) (user : User.t)
    (σ : State) (i : nat) (pls : list Playlist.t) : Response * State :=
  match pls with
  | [] => (sendError "Invalid playlist ID" StatusNotFound, σ)
  | playlist :: rest =>
    if decide (Playlist.ID playlist = playlistID) then
      let '(pls', pmem) :=
        appendSlice PlaylistElem Playlist.zero (playlistMem σ)
          (sliceTo (User.Playlists user) i)
          (elemsFrom (playlistMem σ) (User.Playlists user) (i + 1)) in
      let user := User.set_Playlists pls' user in
      let σ := set_playlistMem pmem σ in
      let σ := storeUser secretCode user σ in
      (Encode (UserBody (encodeUser σ user)), σ)
    else deletePlaylistRange secretCode playlistID user σ (S i) rest
  end.

(** [func deletePlaylist] *)
Definition deletePlaylist (secretCode playlistID : string) (σ : State)
    : Response * State :=
  match users σ !! secretCode with
  | Some user =>
    deletePlaylistRange secretCode playlistID user σ 0
      (readSlice (playlistMem σ) (User.Playlists user))
  | None => (sendError "Invalid secret code" StatusUnauthorized, σ)
  end.

(** The inner loop of [getSongDetail]. *)
Fixpoint songRange (songID : string) (songs : list Song.t) : option Song.t :=
  match songs with
  | [] => None
  | song :: rest =>
    if decide (Song.ID song = songID) then Some song else songRange songID rest
  end.

(** The outer loop of [getSongDetail]. *)
Fixpoint getSongRange (songID : string) (σ : State) (pls : list Playlist.t)
    : option Song.t :=
  match pls with
  | [] => None
  | playlist :: rest =>
    match songRange songID (readSlice (songMem σ) (Playlist.Songs playlist)) with
    | Some song => Some song
    | None => getSongRange songID σ rest
    end
  end.

(** [func getSongDetail] *)
Definition getSongDetail (secretCode songID : string) (σ : State)
    : Response * State :=
  match users σ !! secretCode with
  | Some user =>
    match getSongRange songID σ (readSlice (playlistMem σ) (User.Playlists user)) with
    | Some song => (Encode (SongBody song), σ)
    | None => (sendError "Invalid song ID" StatusNotFound, σ)
    end
  | None => (sendError "Invalid secret code" StatusUnauthorized, σ)
  end.

(** ** The server: the routes of [main] *)

(** A request to one of the eight paths registered in [main], with the query
    parameters and the decoded body its handler reads.  A missing query
    parameter reads as the empty string. *)
Inductive Request :=
  | R_login (secretCode : string)
  | R_register (body : option UserJSON.t)
  | R_viewProfile (secretCode : string)
  | R_createPlaylist (secretCode playlistName : string)
  | R_deleteSongFromPlaylist (secretCode songID playlistID : string)
  | R_addSongToPlaylist (secretCode playlistID : string) (body : option Song.t)
  | R_deletePlaylist (secretCode playlistID : string)
  | R_getSongDetail (secretCode songID : string).

Definition serve (r : Request) (σ : State) : Response * State :=
  match r with
  | R_login c => loginHandler c σ
  | R_register b => registerHandler b σ
  | R_viewProfile c => viewProfile c σ
  | R_createPlaylist c n => createPlaylist c n σ
  | R_deleteSongFromPlaylist c s p => deleteSongFromPlaylist c s p σ
  | R_addSongToPlaylist c p b => addSongToPlaylist c p b σ
  | R_deletePlaylist c p => deletePlaylist c p σ
  | R_getSongDetail c s => getSongDetail c s σ
  end.

(** The state after a sequence of requests, served in order. *)
Definition run (rs : list Request) (σ : State) : State :=
  foldl (λ σ r, (serve r σ).2) σ rs.

(** The states the server can be in. *)
Inductive reachable : State → Prop :=
  | reachable_init seed : reachable (initState seed)
  | reachable_serve r σ : reachable σ → reachable (serve r σ).2.

End handlers.

(** ** Observations and well-formedness *)

(** The stored user a secret code gives access to, as the encoder shows it. *)
Definition profile (σ : State) (secretCode : string) : option UserJSON.t :=
  encodeUser σ <$> users σ !! secretCode.

(** A header lies within its backing array.  Go gives this for every slice
    value; in the model it is an invariant of the reachable states. *)
Definition validSlice {A : Type} (mem : list (list A)) (s : slice) : Prop :=
  len s ≤ cap s ∧ cap s ≤ length (mem !!! ptr s).

(** No backing array shrinks or disappears from [mem] to [mem']. *)
Definition grows {A : Type} (mem mem' : list (list A)) : Prop :=
  ∀ p, length (mem !!! p) ≤ length (mem' !!! p).

Definition validPlaylist (smem : list (list Song.t)) (p : Playlist.t) : Prop :=
  validSlice smem (Playlist.Songs p).

Record Inv (σ : State) : Prop := {
  Inv_users : ∀ c u, users σ !! c = Some u →
              validSlice (playlistMem σ) (User.Playlists u);
  Inv_cells : Forall (Forall (validPlaylist (songMem σ))) (playlistMem σ)
}.

(** ** Ownership of backing arrays *)

(** The backing array the songs of a playlist occupy, if they occupy one. *)
Definition songArray (p : Playlist.t) : option nat :=
  if decide (0 < cap (Playlist.Songs p)) then Some (ptr (Playlist.Songs p)) else None.

(** The playlists of a user, as its header shows them. *)
Definition cells (σ : State) (u : User.t) : list Playlist.t :=
  readSlice (playlistMem σ) (User.Playlists u).

(** The song arrays of the playlists of a user. *)
Definition footprint (σ : State) (u : User.t) : list nat :=
  omap songArray (cells σ u).

(** The playlists of a sequence occupy different song arrays. *)
Definition distinctArrays (ps : list Playlist.t) : Prop :=
  ∀ k1 k2 p1 p2,
    ps !! k1 = Some p1 → ps !! k2 = Some p2 → k1 ≠ k2 →
    0 < cap (Playlist.Songs p1) → 0 < cap (Playlist.Songs p2) →
    ptr (Playlist.Songs p1) ≠ ptr (Playlist.Songs p2).

Record Sep (σ : State) : Prop := {
  Sep_playlists : ∀ c1 c2 u1 u2,
    c1 ≠ c2 → users σ !! c1 = Some u1 → users σ !! c2 = Some u2 →
    0 < cap (User.Playlists u1) → 0 < cap (User.Playlists u2) →
    ptr (User.Playlists u1) ≠ ptr (User.Playlists u2);
  Sep_own : ∀ c u, users σ !! c = Some u → distinctArrays (cells σ u);
  Sep_songs : ∀ c1 c2 u1 u2 p,
    c1 ≠ c2 → users σ !! c1 = Some u1 → users σ !! c2 = Some u2 →
    p ∈ footprint σ u1 → p ∈ footprint σ u2 → False
}.

(** A playlist document with at least one song. *)
Definition holdsSongs (p : PlaylistJSON.t) : Prop := PlaylistJSON.Songs p ≠ [].

(** The error kinds of the specification, read off the status and message a
    handler sends. *)
Inductive ErrorKind := NotAuthorized | NotFound | InvariantViolation | BadRequest.

Definition errorKind (r : Response) : option ErrorKind :=
  match r with
  | Encode _ => None
  | sendError message statusCode =>
    if decide (statusCode = StatusUnauthorized) then Some NotAuthorized
    else if decide (statusCode = StatusNotFound) then Some NotFound
    else if decide (message = "Playlist cannot be empty") then Some InvariantViolation
    else Some BadRequest
  end.

(** The identifier the [k]-th next call of [generateID] returns. *)
Definition nextID (σ : State) (k : nat) : string :=
  Sprintf_d (Z.land (stream (randSrc σ) (k + drawn (randSrc σ))) (Z.ones 63)).

Definition defaultSong (id : string) : Song.t :=
  Song.mk id "Default Song" "Default Composer" "http://default.url".

(** What [registerHandler] answers to a body that decodes to [j]. *)
Definition registered (σ : State) (j : UserJSON.t) : UserJSON.t :=
  UserJSON.mk (nextID σ 0) (nextID σ 1) (UserJSON.Name j) (UserJSON.Email j)
    (UserJSON.Playlists j ++
     [PlaylistJSON.mk (nextID σ 2) "Default" [defaultSong (nextID σ 3)]]).

(** The identifiers a stored user carries: its own, its secret code, and
    those of its playlists and their songs. *)
Definition identifiers (u : UserJSON.t) : list string :=
  UserJSON.ID u :: UserJSON.SecretCode u ::
  mjoin ((λ p, PlaylistJSON.ID p :: (Song.ID <$> PlaylistJSON.Songs p))
           <$> UserJSON.Playlists u).

(** The songs of a user in the order [getSongDetail] visits them: playlist
    after playlist, each in sequence order. *)
Definition allSongs (u : UserJSON.t) : list Song.t :=
  mjoin (PlaylistJSON.Songs <$> UserJSON.Playlists u).

(** The source [σ'] holds is the one of [σ] after [n] more calls of
    [generateID]. *)
Definition advanced (n : nat) (σ σ' : State) : Prop :=
  randSrc σ' = mkSource (stream (randSrc σ)) (n + drawn (randSrc σ)).

(** An identifier [generateID] has given out. *)
Definition drawnID (σ : State) (id : string) : Prop :=
  ∃ k, k < drawn (randSrc σ)
       ∧ id = Sprintf_d (Z.land (stream (randSrc σ) k) (Z.ones 63)).

(** Every identifier in the store came from [generateID]. *)
Definition generatedOnly (σ : State) : Prop :=
  ∀ c u id, profile σ c = Some u → id ∈ identifiers u → drawnID σ id.

(** ** The statements of the specification that the handlers do not meet,
    as the specification words them *)

(** "A playlist must contain at least one song at all times." *)
Definition playlistsNonEmpty (σ : State) : Prop :=
  ∀ c u p, profile σ c = Some u → p ∈ UserJSON.Playlists u →
           PlaylistJSON.Songs p ≠ [].

(** "On success, removes the song and returns the playlist's post-removal
    state." *)
Definition returnsPostRemovalState : Prop :=
  ∀ (rt : GoRuntime) σ c songID playlistID returned σ',
    reachable σ →
    deleteSongFromPlaylist c songID playlistID σ
      = (Encode (PlaylistBody returned), σ') →
    ∃ u', profile σ' c = Some u' ∧ returned ∈ UserJSON.Playlists u'.


(** "Removing a non-sole song succeeds, decreases the playlist's song count
    by exactly one, and removes no other song." *)
Definition removesFromThePlaylist : Prop :=
  ∀ (rt : GoRuntime) σ c songID u i p j s body σ',
    reachable σ →
    profile σ c = Some u →
    UserJSON.Playlists u !! i = Some p →
    2 ≤ length (PlaylistJSON.Songs p) →
    PlaylistJSON.Songs p !! j = Some s →
    Song.ID s = songID →
    (∀ j' s', j' < j → PlaylistJSON.Songs p !! j' = Some s' → Song.ID s' ≠ songID) →
    deleteSongFromPlaylist c songID (PlaylistJSON.ID p) σ = (Encode body, σ') →
    ∃ u', profile σ' c = Some u'
      ∧ UserJSON.Playlists u' !! i
        = Some (PlaylistJSON.mk (PlaylistJSON.ID p) (PlaylistJSON.Name p)
                  (delete j (PlaylistJSON.Songs p))).

(** "Adding a song to a playlist always assigns it a fresh identifier
    distinct from every existing identifier in the store." *)
Definition addedSongIsDistinct : Prop :=
  ∀ (rt : GoRuntime) σ c playlistID newSong added σ',
    reachable σ →
    addSongToPlaylist c playlistID (Some newSong) σ
      = (Encode (SongBody added), σ') →
    ∀ c' u, profile σ c' = Some u → Song.ID added ∉ identifiers u.

(** "register assigns a fresh identifier and a fresh secret code": distinct
    from every existing identifier in the store. *)
Definition registrationIsFresh : Prop :=
  ∀ (rt : GoRuntime) σ j u σ',
    reachable σ →
    registerHandler (Some j) σ = (Encode (UserBody u), σ') →
    ∀ c' u0, profile σ c' = Some u0 →
             (UserJSON.ID u ∉ identifiers u0)
             ∧ (UserJSON.SecretCode u ∉ identifiers u0).

(** ** Example runs *)

Definition exampleSeed (n : nat) : Z := Z.of_nat (1000 + n).

Definition songX : Song.t := Song.mk "" "X" "Someone" "http://x.example".
Definition songA : Song.t := Song.mk "a" "A" "Someone" "http://a.example".
Definition songB : Song.t := Song.mk "b" "B" "Someone" "http://b.example".
Definition songC : Song.t := Song.mk "c" "C" "Someone" "http://c.example".

(** A registration body that brings a playlist without songs. *)
Definition emptyPlaylistBody : UserJSON.t :=
  UserJSON.mk "" "" "Ann" "ann@example.org" [PlaylistJSON.mk "mine" "Mine" []].

(** A registration body without playlists. *)
Definition plainBody : UserJSON.t := UserJSON.mk "" "" "Ann" "ann@example.org" [].

(** A registration body that brings three playlists under one identifier. *)
Definition twinBody : UserJSON.t :=
  UserJSON.mk "" "" "Ann" "ann@example.org"
    [PlaylistJSON.mk "x" "First" [songA; songB];
     PlaylistJSON.mk "x" "Second" [songA];
     PlaylistJSON.mk "x" "Third" [songA; songC]].

(** A registration body that brings a song under the identifier the source
    seeded with [exampleSeed] gives at its fifth draw. *)
Definition guessBody : UserJSON.t :=
  UserJSON.mk "" "" "Ann" "ann@example.org"
    [PlaylistJSON.mk "x" "First" [Song.set_ID "1004" songA]].


Section examples.
#[local] Existing Instance doubling.

(** Ann registers. *)
Definition oneSong : State :=
  run [R_register (Some plainBody)] (initState exampleSeed).

(** Ann registers and adds a song to her default playlist. *)
Definition twoSongs : State :=
  run [R_register (Some plainBody);
       R_addSongToPlaylist "1001" "1002" (Some songX)] (initState exampleSeed).

Definition twins : State :=
  run [R_register (Some twinBody)] (initState exampleSeed).

Definition guessed : State :=
  run [R_register (Some guessBody)] (initState exampleSeed).


End examples.

(** Names the pairs that [append] and the decoder return. *)
Ltac split_pairs :=
  repeat match goal with
  | |- context [appendSlice ?ty ?z ?m ?s ?e] => destruct (appendSlice ty z m s e)
  | |- context [decodePlaylists ?m ?ps] => destruct (decodePlaylists m ps)
  | |- context [decodeSlice ?ty ?z ?m ?e] => destruct (decodeSlice ty z m e)
  end.

(** * Properties *)

(** ** Slices and their memory *)

Section memory_lemmas.
Context {A : Type} `{GoRuntime}.
Implicit Types (mem : list (list A)) (s : slice) (elems : list A).

Lemma grows_refl mem : grows mem mem.
Proof. by intros p. Qed.

Lemma grows_trans mem1 mem2 mem3 : grows mem1 mem2 → grows mem2 mem3 → grows mem1 mem3.
Proof. intros H1 H2 p. specialize (H1 p). specialize (H2 p). lia. Qed.

Lemma validSlice_grows mem mem' s : grows mem mem' → validSlice mem s → validSlice mem' s.
Proof. intros Hg [? ?]. split; [done|]. specialize (Hg (ptr s)). lia. Qed.

Lemma lookup_total_nil_ge mem p : length mem ≤ p → mem !!! p = [].
Proof. intros Hp. rewrite list_lookup_total_alt, lookup_ge_None_2; done. Qed.

Lemma grows_alloc mem arr : grows mem (mem ++ [arr]).
Proof.
  intros p. destruct (decide (p < length mem)) as [Hp|Hp].
  - by rewrite lookup_total_app_l.
  - rewrite lookup_total_nil_ge by lia. simpl. lia.
Qed.

Lemma grows_insert mem p arr :
  length (mem !!! p) ≤ length arr → grows mem (<[p := arr]> mem).
Proof.
  intros Hl q. rewrite list_lookup_total_insert. case_decide as Hq; [|done].
  by destruct Hq as [<- _].
Qed.

Lemma lookup_total_alloc mem arr : (mem ++ [arr]) !!! length mem = arr.
Proof. rewrite lookup_total_app_r by done. by rewrite Nat.sub_diag. Qed.

Lemma validSlice_ptr_lt mem s : validSlice mem s → 0 < cap s → ptr s < length mem.
Proof.
  intros [_ Hc] Hpos. destruct (decide (ptr s < length mem)); [done|].
  rewrite lookup_total_nil_ge in Hc by lia. simpl in Hc. lia.
Qed.

Lemma makeSlice_valid zero mem elems c :
  validSlice (makeSlice zero mem elems c).2 (makeSlice zero mem elems c).1.
Proof.
  unfold makeSlice, validSlice. simpl. rewrite lookup_total_alloc.
  rewrite length_app, length_replicate. lia.
Qed.

Lemma makeSlice_read zero mem elems c :
  readSlice (makeSlice zero mem elems c).2 (makeSlice zero mem elems c).1 = elems.
Proof.
  unfold makeSlice, readSlice. simpl. rewrite lookup_total_alloc.
  by rewrite take_app_length.
Qed.

Lemma length_readSlice mem s : validSlice mem s → length (readSlice mem s) = len s.
Proof. intros [? ?]. unfold readSlice. rewrite length_take. lia. Qed.

Lemma appendSlice_grows ty zero mem s elems :
  validSlice mem s → grows mem (appendSlice ty zero mem s elems).2.
Proof.
  intros [Hl Hc]. unfold appendSlice. case_decide as Hn; simpl.
  - apply grows_insert. rewrite !length_app, length_take, length_drop. lia.
  - apply grows_alloc.
Qed.

Lemma appendSlice_valid ty zero mem s elems :
  validSlice mem s →
  validSlice (appendSlice ty zero mem s elems).2 (appendSlice ty zero mem s elems).1.
Proof.
  intros [Hl Hc]. unfold appendSlice. case_decide as Hn.
  - split; simpl; [done|]. destruct (decide (ptr s < length mem)) as [Hp|Hp].
    + rewrite list_lookup_total_insert_eq by done.
      rewrite !length_app, length_take, length_drop. lia.
    + rewrite lookup_total_nil_ge in Hc by lia. simpl in Hc. lia.
  - apply makeSlice_valid.
Qed.

Lemma appendSlice_read ty zero mem s elems :
  validSlice mem s →
  readSlice (appendSlice ty zero mem s elems).2 (appendSlice ty zero mem s elems).1
  = readSlice mem s ++ elems.
Proof.
  intros [Hl Hc]. unfold appendSlice. case_decide as Hn.
  - unfold readSlice at 1. simpl.
    destruct (decide (ptr s < length mem)) as [Hp|Hp].
    + rewrite list_lookup_total_insert_eq by done.
      rewrite app_assoc. rewrite take_app_length'; [done|].
      rewrite length_app, length_take. lia.
    + rewrite lookup_total_nil_ge in Hc by lia. simpl in Hc.
      assert (elems = []) as -> by (destruct elems; simpl in *; [done|lia]).
      unfold readSlice. replace (len s) with 0 by lia. by rewrite !take_0.
  - rewrite makeSlice_read. done.
Qed.

Lemma Forall_makeSlice (P : A → Prop) zero mem elems c :
  P zero → Forall P elems → Forall (Forall P) mem →
  Forall (Forall P) (makeSlice zero mem elems c).2.
Proof.
  intros Hz He Hm. unfold makeSlice. simpl. apply Forall_app. split; [done|].
  apply Forall_singleton, Forall_app. split; [done|]. by apply Forall_replicate.
Qed.

Lemma Forall_lookup_total_mem (P : A → Prop) mem p :
  Forall (Forall P) mem → Forall P (mem !!! p).
Proof.
  intros Hm. rewrite list_lookup_total_alt. destruct (mem !! p) as [arr|] eqn:E; simpl.
  - by eapply (Forall_lookup_1 _ mem).
  - constructor.
Qed.

Lemma Forall_readSlice (P : A → Prop) mem s :
  Forall (Forall P) mem → Forall P (readSlice mem s).
Proof. intros Hm. apply Forall_take. by apply Forall_lookup_total_mem. Qed.

Lemma Forall_appendSlice (P : A → Prop) ty zero mem s elems :
  P zero → Forall P elems → Forall (Forall P) mem →
  Forall (Forall P) (appendSlice ty zero mem s elems).2.
Proof.
  intros Hz He Hm. pose proof (Forall_lookup_total_mem P mem (ptr s) Hm) as Ha.
  unfold appendSlice. case_decide; simpl.
  - apply Forall_insert; [done|]. rewrite !Forall_app. split_and!; [|done|].
    + by apply Forall_take.
    + by apply Forall_drop.
  - apply Forall_makeSlice; [done| |done]. apply Forall_app. split; [|done].
    by apply Forall_take.
Qed.

Lemma lookup_total_alter_cell (f : A → A) mem i q :
  alter (alter f i) q mem !!! q = alter f i (mem !!! q).
Proof.
  rewrite list_lookup_total_alter. case_decide as Hq; [done|].
  rewrite lookup_total_nil_ge; [done|]. destruct (decide (q < length mem)); [|lia].
  by destruct Hq.
Qed.

Lemma readSlice_alter_cell (f : A → A) mem s i :
  i < len s →
  readSlice (alter (alter f i) (ptr s) mem) s = alter f i (readSlice mem s).
Proof.
  intros Hi. unfold readSlice. rewrite lookup_total_alter_cell.
  by rewrite take_alter_lt.
Qed.

Lemma grows_alter_cell (f : A → A) mem i q : grows mem (alter (alter f i) q mem).
Proof.
  intros p. rewrite list_lookup_total_alter. case_decide as Hp; [|done].
  destruct Hp as [<- _]. by rewrite length_alter.
Qed.

(** [append(s[:j], s[j+1:]...)] for [j] within [s]: always in place. *)
Lemma removeAt_spec ty zero mem s j :
  validSlice mem s → j < len s →
  let r := appendSlice ty zero mem (sliceTo s j) (elemsFrom mem s (j + 1)) in
  r.1 = Slice (ptr s) (len s - 1) (cap s)
  ∧ validSlice r.2 r.1
  ∧ grows mem r.2
  ∧ readSlice r.2 r.1 = delete j (readSlice mem s)
  ∧ readSlice r.2 s
    = delete j (readSlice mem s) ++ drop (len s - 1) (readSlice mem s).
Proof.
  intros Hv Hj. pose proof (length_readSlice mem s Hv) as Hlen.
  destruct Hv as [Hl Hc].
  assert (validSlice mem (sliceTo s j)) as Hvj by (split; simpl; lia).
  assert (length (elemsFrom mem s (j + 1)) = len s - 1 - j) as Hle.
  { unfold elemsFrom. rewrite length_drop. lia. }
  assert (ptr s < length mem) as Hp.
  { apply (validSlice_ptr_lt mem s); [done|lia]. }
  simpl. split_and!.
  - unfold appendSlice. simpl. rewrite Hle. case_decide; [|lia].
    simpl. f_equal. lia.
  - by apply appendSlice_valid.
  - by apply appendSlice_grows.
  - rewrite appendSlice_read by done. rewrite delete_take_drop.
    unfold elemsFrom, readSlice. simpl. rewrite take_take.
    rewrite Nat.add_1_r. do 2 f_equal. lia.
  - unfold appendSlice. simpl. rewrite Hle. case_decide; [|lia]. simpl.
    unfold readSlice at 1. rewrite list_lookup_total_insert_eq by done.
    rewrite app_assoc. rewrite take_app_ge.
    2:{ rewrite length_app, length_take, Hle. lia. }
    rewrite length_app, length_take, Hle.
    replace (len s - (j `min` length (mem !!! ptr s) + (len s - 1 - j))) with 1 by lia.
    replace (j + (len s - 1 - j)) with (len s - 1) by lia.
    rewrite take_drop_commute. replace (len s - 1 + 1) with (len s) by lia.
    rewrite delete_take_drop. unfold elemsFrom, readSlice.
    rewrite take_take, Nat.add_1_r. do 3 f_equal. lia.
Qed.

End memory_lemmas.

(** Allocation only adds arrays: what a valid header sees stays. *)

Section extends_lemmas.
Context {A : Type}.
Implicit Types (mem : list (list A)) (s : slice).

Lemma readSlice_extends mem more s :
  validSlice mem s → readSlice (mem ++ more) s = readSlice mem s.
Proof.
  intros Hv. unfold readSlice. destruct (decide (0 < cap s)) as [Hc|Hc].
  - rewrite lookup_total_app_l; [done|]. by eapply validSlice_ptr_lt.
  - destruct Hv as [Hl _]. replace (len s) with 0 by lia. done.
Qed.

Lemma grows_extends mem more : grows mem (mem ++ more).
Proof.
  intros p. destruct (decide (p < length mem)) as [Hp|Hp].
  - by rewrite lookup_total_app_l.
  - rewrite (lookup_total_nil_ge mem) by lia. simpl. lia.
Qed.

Lemma validSlice_nil mem : validSlice mem nilSlice.
Proof. split; simpl; lia. Qed.
End extends_lemmas.

(** ** Decoding a request body *)

Section decode.
Context `{GoRuntime}.

Lemma decodeSlice_spec {A} ty (zero : A) mem elems :
  ∃ more, (decodeSlice ty zero mem elems).2 = mem ++ more
    ∧ validSlice (mem ++ more) (decodeSlice ty zero mem elems).1
    ∧ readSlice (mem ++ more) (decodeSlice ty zero mem elems).1 = elems
    ∧ Forall (λ arr, ∀ x, x ∈ arr → x ∈ elems ∨ x = zero) more.
Proof.
  destruct elems as [|x elems].
  - exists []. simpl. rewrite app_nil_r. split_and!; [done|apply validSlice_nil|done|done].
  - unfold decodeSlice.
    set (l := x :: elems). set (c := decodecap ty (length l)).
    eexists. split; [reflexivity|].
    split_and!.
    + apply (makeSlice_valid zero mem l c).
    + apply (makeSlice_read zero mem l c).
    + apply Forall_singleton. intros y [Hy|Hy]%elem_of_app; [by left|].
      right. by apply elem_of_replicate in Hy as [-> _].
Qed.

Lemma validPlaylist_grows smem smem' p :
  grows smem smem' → validPlaylist smem p → validPlaylist smem' p.
Proof. apply validSlice_grows. Qed.

Lemma encodePlaylist_extends smem more p :
  validPlaylist smem p → encodePlaylist (smem ++ more) p = encodePlaylist smem p.
Proof. intros Hv. unfold encodePlaylist. by rewrite readSlice_extends. Qed.

Lemma decodePlaylists_spec ps : ∀ smem,
  ∃ more, (decodePlaylists smem ps).2 = smem ++ more
    ∧ Forall (validPlaylist (smem ++ more)) (decodePlaylists smem ps).1
    ∧ encodePlaylist (smem ++ more) <$> (decodePlaylists smem ps).1 = ps.
Proof.
  induction ps as [|p ps IH]; intros smem.
  - exists []. by rewrite app_nil_r.
  - simpl.
    destruct (decodeSlice_spec SongElem Song.zero smem (PlaylistJSON.Songs p))
      as (more1 & E1 & Hv1 & Hr1 & _).
    destruct (decodeSlice SongElem Song.zero smem (PlaylistJSON.Songs p))
      as [songs smem1]. simpl in *. subst smem1.
    destruct (IH (smem ++ more1)) as (more2 & E2 & Hv2 & Hr2).
    destruct (decodePlaylists (smem ++ more1) ps) as [ps' smem2]. simpl in *.
    subst smem2. exists (more1 ++ more2). rewrite !app_assoc.
    split_and!; [done| |].
    + constructor; [|done]. eapply validPlaylist_grows; [|exact Hv1].
      apply grows_extends.
    + f_equal; [|done]. rewrite encodePlaylist_extends by done.
      unfold encodePlaylist. simpl. rewrite Hr1. by destruct p.
Qed.
End decode.

(** ** The invariant of valid headers *)

Section invariant.
Context `{GoRuntime}.

Lemma Forall_cells_grows smem smem' (pmem : list (list Playlist.t)) :
  grows smem smem' →
  Forall (Forall (validPlaylist smem)) pmem →
  Forall (Forall (validPlaylist smem')) pmem.
Proof.
  intros Hg Hc. eapply Forall_impl; [exact Hc|]. intros arr Harr.
  eapply Forall_impl; [exact Harr|]. intros p. by apply validPlaylist_grows.
Qed.

Lemma validPlaylist_zero smem : validPlaylist smem Playlist.zero.
Proof. apply validSlice_nil. Qed.

(** The one way the handlers change the state. *)
Lemma Inv_step σ us pl rs smem pmem :
  Inv σ →
  grows (songMem σ) smem →
  grows (playlistMem σ) pmem →
  Forall (Forall (validPlaylist smem)) pmem →
  (∀ c u, us !! c = Some u →
     users σ !! c = Some u ∨ validSlice pmem (User.Playlists u)) →
  Inv (mkState us pl rs smem pmem).
Proof.
  intros [Hu Hc] Hgs Hgp Hcells Hus. split; simpl; [|done].
  intros c u Hcu. destruct (Hus c u Hcu) as [Hold|Hnew]; [|done].
  eapply validSlice_grows; [done|]. by eapply Hu.
Qed.

Lemma Inv_init seed : Inv (initState seed).
Proof. split; simpl; [|constructor]. intros c u. by rewrite lookup_empty. Qed.

Lemma decodeUser_spec j σ :
  ∃ moreS moreP,
    let r := decodeUser j σ in
    r.2 = set_playlistMem (playlistMem σ ++ moreP) (set_songMem (songMem σ ++ moreS) σ)
    ∧ validSlice (playlistMem σ ++ moreP) (User.Playlists r.1)
    ∧ Forall (Forall (validPlaylist (songMem σ ++ moreS))) moreP
    ∧ Forall (validPlaylist (songMem σ ++ moreS))
             (readSlice (playlistMem σ ++ moreP) (User.Playlists r.1))
    ∧ encodeUser r.2 r.1 = j.
Proof.
  unfold decodeUser.
  destruct (decodePlaylists_spec (UserJSON.Playlists j) (songMem σ))
    as (moreS & ES & HvS & HrS).
  destruct (decodePlaylists (songMem σ) (UserJSON.Playlists j)) as [ps smem].
  simpl in ES, HvS, HrS. subst smem.
  destruct (decodeSlice_spec PlaylistElem Playlist.zero (playlistMem σ) ps)
    as (moreP & EP & HvP & HrP & HmP).
  destruct (decodeSlice PlaylistElem Playlist.zero (playlistMem σ) ps) as [pls pmem].
  simpl in EP, HvP, HrP, HmP. subst pmem.
  exists moreS, moreP. simpl. split_and!; [done|done| | |].
  - eapply Forall_impl; [exact HmP|]. intros arr Harr. apply Forall_forall.
    intros x Hx. destruct (Harr x Hx) as [Hin| ->].
    + by eapply (proj1 (Forall_forall _ _) HvS).
    + apply validPlaylist_zero.
  - by rewrite HrP.
  - unfold encodeUser. simpl. rewrite HrP, HrS. by destruct j.
Qed.

End invariant.

(** ** [registerHandler] *)

Section register.
Context `{GoRuntime}.

Lemma profile_eq us pl rs smem pmem c u :
  us !! c = Some u →
  profile (mkState us pl rs smem pmem) c
  = Some (UserJSON.mk (User.ID u) (User.SecretCode u) (User.Name u) (User.Email u)
            (encodePlaylist smem <$> readSlice pmem (User.Playlists u))).
Proof. intros Hu. unfold profile. simpl. by rewrite Hu. Qed.

Lemma fmap_encodePlaylist_extends smem more (ps : list Playlist.t) :
  Forall (validPlaylist smem) ps →
  encodePlaylist (smem ++ more) <$> ps = encodePlaylist smem <$> ps.
Proof.
  intros Hv. apply list_fmap_ext. intros i p Hp.
  apply encodePlaylist_extends. by eapply Forall_lookup_1.
Qed.

Lemma registerHandler_spec j σ :
  ∃ σ', registerHandler (Some j) σ = (Encode (UserBody (registered σ j)), σ')
    ∧ profile σ' (nextID σ 1) = Some (registered σ j)
    ∧ (Inv σ → Inv σ').
Proof.
  unfold registerHandler.
  destruct (decodeUser_spec j σ) as (moreS & moreP & Hd).
  destruct (decodeUser j σ) as [user σ1]. simpl in Hd.
  destruct Hd as (-> & Hv & Hcells & Hlive & Henc).
  destruct σ as [us pl [st dr] smem pmem]. unfold encodeUser in Henc.
  simpl in *.
  set (song := Song.mk _ "Default Song" _ _).
  set (p := Playlist.mk _ "Default" _).
  unfold appendPlaylist. simpl.
  set (user' := User.set_SecretCode _ _).
  pose proof (appendSlice_valid PlaylistElem Playlist.zero (pmem ++ moreP)
                (User.Playlists user) [p] Hv) as Hv'.
  pose proof (appendSlice_read PlaylistElem Playlist.zero (pmem ++ moreP)
                (User.Playlists user) [p] Hv) as Hr'.
  pose proof (appendSlice_grows PlaylistElem Playlist.zero (pmem ++ moreP)
                (User.Playlists user) [p] Hv) as Hg'.
  pose proof (Forall_appendSlice (validPlaylist ((smem ++ moreS) ++ [[song]]))
                PlaylistElem Playlist.zero (pmem ++ moreP)
                (User.Playlists user) [p]) as Hc'.
  destruct (appendSlice PlaylistElem Playlist.zero (pmem ++ moreP)
              (User.Playlists user) [p]) as [pls' pmem'].
  simpl in *.
  assert (validPlaylist ((smem ++ moreS) ++ [[song]]) p) as Hp.
  { apply (makeSlice_valid Song.zero (smem ++ moreS) [song] 1). }
  assert (encodePlaylist ((smem ++ moreS) ++ [[song]]) <$> readSlice pmem' pls'
          = UserJSON.Playlists j ++
            [PlaylistJSON.mk (Playlist.ID p) "Default" [song]]) as Hplays.
  { rewrite Hr', fmap_app, fmap_encodePlaylist_extends by done.
    subst j. simpl. f_equal. unfold encodePlaylist. simpl. do 2 f_equal.
    apply (makeSlice_read Song.zero (smem ++ moreS) [song] 1). }
  eexists. split_and!.
  - f_equal. f_equal. f_equal. unfold encodeUser, storeUser. simpl.
    rewrite Hplays. by subst j.
  - unfold storeUser, profile, encodeUser. simpl. rewrite lookup_insert_eq.
    simpl. rewrite Hplays. by subst j.
  - intros HI. unfold storeUser. simpl. eapply Inv_step; [exact HI|..]; simpl.
    + rewrite <- app_assoc. apply grows_extends.
    + eapply grows_trans; [apply grows_extends|exact Hg'].
    + apply Hc'; [apply validPlaylist_zero|by constructor|].
      apply Forall_app. split.
      * eapply Forall_cells_grows; [|apply (Inv_cells _ HI)]. simpl.
        rewrite <- app_assoc. apply grows_extends.
      * eapply Forall_cells_grows; [|exact Hcells]. apply grows_extends.
    + intros c u [[_ <-]|[_ Hu]]%lookup_insert_Some; [by right|by left].
Qed.
End register.

(** ** [createPlaylist] *)

Section createPlaylist.
Context `{GoRuntime}.

Lemma appendPlaylist_spec user p σ :
  validSlice (playlistMem σ) (User.Playlists user) →
  ∃ pls' pmem',
    appendPlaylist user p σ = (User.set_Playlists pls' user, set_playlistMem pmem' σ)
    ∧ validSlice pmem' pls'
    ∧ readSlice pmem' pls' = readSlice (playlistMem σ) (User.Playlists user) ++ [p]
    ∧ grows (playlistMem σ) pmem'
    ∧ (∀ P : Playlist.t → Prop, P Playlist.zero → P p →
         Forall (Forall P) (playlistMem σ) → Forall (Forall P) pmem').
Proof.
  intros Hv. unfold appendPlaylist.
  pose proof (appendSlice_valid PlaylistElem Playlist.zero _ _ [p] Hv) as Hv'.
  pose proof (appendSlice_read PlaylistElem Playlist.zero _ _ [p] Hv) as Hr'.
  pose proof (appendSlice_grows PlaylistElem Playlist.zero _ _ [p] Hv) as Hg'.
  pose proof (λ P, Forall_appendSlice P PlaylistElem Playlist.zero
                     (playlistMem σ) (User.Playlists user) [p]) as Hc'.
  destruct (appendSlice PlaylistElem Playlist.zero (playlistMem σ)
              (User.Playlists user) [p]) as [pls' pmem'].
  exists pls', pmem'. split_and!; try done.
  intros P Hz Hp. apply Hc'; [done|by constructor].
Qed.

Lemma createPlaylist_spec c name σ user :
  Inv σ → users σ !! c = Some user →
  ∃ σ', createPlaylist c name σ
        = (Encode (PlaylistBody
             (PlaylistJSON.mk (nextID σ 0) name [defaultSong (nextID σ 1)])), σ')
    ∧ Inv σ'
    ∧ ∃ u, profile σ c = Some u
      ∧ profile σ' c
        = Some (UserJSON.mk (UserJSON.ID u) (UserJSON.SecretCode u) (UserJSON.Name u)
                  (UserJSON.Email u)
                  (UserJSON.Playlists u ++
                   [PlaylistJSON.mk (nextID σ 0) name [defaultSong (nextID σ 1)]])).
Proof.
  intros HI Hu. unfold createPlaylist. rewrite Hu.
  destruct σ as [us pl [st dr] smem pmem]. simpl in *.
  set (song := Song.mk _ "Default Song" _ _).
  set (p := Playlist.mk _ name _).
  set (σ1 := set_songMem _ _).
  destruct (appendPlaylist_spec user p σ1) as (pls' & pmem' & -> & Hv' & Hr' & Hg' & Hc').
  { apply (Inv_users _ HI c user Hu). }
  subst σ1. simpl in *.
  assert (validPlaylist (smem ++ [[song]]) p) as Hp.
  { apply (makeSlice_valid Song.zero smem [song] 1). }
  assert (encodePlaylist (smem ++ [[song]]) p
          = PlaylistJSON.mk (Playlist.ID p) name [song]) as Hep.
  { unfold encodePlaylist. simpl. f_equal.
    apply (makeSlice_read Song.zero smem [song] 1). }
  assert (Forall (Forall (validPlaylist (smem ++ [[song]]))) pmem) as Hcells.
  { eapply Forall_cells_grows; [|apply (Inv_cells _ HI)]. apply grows_extends. }
  eexists. split_and!.
  - unfold storeUser. simpl. rewrite Hep. reflexivity.
  - unfold storeUser. simpl. eapply Inv_step; [exact HI|..]; simpl.
    + apply grows_extends.
    + done.
    + apply Hc'; [apply validPlaylist_zero|done|done].
    + intros c' u [[_ <-]|[_ Hu']]%lookup_insert_Some; [by right|by left].
  - eexists. split; [by apply profile_eq|].
    unfold storeUser, profile, encodeUser. simpl. rewrite lookup_insert_eq. simpl.
    rewrite Hr', fmap_app. simpl. rewrite Hep.
    rewrite fmap_encodePlaylist_extends; [done|].
    apply Forall_readSlice, (Inv_cells _ HI).
Qed.
End createPlaylist.

Lemma songIndex_find sid songs : ∀ k,
  songIndex sid k songs
  = (λ x : nat * Song.t, k + x.1) <$> list_find (λ s, Song.ID s = sid) songs.
Proof.
  induction songs as [|s songs IH]; intros k; simpl; [done|].
  case_decide; simpl; [f_equal; lia|]. rewrite IH.
  destruct (list_find _ songs) as [[j x]|]; simpl; [f_equal; lia|done].
Qed.

Lemma songIndex_Some sid songs j :
  songIndex sid 0 songs = Some j ↔
  ∃ s, songs !! j = Some s ∧ Song.ID s = sid
       ∧ ∀ j' s', songs !! j' = Some s' → j' < j → Song.ID s' ≠ sid.
Proof.
  rewrite songIndex_find. split.
  - destruct (list_find _ songs) as [[j' s]|] eqn:E; simpl; [|done].
    intros [= <-]. apply list_find_Some in E. by exists s.
  - intros (s & Hs & Hid & Hfirst).
    assert (list_find (λ s, Song.ID s = sid) songs = Some (j, s)) as ->; [|done].
    by apply list_find_Some.
Qed.

Lemma songIndex_None sid songs :
  songIndex sid 0 songs = None ↔ Forall (λ s, Song.ID s ≠ sid) songs.
Proof.
  rewrite songIndex_find, <- (list_find_None (λ s, Song.ID s = sid)).
  destruct (list_find _ songs) as [[j' s]|]; simpl; split; intros; congruence.
Qed.

(** ** [deleteSongFromPlaylist]: the iteration that removes *)

Section deleteSong.
Context `{GoRuntime}.
Context (c sid pid : string) (user : User.t) (σ : State).
Context (HI : Inv σ) (Hu : users σ !! c = Some user).

Lemma live_valid i pl :
  readSlice (playlistMem σ) (User.Playlists user) !! i = Some pl →
  validPlaylist (songMem σ) pl ∧ i < len (User.Playlists user).
Proof.
  intros Hpl. split.
  - eapply Forall_lookup_1; [|exact Hpl]. apply Forall_readSlice, (Inv_cells _ HI).
  - unfold readSlice in Hpl. by apply lookup_take_Some in Hpl as [_ ?].
Qed.

Lemma deleteSongRange_hit i pl rest j :
  readSlice (playlistMem σ) (User.Playlists user) !! i = Some pl →
  Playlist.ID pl = pid →
  len (Playlist.Songs pl) ≠ 1 →
  songIndex sid 0 (readSlice (songMem σ) (Playlist.Songs pl)) = Some j →
  let songs := readSlice (songMem σ) (Playlist.Songs pl) in
  ∃ σ' user',
    deleteSongRange c sid pid user σ i (pl :: rest)
    = (Encode (PlaylistBody
         (PlaylistJSON.mk (Playlist.ID pl) (Playlist.Name pl)
            (delete j songs ++ drop (length songs - 1) songs))), σ')
    ∧ Inv σ'
    ∧ users σ' = <[c := user]> (users σ)
    ∧ readSlice (playlistMem σ') (User.Playlists user)
      = alter (Playlist.set_Songs (Slice (ptr (Playlist.Songs pl))
                                         (len (Playlist.Songs pl) - 1)
                                         (cap (Playlist.Songs pl)))) i
              (readSlice (playlistMem σ) (User.Playlists user))
    ∧ user' = user
    ∧ readSlice (songMem σ') (Slice (ptr (Playlist.Songs pl))
                                     (len (Playlist.Songs pl) - 1)
                                     (cap (Playlist.Songs pl)))
      = delete j songs.
Proof.
  intros Hpl Hid Hlen Hj songs.
  destruct (live_valid i pl Hpl) as [Hv Hi].
  assert (j < len (Playlist.Songs pl)) as Hjl.
  { apply songIndex_Some in Hj as (s & Hs & _).
    apply lookup_lt_Some in Hs. by rewrite length_readSlice in Hs. }
  destruct (removeAt_spec SongElem Song.zero (songMem σ) (Playlist.Songs pl) j Hv Hjl)
    as (E1 & Hv' & Hg' & Hr1 & Hr2).
  simpl. rewrite decide_True by done. rewrite decide_False by done.
  rewrite Hj.
  destruct (appendSlice SongElem Song.zero (songMem σ)
              (sliceTo (Playlist.Songs pl) j)
              (elemsFrom (songMem σ) (Playlist.Songs pl) (j + 1)))
    as [songs' smem']. simpl in *. subst songs'.
  eexists _, user. split_and!.
  - unfold encodePlaylist. simpl. rewrite Hr2. subst songs.
    by rewrite (length_readSlice _ _ Hv).
  - destruct σ as [us pl0 rs smem pmem]. unfold storeUser, storeSongs; simpl in *.
    eapply Inv_step; [exact HI|..]; simpl.
    + done.
    + apply grows_alter_cell.
    + apply Forall_alter; [by eapply Forall_cells_grows, (Inv_cells _ HI)|].
      intros arr Harr Hcells. apply Forall_alter; [done|].
      intros x Hx _. exact Hv'.
    + intros c' u [[<- <-]|[_ Hu']]%lookup_insert_Some; left; done.
  - done.
  - unfold storeUser, storeSongs. simpl. by apply readSlice_alter_cell.
  - done.
  - done.
Qed.
End deleteSong.

(** ** From stored users to their documents *)

Section deleteSong_top.
Context `{GoRuntime}.

Lemma deleteSongRange_pre c sid pid user σ pre : ∀ i rest,
  Forall (λ q, Playlist.ID q = pid →
               songIndex sid 0 (readSlice (songMem σ) (Playlist.Songs q)) = None) pre →
  (deleteSongRange c sid pid user σ i (pre ++ rest)
     = (sendError "Playlist cannot be empty" StatusBadRequest, σ)
   ∧ Exists (λ q, Playlist.ID q = pid ∧ len (Playlist.Songs q) = 1) pre)
  ∨ deleteSongRange c sid pid user σ i (pre ++ rest)
    = deleteSongRange c sid pid user σ (i + length pre) rest.
Proof.
  induction pre as [|q pre IH]; intros i rest Hpre; simpl.
  - right. by rewrite Nat.add_0_r.
  - apply Forall_cons in Hpre as [Hq Hpre].
    replace (i + S (length pre)) with (S i + length pre) by lia.
    case_decide as Hid.
    + case_decide; [left; split; [done|by left]|]. rewrite (Hq Hid).
      destruct (IH (S i) rest Hpre) as [[E Hex]|E]; [left|right]; [|done].
      split; [done|by right].
    + destruct (IH (S i) rest Hpre) as [[E Hex]|E]; [left|right]; [|done].
      split; [done|by right].
Qed.

Lemma profile_Some σ c u :
  profile σ c = Some u ↔ ∃ user, users σ !! c = Some user ∧ u = encodeUser σ user.
Proof.
  unfold profile. destruct (users σ !! c) as [user|]; simpl; split.
  - intros [= <-]. by exists user.
  - by intros (user' & [= <-] & ->).
  - done.
  - by intros (? & ? & _).
Qed.

Lemma playlists_lookup σ user i p :
  UserJSON.Playlists (encodeUser σ user) !! i = Some p ↔
  ∃ pl, readSlice (playlistMem σ) (User.Playlists user) !! i = Some pl
        ∧ p = encodePlaylist (songMem σ) pl.
Proof.
  unfold encodeUser. simpl. rewrite list_lookup_fmap.
  destruct (readSlice _ _ !! i) as [pl|]; simpl; split.
  - intros [= <-]. by exists pl.
  - by intros (pl' & [= <-] & ->).
  - done.
  - by intros (? & ? & _).
Qed.

Lemma earlier_lack σ user sid pid i :
  (∀ k q, k < i → UserJSON.Playlists (encodeUser σ user) !! k = Some q →
          PlaylistJSON.ID q = pid →
          Forall (λ s, Song.ID s ≠ sid) (PlaylistJSON.Songs q)) →
  Forall (λ q, Playlist.ID q = pid →
               songIndex sid 0 (readSlice (songMem σ) (Playlist.Songs q)) = None)
         (take i (readSlice (playlistMem σ) (User.Playlists user))).
Proof.
  intros Hearly. apply Forall_lookup. intros k q Hk Hid.
  apply lookup_take_Some in Hk as [Hk Hlt]. apply songIndex_None.
  apply (Hearly k (encodePlaylist (songMem σ) q) Hlt); [|done].
  apply playlists_lookup. by exists q.
Qed.

End deleteSong_top.

(** ** [addSongToPlaylist]: the iteration that appends *)

Section addSong.
Context `{GoRuntime}.
Context (c pid : string) (newSong : Song.t) (user : User.t) (σ : State).
Context (HI : Inv σ) (Hu : users σ !! c = Some user).

Lemma addSongRange_skip pre : ∀ i rest,
  Forall (λ q, Playlist.ID q ≠ pid) pre →
  addSongRange c pid newSong user σ i (pre ++ rest)
  = addSongRange c pid newSong user σ (i + length pre) rest.
Proof.
  induction pre as [|q pre IH]; intros i rest Hpre; simpl.
  - by rewrite Nat.add_0_r.
  - apply Forall_cons in Hpre as [Hq Hpre].
    replace (i + S (length pre)) with (S i + length pre) by lia.
    rewrite decide_False by done. by apply IH.
Qed.

Lemma addSongRange_hit i pl rest :
  readSlice (playlistMem σ) (User.Playlists user) !! i = Some pl →
  Playlist.ID pl = pid →
  let song := Song.set_ID (nextID σ 0) newSong in
  ∃ σ' songs',
    addSongRange c pid newSong user σ i (pl :: rest) = (Encode (SongBody song), σ')
    ∧ Inv σ'
    ∧ users σ' = <[c := user]> (users σ)
    ∧ readSlice (playlistMem σ') (User.Playlists user)
      = alter (Playlist.set_Songs songs') i
              (readSlice (playlistMem σ) (User.Playlists user))
    ∧ readSlice (songMem σ') songs'
      = readSlice (songMem σ) (Playlist.Songs pl) ++ [song].
Proof.
  intros Hpl Hid song.
  destruct (live_valid user σ HI i pl Hpl) as [Hv Hi].
  simpl. rewrite decide_True by done.
  destruct σ as [us pl0 [st dr] smem pmem]. unfold nextID in song. simpl in *.
  fold song.
  pose proof (appendSlice_valid SongElem Song.zero _ _ [song] Hv) as Hv'.
  pose proof (appendSlice_read SongElem Song.zero _ _ [song] Hv) as Hr'.
  pose proof (appendSlice_grows SongElem Song.zero _ _ [song] Hv) as Hg'.
  destruct (appendSlice SongElem Song.zero smem (Playlist.Songs pl) [song])
    as [songs' smem']. simpl in *.
  eexists _, songs'. split_and!.
  - reflexivity.
  - unfold storeUser, storeSongs; simpl. eapply Inv_step; [exact HI|..]; simpl.
    + done.
    + apply grows_alter_cell.
    + apply Forall_alter; [by eapply Forall_cells_grows, (Inv_cells _ HI)|].
      intros arr Harr Hcells. apply Forall_alter; [done|].
      intros x Hx _. exact Hv'.
    + intros c' u [[<- <-]|[_ Hu']]%lookup_insert_Some; left; done.
  - done.
  - unfold storeUser, storeSongs. simpl. by apply readSlice_alter_cell.
  - done.
Qed.
End addSong.

(** ** [deletePlaylist]: the iteration that removes *)

Section deletePlaylist.
Context `{GoRuntime}.
Context (c pid : string) (user : User.t) (σ : State).
Context (HI : Inv σ) (Hu : users σ !! c = Some user).

Lemma deletePlaylistRange_hit i pl rest :
  readSlice (playlistMem σ) (User.Playlists user) !! i = Some pl →
  Playlist.ID pl = pid →
  ∃ σ' u,
    deletePlaylistRange c pid user σ i (pl :: rest) = (Encode (UserBody u), σ')
    ∧ Inv σ'
    ∧ profile σ' c = Some u
    ∧ u = UserJSON.mk (User.ID user) (User.SecretCode user) (User.Name user)
            (User.Email user)
            (delete i (UserJSON.Playlists (encodeUser σ user))).
Proof.
  intros Hpl Hid.
  destruct (live_valid user σ HI i pl Hpl) as [_ Hi].
  pose proof (Inv_users _ HI c user Hu) as Hv.
  destruct (removeAt_spec PlaylistElem Playlist.zero (playlistMem σ)
              (User.Playlists user) i Hv Hi) as (E1 & Hv' & Hg' & Hr1 & _).
  pose proof (Forall_appendSlice (validPlaylist (songMem σ)) PlaylistElem Playlist.zero
                (playlistMem σ) (sliceTo (User.Playlists user) i)
                (elemsFrom (playlistMem σ) (User.Playlists user) (i + 1))) as Hc'.
  simpl. rewrite decide_True by done.
  destruct (appendSlice PlaylistElem Playlist.zero (playlistMem σ)
              (sliceTo (User.Playlists user) i)
              (elemsFrom (playlistMem σ) (User.Playlists user) (i + 1)))
    as [pls' pmem']. simpl in *. subst pls'.
  destruct σ as [us pl0 rs smem pmem]. simpl in *.
  assert (encodePlaylist smem <$> readSlice pmem'
            (Slice (ptr (User.Playlists user)) (len (User.Playlists user) - 1)
                   (cap (User.Playlists user)))
          = delete i (encodePlaylist smem <$> readSlice pmem (User.Playlists user)))
    as Hdel.
  { rewrite Hr1. rewrite !delete_take_drop. by rewrite fmap_app, fmap_take, fmap_drop. }
  eexists _, _. split_and!.
  - reflexivity.
  - unfold storeUser. simpl. eapply Inv_step; [exact HI|..]; simpl.
    + apply grows_refl.
    + done.
    + apply Hc'; [apply validPlaylist_zero| |apply (Inv_cells _ HI)].
      apply Forall_drop, Forall_readSlice, (Inv_cells _ HI).
    + intros c' u [[<- <-]|[_ Hu']]%lookup_insert_Some; [by right|by left].
  - unfold storeUser, profile. simpl. by rewrite lookup_insert_eq.
  - unfold storeUser, encodeUser. simpl. by rewrite Hdel.
Qed.
End deletePlaylist.

(** ** Every reachable state is valid *)

Section preservation.
Context `{GoRuntime}.

Lemma suffix_tail {A} (full : list A) i x rest :
  (∀ k y, (x :: rest) !! k = Some y → full !! (i + k) = Some y) →
  full !! i = Some x ∧ ∀ k y, rest !! k = Some y → full !! (S i + k) = Some y.
Proof.
  intros Hs. split.
  - rewrite <- (Nat.add_0_r i). by apply Hs.
  - intros k y Hk. replace (S i + k) with (i + S k) by lia. by apply Hs.
Qed.

Lemma deleteSongRange_Inv c sid pid user σ :
  Inv σ → users σ !! c = Some user →
  ∀ rest i,
    (∀ k pl, rest !! k = Some pl →
       readSlice (playlistMem σ) (User.Playlists user) !! (i + k) = Some pl) →
    Inv (deleteSongRange c sid pid user σ i rest).2.
Proof.
  intros HI Hu rest. induction rest as [|pl rest IH]; intros i Hs; [done|].
  apply suffix_tail in Hs as [Hpl Hs].
  destruct (decide (Playlist.ID pl = pid)) as [Hid|Hid].
  - destruct (decide (len (Playlist.Songs pl) = 1)) as [Hlen|Hlen].
    + simpl. by rewrite !decide_True.
    + destruct (songIndex sid 0 (readSlice (songMem σ) (Playlist.Songs pl)))
        as [j|] eqn:Hj.
      * destruct (deleteSongRange_hit c sid pid user σ HI Hu i pl rest j)
          as (σ' & _ & -> & HI' & _); done.
      * simpl. rewrite decide_True, decide_False, Hj by done. by apply IH.
  - simpl. rewrite decide_False by done. by apply IH.
Qed.

Lemma addSongRange_Inv c pid song user σ :
  Inv σ → users σ !! c = Some user →
  ∀ rest i,
    (∀ k pl, rest !! k = Some pl →
       readSlice (playlistMem σ) (User.Playlists user) !! (i + k) = Some pl) →
    Inv (addSongRange c pid song user σ i rest).2.
Proof.
  intros HI Hu rest. induction rest as [|pl rest IH]; intros i Hs; [done|].
  apply suffix_tail in Hs as [Hpl Hs].
  destruct (decide (Playlist.ID pl = pid)) as [Hid|Hid].
  - destruct (addSongRange_hit c pid song user σ HI Hu i pl rest)
      as (σ' & _ & -> & HI' & _); done.
  - simpl. rewrite decide_False by done. by apply IH.
Qed.

Lemma deletePlaylistRange_Inv c pid user σ :
  Inv σ → users σ !! c = Some user →
  ∀ rest i,
    (∀ k pl, rest !! k = Some pl →
       readSlice (playlistMem σ) (User.Playlists user) !! (i + k) = Some pl) →
    Inv (deletePlaylistRange c pid user σ i rest).2.
Proof.
  intros HI Hu rest. induction rest as [|pl rest IH]; intros i Hs; [done|].
  apply suffix_tail in Hs as [Hpl Hs].
  destruct (decide (Playlist.ID pl = pid)) as [Hid|Hid].
  - destruct (deletePlaylistRange_hit c pid user σ HI Hu i pl rest)
      as (σ' & u & -> & HI' & _); done.
  - simpl. rewrite decide_False by done. by apply IH.
Qed.

Lemma serve_Inv r σ : Inv σ → Inv (serve r σ).2.
Proof.
  intros HI. destruct r as [c|b|c|c n|c s p|c p b|c p|c s]; simpl.
  - unfold loginHandler. by destruct (users σ !! c).
  - destruct b as [j|]; [|done].
    destruct (registerHandler_spec j σ) as (σ' & -> & _ & HI'). by apply HI'.
  - unfold viewProfile. by destruct (users σ !! c).
  - unfold createPlaylist. destruct (users σ !! c) as [user|] eqn:Hu.
    + destruct (createPlaylist_spec c n σ user HI Hu) as (σ' & E & HI' & _).
      unfold createPlaylist in E. rewrite Hu in E. by rewrite E.
    + done.
  - unfold deleteSongFromPlaylist. destruct (users σ !! c) as [user|] eqn:Hu; [|done].
    by apply deleteSongRange_Inv.
  - unfold addSongToPlaylist. destruct b as [song|]; [|done].
    destruct (users σ !! c) as [user|] eqn:Hu; [|done].
    by apply addSongRange_Inv.
  - unfold deletePlaylist. destruct (users σ !! c) as [user|] eqn:Hu; [|done].
    by apply deletePlaylistRange_Inv.
  - unfold getSongDetail. destruct (users σ !! c); [|done].
    by destruct (getSongRange _ _ _).
Qed.

(** In every reachable state, every stored header lies within its array. *)
Lemma reachable_Inv σ : reachable σ → Inv σ.
Proof.
  induction 1 as [seed|r σ Hr IH]; [apply Inv_init|by apply serve_Inv].
Qed.

Lemma reachable_run rs : ∀ σ, reachable σ → reachable (run rs σ).
Proof.
  induction rs as [|r rs IH]; intros σ Hσ; [done|]. simpl. apply IH.
  by constructor.
Qed.

End preservation.

(** ** [getSongDetail] as a search *)

Section readers.
Context `{GoRuntime}.

Lemma songRange_find sid songs :
  songRange sid songs = snd <$> list_find (λ s, Song.ID s = sid) songs.
Proof.
  induction songs as [|s songs IH]; simpl; [done|].
  case_decide; [done|]. rewrite IH. by destruct (list_find _ songs) as [[j x]|].
Qed.

Lemma getSongRange_find sid σ pls :
  getSongRange sid σ pls
  = snd <$> list_find (λ s, Song.ID s = sid)
              (mjoin (PlaylistJSON.Songs <$> (encodePlaylist (songMem σ) <$> pls))).
Proof.
  induction pls as [|pl pls IH]; simpl; [done|].
  rewrite songRange_find.
  destruct (list_find (λ s, Song.ID s = sid) (readSlice (songMem σ) (Playlist.Songs pl)))
    as [[j x]|] eqn:E; simpl.
  - by erewrite list_find_app_l.
  - rewrite list_find_app_r by done. rewrite IH.
    by destruct (list_find _ (mjoin _)) as [[j x]|].
Qed.

End readers.

(** ** The map [playlists] takes no part *)

Section dead_state.
Context `{GoRuntime}.

Lemma deleteSongRange_playlists c sid pid user m σ pls : ∀ i,
  deleteSongRange c sid pid user (set_playlists m σ) i pls
  = ((deleteSongRange c sid pid user σ i pls).1,
     set_playlists m (deleteSongRange c sid pid user σ i pls).2).
Proof.
  induction pls as [|pl pls IH]; intros i; simpl; [done|].
  repeat case_decide; try done.
  destruct (songIndex _ _ _); [|done]. by split_pairs.
Qed.

Lemma addSongRange_playlists c pid song user m σ pls : ∀ i,
  addSongRange c pid song user (set_playlists m σ) i pls
  = ((addSongRange c pid song user σ i pls).1,
     set_playlists m (addSongRange c pid song user σ i pls).2).
Proof.
  induction pls as [|pl pls IH]; intros i; simpl; [done|].
  case_decide; [|done]. by split_pairs.
Qed.

Lemma deletePlaylistRange_playlists c pid user m σ pls : ∀ i,
  deletePlaylistRange c pid user (set_playlists m σ) i pls
  = ((deletePlaylistRange c pid user σ i pls).1,
     set_playlists m (deletePlaylistRange c pid user σ i pls).2).
Proof.
  induction pls as [|pl pls IH]; intros i; simpl; [done|].
  case_decide; [|done]. by split_pairs.
Qed.

Lemma decodeUser_playlists j m σ :
  decodeUser j (set_playlists m σ)
  = ((decodeUser j σ).1, set_playlists m (decodeUser j σ).2).
Proof. unfold decodeUser. simpl. by split_pairs. Qed.

(** No handler reads or writes [playlists]. *)
Lemma serve_set_playlists r m σ :
  serve r (set_playlists m σ) = ((serve r σ).1, set_playlists m (serve r σ).2).
Proof.
  destruct r as [c|b|c|c n|c s p|c p b|c p|c s]; simpl.
  - unfold loginHandler. simpl. by destruct (users σ !! c).
  - unfold registerHandler. destruct b as [j|]; [|done].
    rewrite decodeUser_playlists. destruct (decodeUser j σ) as [user σ1].
    unfold appendPlaylist. simpl. by split_pairs.
  - unfold viewProfile. simpl. by destruct (users σ !! c).
  - unfold createPlaylist. simpl. destruct (users σ !! c); [|done].
    unfold appendPlaylist. simpl. by split_pairs.
  - unfold deleteSongFromPlaylist. simpl. destruct (users σ !! c); [|done].
    apply deleteSongRange_playlists.
  - unfold addSongToPlaylist. destruct b; [|done]. simpl.
    destruct (users σ !! c); [|done]. apply addSongRange_playlists.
  - unfold deletePlaylist. simpl. destruct (users σ !! c); [|done].
    apply deletePlaylistRange_playlists.
  - unfold getSongDetail. simpl. destruct (users σ !! c); [|done].
    assert (∀ pls, getSongRange s (set_playlists m σ) pls = getSongRange s σ pls) as ->.
    { induction pls as [|pl pls IH]; simpl; [done|]. by rewrite IH. }
    by destruct (getSongRange _ _ _).
Qed.

Lemma serve_playlists r σ : playlists (serve r σ).2 = playlists σ.
Proof.
  pose proof (serve_set_playlists r (playlists σ) σ) as E.
  replace (set_playlists (playlists σ) σ) with σ in E by by destruct σ.
  apply (f_equal (λ x, playlists x.2)) in E. done.
Qed.

End dead_state.

(** ** Errors come before writes *)

Section atomicity.
Context `{GoRuntime}.

Lemma deleteSongRange_error c sid pid user σ k pls : ∀ i,
  errorKind (deleteSongRange c sid pid user σ i pls).1 = Some k →
  (deleteSongRange c sid pid user σ i pls).2 = σ.
Proof.
  induction pls as [|pl pls IH]; intros i; simpl; [done|].
  repeat case_decide; try done; try apply IH.
  destruct (songIndex _ _ _); [|apply IH]. by split_pairs.
Qed.

Lemma addSongRange_error c pid song user σ k pls : ∀ i,
  errorKind (addSongRange c pid song user σ i pls).1 = Some k →
  (addSongRange c pid song user σ i pls).2 = σ.
Proof.
  induction pls as [|pl pls IH]; intros i; simpl; [done|].
  case_decide; [|apply IH]. by split_pairs.
Qed.

Lemma deletePlaylistRange_error c pid user σ k pls : ∀ i,
  errorKind (deletePlaylistRange c pid user σ i pls).1 = Some k →
  (deletePlaylistRange c pid user σ i pls).2 = σ.
Proof.
  induction pls as [|pl pls IH]; intros i; simpl; [done|].
  case_decide; [|apply IH]. by split_pairs.
Qed.

End atomicity.

(** ** [deleteSongFromPlaylist] on the documents *)

Section removeSong.
Context `{GoRuntime}.

(** What [deleteSongFromPlaylist] does once its loop arrives at a playlist
    with the given identifier that holds the song and more. *)
Lemma deleteSong_at σ c sid pid u i p j s :
  Inv σ →
  profile σ c = Some u →
  UserJSON.Playlists u !! i = Some p →
  PlaylistJSON.ID p = pid →
  2 ≤ length (PlaylistJSON.Songs p) →
  PlaylistJSON.Songs p !! j = Some s →
  Song.ID s = sid →
  (∀ j' s', j' < j → PlaylistJSON.Songs p !! j' = Some s' → Song.ID s' ≠ sid) →
  (∀ k q, k < i → UserJSON.Playlists u !! k = Some q → PlaylistJSON.ID q = pid →
          Forall (λ s, Song.ID s ≠ sid) (PlaylistJSON.Songs q)) →
  let songs := PlaylistJSON.Songs p in
  let r := deleteSongFromPlaylist c sid pid σ in
  (r = (sendError "Playlist cannot be empty" StatusBadRequest, σ)
   ∧ ∃ k q, k < i ∧ UserJSON.Playlists u !! k = Some q ∧ PlaylistJSON.ID q = pid
            ∧ length (PlaylistJSON.Songs q) = 1)
  ∨ (r.1 = Encode (PlaylistBody
                (PlaylistJSON.mk (PlaylistJSON.ID p) (PlaylistJSON.Name p)
                   (delete j songs ++ drop (length songs - 1) songs)))
     ∧ Inv r.2
     ∧ ∃ u', profile r.2 c = Some u'
         ∧ UserJSON.Playlists u' !! i
           = Some (PlaylistJSON.mk (PlaylistJSON.ID p) (PlaylistJSON.Name p)
                     (delete j songs))).
Proof.
  intros HI Hprof Hp Hid Hlen Hj Hs Hfirst Hearly songs r.
  apply profile_Some in Hprof as (user & Hu & ->).
  apply playlists_lookup in Hp as (pl & Hpl & ->).
  subst r songs. unfold deleteSongFromPlaylist. rewrite Hu.
  pose proof (take_drop_middle _ i pl Hpl) as Hmid.
  pose proof (lookup_lt_Some _ _ _ Hpl) as Hi.
  destruct (live_valid user σ HI i pl Hpl) as [Hv _].
  set (pls := readSlice (playlistMem σ) (User.Playlists user)) in *.
  assert (deleteSongRange c sid pid user σ 0 pls
          = deleteSongRange c sid pid user σ 0 (take i pls ++ pl :: drop (S i) pls))
    as -> by (by rewrite Hmid).
  subst pls.
  destruct (deleteSongRange_pre c sid pid user σ
              (take i (readSlice (playlistMem σ) (User.Playlists user))) 0
              (pl :: drop (S i) (readSlice (playlistMem σ) (User.Playlists user)))
              (earlier_lack σ user sid pid i Hearly)) as [[E Hex]|E]; rewrite E.
  - left. split; [done|]. apply Exists_exists in Hex as (q & Hq & Hqid & Hqlen).
    apply list_elem_of_lookup in Hq as [k Hk].
    apply lookup_take_Some in Hk as [Hk Hki].
    exists k, (encodePlaylist (songMem σ) q). split_and!; [done| |done|].
    + apply playlists_lookup. by exists q.
    + simpl. rewrite length_readSlice; [done|].
      by apply (live_valid user σ HI k q Hk).
  - right. rewrite length_take, Nat.min_l by lia. simpl in Hlen, Hj, Hfirst.
    destruct (deleteSongRange_hit c sid pid user σ HI Hu i pl
                (drop (S i) (readSlice (playlistMem σ) (User.Playlists user))) j)
      as (σ' & user' & E' & HI' & Hus & Hpls & -> & Hsongs); [done|done| | |].
    + rewrite <- (length_readSlice (songMem σ) _ Hv). lia.
    + apply songIndex_Some. exists s. split_and!; [done|done|].
      intros j' s' Hs' Hlt. by eapply Hfirst.
    + change (0 + i) with i. rewrite E'. simpl. split_and!; [done|done|].
      eexists. split.
      * apply profile_Some. exists user. split; [|done].
        rewrite Hus. apply lookup_insert_eq.
      * apply playlists_lookup. eexists. split.
        { rewrite Hpls, list_lookup_alter_eq, Hpl. done. }
        unfold encodePlaylist. simpl. by rewrite Hsongs.
Qed.
End removeSong.

Section removeSong_sole.
Context `{GoRuntime}.

(** The loop stops with "Playlist cannot be empty" at a playlist with the
    identifier and one song, when no earlier one with the identifier holds the
    song. *)
Lemma deleteSong_sole σ c sid pid u i p :
  Inv σ →
  profile σ c = Some u →
  UserJSON.Playlists u !! i = Some p →
  PlaylistJSON.ID p = pid →
  length (PlaylistJSON.Songs p) = 1 →
  (∀ k q, k < i → UserJSON.Playlists u !! k = Some q → PlaylistJSON.ID q = pid →
          Forall (λ s, Song.ID s ≠ sid) (PlaylistJSON.Songs q)) →
  deleteSongFromPlaylist c sid pid σ
  = (sendError "Playlist cannot be empty" StatusBadRequest, σ).
Proof.
  intros HI Hprof Hp Hid Hlen Hearly.
  apply profile_Some in Hprof as (user & Hu & ->).
  apply playlists_lookup in Hp as (pl & Hpl & ->).
  unfold deleteSongFromPlaylist. rewrite Hu.
  pose proof (take_drop_middle _ i pl Hpl) as Hmid.
  destruct (live_valid user σ HI i pl Hpl) as [Hv _].
  simpl in Hlen. rewrite (length_readSlice _ _ Hv) in Hlen.
  set (pls := readSlice (playlistMem σ) (User.Playlists user)) in *.
  rewrite <- Hmid.
  destruct (deleteSongRange_pre c sid pid user σ (take i pls) 0
              (pl :: drop (S i) pls) (earlier_lack σ user sid pid i Hearly))
    as [[E _]|E]; rewrite E; [done|].
  simpl. by rewrite !decide_True.
Qed.
End removeSong_sole.

(** ** [addSongToPlaylist] on the documents *)

Section addSong_top.
Context `{GoRuntime}.

(** The loop appends to the first playlist with the identifier. *)
Lemma addSong_at σ c pid newSong u i p :
  Inv σ →
  profile σ c = Some u →
  UserJSON.Playlists u !! i = Some p →
  PlaylistJSON.ID p = pid →
  (∀ k q, k < i → UserJSON.Playlists u !! k = Some q → PlaylistJSON.ID q ≠ pid) →
  let song := Song.set_ID (nextID σ 0) newSong in
  ∃ σ', addSongToPlaylist c pid (Some newSong) σ = (Encode (SongBody song), σ')
    ∧ Inv σ'
    ∧ ∃ u', profile σ' c = Some u'
        ∧ UserJSON.Playlists u' !! i
          = Some (PlaylistJSON.mk (PlaylistJSON.ID p) (PlaylistJSON.Name p)
                    (PlaylistJSON.Songs p ++ [song])).
Proof.
  intros HI Hprof Hp Hid Hearly song.
  apply profile_Some in Hprof as (user & Hu & ->).
  apply playlists_lookup in Hp as (pl & Hpl & ->).
  unfold addSongToPlaylist. rewrite Hu.
  pose proof (take_drop_middle _ i pl Hpl) as Hmid.
  pose proof (lookup_lt_Some _ _ _ Hpl) as Hi.
  set (pls := readSlice (playlistMem σ) (User.Playlists user)) in *.
  rewrite <- Hmid. rewrite addSongRange_skip.
  2:{ apply Forall_lookup. intros k q Hk.
      apply lookup_take_Some in Hk as [Hk Hlt].
      apply (Hearly k (encodePlaylist (songMem σ) q) Hlt).
      apply playlists_lookup. by exists q. }
  rewrite length_take, Nat.min_l by lia. change (0 + i) with i.
  destruct (addSongRange_hit c pid newSong user σ HI Hu i pl (drop (S i) pls))
    as (σ' & songs' & E' & HI' & Hus & Hpls & Hsongs); [done|done|].
  rewrite E'. exists σ'. split_and!; [done|done|].
  eexists. split.
  - apply profile_Some. exists user. split; [|done].
    rewrite Hus. apply lookup_insert_eq.
  - apply playlists_lookup. eexists. split.
    { rewrite Hpls, list_lookup_alter_eq. fold pls. rewrite Hpl. done. }
    unfold encodePlaylist. simpl. by rewrite Hsongs.
Qed.
End addSong_top.

(** ** Backing arrays are not shared *)

Section frame_memory.
Context {A : Type} `{GoRuntime}.
Implicit Types (mem : list (list A)) (s : slice).

Lemma appendSlice_frame ty zero mem s elems q :
  q < length mem → (0 < cap s → q ≠ ptr s) →
  (appendSlice ty zero mem s elems).2 !!! q = mem !!! q.
Proof.
  intros Hq Hne. unfold appendSlice. case_decide as Hn; simpl.
  - destruct (decide (q = ptr s)) as [->|Hqs].
    + rewrite list_lookup_total_insert_eq by done.
      destruct (decide (0 < cap s)) as [Hc|Hc]; [by destruct (Hne Hc)|].
      assert (len s = 0) as Hl0 by lia.
      assert (elems = []) as -> by (destruct elems; simpl in *; [done|lia]).
      by rewrite Hl0.
    + by rewrite list_lookup_total_insert_ne.
  - by rewrite lookup_total_app_l.
Qed.

Lemma appendSlice_ptr ty zero mem s elems :
  validSlice mem s →
  let r := appendSlice ty zero mem s elems in
  (ptr r.1 = ptr s ∧ cap r.1 = cap s) ∨ (ptr r.1 = length mem ∧ 0 < cap r.1).
Proof.
  intros [Hl Hc]. unfold appendSlice. case_decide as Hn; simpl; [by left|right].
  split; [done|]. rewrite length_app, length_take. lia.
Qed.

Lemma readSlice_frame mem mem' s :
  validSlice mem s →
  (0 < cap s → mem' !!! ptr s = mem !!! ptr s) →
  readSlice mem' s = readSlice mem s.
Proof.
  intros [Hl Hc] Hag. unfold readSlice.
  destruct (decide (0 < cap s)) as [Hp|Hp]; [by rewrite Hag|].
  by replace (len s) with 0 by lia.
Qed.
End frame_memory.

(** Footprints and the frame they give. *)

Section separation.
Context `{GoRuntime}.

Lemma footprint_elem σ u p :
  p ∈ footprint σ u ↔
  ∃ pl, pl ∈ cells σ u ∧ 0 < cap (Playlist.Songs pl) ∧ p = ptr (Playlist.Songs pl).
Proof.
  unfold footprint. rewrite list_elem_of_omap. unfold songArray.
  split; intros (pl & Hpl & Hp); exists pl.
  - case_decide; [|done]. by injection Hp as <-.
  - destruct Hp as [Hc ->]. by rewrite decide_True.
Qed.

Lemma cells_valid σ u pl : Inv σ → pl ∈ cells σ u → validPlaylist (songMem σ) pl.
Proof.
  intros HI Hpl. eapply (proj1 (Forall_forall _ _)); [|exact Hpl].
  apply Forall_readSlice, (Inv_cells _ HI).
Qed.

Lemma footprint_lt σ u p : Inv σ → p ∈ footprint σ u → p < length (songMem σ).
Proof.
  intros HI (pl & Hpl & Hc & ->)%footprint_elem.
  eapply validSlice_ptr_lt; [|done]. by eapply cells_valid.
Qed.

Lemma cells_frame σ σ' u :
  validSlice (playlistMem σ) (User.Playlists u) →
  (0 < cap (User.Playlists u) →
   playlistMem σ' !!! ptr (User.Playlists u) = playlistMem σ !!! ptr (User.Playlists u)) →
  cells σ' u = cells σ u.
Proof. apply readSlice_frame. Qed.

Lemma encodeUser_frame σ σ' u :
  Inv σ →
  cells σ' u = cells σ u →
  (∀ p, p ∈ footprint σ u → songMem σ' !!! p = songMem σ !!! p) →
  encodeUser σ' u = encodeUser σ u.
Proof.
  intros HI Hcells Hag. unfold encodeUser. f_equal. fold (cells σ' u) (cells σ u).
  rewrite Hcells. apply list_fmap_ext. intros i pl Hpl.
  apply list_elem_of_lookup_2 in Hpl. unfold encodePlaylist. f_equal.
  apply readSlice_frame; [by eapply cells_valid|]. intros Hc. apply Hag.
  apply footprint_elem. by exists pl.
Qed.

(** The one shape of every change of state: the user under [c] is replaced,
    the playlist memory changes in new arrays and in the array of that user,
    the song memory in new arrays and in the arrays of that user. *)
Lemma Sep_update σ σ' c user' :
  Inv σ → Sep σ →
  users σ' = <[c := user']> (users σ) →
  (∀ q, q < length (playlistMem σ) →
        (∀ u, users σ !! c = Some u → 0 < cap (User.Playlists u) →
              q ≠ ptr (User.Playlists u)) →
        playlistMem σ' !!! q = playlistMem σ !!! q) →
  (∀ p, p < length (songMem σ) →
        (∀ u, users σ !! c = Some u → p ∉ footprint σ u) →
        songMem σ' !!! p = songMem σ !!! p) →
  (0 < cap (User.Playlists user') →
   (∃ u, users σ !! c = Some u ∧ 0 < cap (User.Playlists u)
         ∧ ptr (User.Playlists user') = ptr (User.Playlists u))
   ∨ length (playlistMem σ) ≤ ptr (User.Playlists user')) →
  distinctArrays (cells σ' user') →
  (∀ p, p ∈ footprint σ' user' →
        (∃ u, users σ !! c = Some u ∧ p ∈ footprint σ u)
        ∨ length (songMem σ) ≤ p) →
  Sep σ' ∧ ∀ c2, c2 ≠ c → profile σ' c2 = profile σ c2.
Proof.
  intros HI HS Hus Hpm Hsm Hptr Hnd Hfp.
  assert (∀ c2 u2, c2 ≠ c → users σ !! c2 = Some u2 → cells σ' u2 = cells σ u2)
    as Hcells.
  { intros c2 u2 Hc2 Hu2. apply cells_frame; [by eapply (Inv_users _ HI)|].
    intros Hcap. apply Hpm.
    - eapply validSlice_ptr_lt; [|done]. by eapply (Inv_users _ HI).
    - intros u Hu Hcu Heq. by eapply (Sep_playlists _ HS c2 c u2 u). }
  assert (∀ c2 u2, c2 ≠ c → users σ !! c2 = Some u2 →
                   ∀ p, p ∈ footprint σ u2 → songMem σ' !!! p = songMem σ !!! p)
    as Hsongs.
  { intros c2 u2 Hc2 Hu2 p Hp. apply Hsm; [by eapply footprint_lt|].
    intros u Hu Hpu. by eapply (Sep_songs _ HS c2 c u2 u p). }
  assert (∀ c2 u2, c2 ≠ c → users σ !! c2 = Some u2 →
                   footprint σ' u2 = footprint σ u2) as Hfoot.
  { intros c2 u2 Hc2 Hu2. unfold footprint. by rewrite (Hcells c2 u2). }
  split; [split|].
  - intros c1 c2 u1 u2 Hne. rewrite Hus, !lookup_insert_Some.
    intros [[E1 E1']|[Hc1 Hu1]] [[E2 E2']|[Hc2 Hu2]] Hcap1 Hcap2; simplify_eq.
    + destruct (Hptr Hcap1) as [(u & Hu & Hcu & ->)|Hfresh].
      * by eapply (Sep_playlists _ HS c1 c2 u u2).
      * pose proof (validSlice_ptr_lt _ _ (Inv_users _ HI c2 u2 Hu2) Hcap2). lia.
    + destruct (Hptr Hcap2) as [(u & Hu & Hcu & ->)|Hfresh].
      * by eapply (Sep_playlists _ HS c1 c2 u1 u).
      * pose proof (validSlice_ptr_lt _ _ (Inv_users _ HI c1 u1 Hu1) Hcap1). lia.
    + by eapply (Sep_playlists _ HS c1 c2 u1 u2).
  - intros c1 u1. rewrite Hus, lookup_insert_Some.
    intros [[E1 E1']|[Hc1 Hu1]]; simplify_eq; [done|].
    rewrite (Hcells c1 u1) by done. by eapply (Sep_own _ HS).
  - intros c1 c2 u1 u2 p Hne. rewrite Hus, !lookup_insert_Some.
    intros [[E1 E1']|[Hc1 Hu1]] [[E2 E2']|[Hc2 Hu2]]; simplify_eq.
    + rewrite (Hfoot c2 u2) by done. intros Hp1 Hp2.
      destruct (Hfp p Hp1) as [(u & Hu & Hpu)|Hfresh].
      * by eapply (Sep_songs _ HS c1 c2 u u2 p).
      * pose proof (footprint_lt σ u2 p HI Hp2). lia.
    + rewrite (Hfoot c1 u1) by done. intros Hp1 Hp2.
      destruct (Hfp p Hp2) as [(u & Hu & Hpu)|Hfresh].
      * by eapply (Sep_songs _ HS c1 c2 u1 u p).
      * pose proof (footprint_lt σ u1 p HI Hp1). lia.
    + rewrite (Hfoot c1 u1), (Hfoot c2 u2) by done.
      by eapply (Sep_songs _ HS c1 c2 u1 u2 p).
  - intros c2 Hc2. unfold profile. rewrite Hus, lookup_insert_ne by done.
    destruct (users σ !! c2) as [u2|] eqn:Hu2; simpl; [|done]. f_equal.
    apply encodeUser_frame; [done|by eapply Hcells|by eapply Hsongs].
Qed.

End separation.

(** Playlists of one user after a header is replaced. *)

Section cells_lemmas.

Lemma lookup_alter_Songs (ps : list Playlist.t) i s' k q :
  alter (Playlist.set_Songs s') i ps !! k = Some q →
  (k ≠ i ∧ ps !! k = Some q)
  ∨ (k = i ∧ ∃ pl, ps !! i = Some pl ∧ q = Playlist.set_Songs s' pl).
Proof.
  rewrite list_lookup_alter. case_decide as Hk; [|by left; split].
  subst k. destruct (ps !! i) as [pl|]; simpl; [|done].
  intros [= <-]. right. split; [done|]. by exists pl.
Qed.

Lemma distinctArrays_alter ps i pl s' :
  ps !! i = Some pl →
  distinctArrays ps →
  (ptr s' = ptr (Playlist.Songs pl) ∧ cap s' = cap (Playlist.Songs pl))
  ∨ (∀ k q, ps !! k = Some q → 0 < cap (Playlist.Songs q) →
            ptr (Playlist.Songs q) ≠ ptr s') →
  distinctArrays (alter (Playlist.set_Songs s') i ps).
Proof.
  intros Hpl Hd Hs' k1 k2 p1 p2 H1 H2 Hne Hc1 Hc2.
  apply lookup_alter_Songs in H1 as [[Hk1 H1]|[-> (pl1 & H1 & ->)]];
    apply lookup_alter_Songs in H2 as [[Hk2 H2]|[-> (pl2 & H2 & ->)]];
    simplify_eq; simpl in *.
  - by eapply Hd.
  - destruct Hs' as [[Hp Hcap]|Hfresh].
    + rewrite Hp. rewrite Hcap in Hc2. by eapply (Hd k1 i p1 pl).
    + by eapply Hfresh.
  - destruct Hs' as [[Hp Hcap]|Hfresh].
    + rewrite Hp. rewrite Hcap in Hc1. by eapply (Hd i k2 pl p2).
    + intros E. by eapply (Hfresh k2 p2).
Qed.

Lemma footprint_alter (ps : list Playlist.t) i s' p :
  p ∈ omap songArray (alter (Playlist.set_Songs s') i ps) →
  p ∈ omap songArray ps ∨ (p = ptr s' ∧ 0 < cap s').
Proof.
  rewrite !list_elem_of_omap. intros (q & Hq & Hp).
  apply list_elem_of_lookup in Hq as [k Hk].
  apply lookup_alter_Songs in Hk as [[Hk1 Hk]|[-> (pl & Hk & ->)]].
  - left. exists q. split; [by eapply list_elem_of_lookup_2|done].
  - right. unfold songArray in Hp. simpl in Hp. case_decide; [|done].
    by injection Hp as <-.
Qed.

End cells_lemmas.

(** The handlers keep the arrays apart. *)

Section deleteSong_sep.
Context `{GoRuntime}.
Context (c sid pid : string) (user : User.t) (σ : State).
Context (HI : Inv σ) (HS : Sep σ) (Hu : users σ !! c = Some user).

Lemma cell_in_footprint i pl :
  cells σ user !! i = Some pl → 0 < cap (Playlist.Songs pl) →
  ptr (Playlist.Songs pl) ∈ footprint σ user.
Proof.
  intros Hpl Hc. apply footprint_elem. exists pl. split; [|done].
  by eapply list_elem_of_lookup_2.
Qed.

Lemma deleteSongRange_hit_sep i pl rest j :
  cells σ user !! i = Some pl →
  Playlist.ID pl = pid →
  len (Playlist.Songs pl) ≠ 1 →
  songIndex sid 0 (readSlice (songMem σ) (Playlist.Songs pl)) = Some j →
  let σ' := (deleteSongRange c sid pid user σ i (pl :: rest)).2 in
  Sep σ'
  ∧ (∀ c2, c2 ≠ c → profile σ' c2 = profile σ c2)
  ∧ (∀ k q, k ≠ i → cells σ user !! k = Some q →
       encodePlaylist (songMem σ') q = encodePlaylist (songMem σ) q).
Proof.
  intros Hpl Hid Hlen Hj.
  destruct (live_valid user σ HI i pl Hpl) as [Hv Hi].
  assert (j < len (Playlist.Songs pl)) as Hjl.
  { apply songIndex_Some in Hj as (s & Hs & _).
    apply lookup_lt_Some in Hs. by rewrite length_readSlice in Hs. }
  assert (0 < cap (Playlist.Songs pl)) as Hcap by (destruct Hv; lia).
  destruct (removeAt_spec SongElem Song.zero (songMem σ) (Playlist.Songs pl) j Hv Hjl)
    as (E1 & Hv' & Hg' & Hr1 & Hr2).
  pose proof (λ q, appendSlice_frame SongElem Song.zero (songMem σ)
                (sliceTo (Playlist.Songs pl) j)
                (elemsFrom (songMem σ) (Playlist.Songs pl) (j + 1)) q) as Hfr.
  simpl. rewrite decide_True by done. rewrite decide_False by done.
  rewrite Hj.
  destruct (appendSlice SongElem Song.zero (songMem σ)
              (sliceTo (Playlist.Songs pl) j)
              (elemsFrom (songMem σ) (Playlist.Songs pl) (j + 1)))
    as [songs' smem']. simpl in *. subst songs'.
  set (s1 := Slice (ptr (Playlist.Songs pl)) (len (Playlist.Songs pl) - 1)
                   (cap (Playlist.Songs pl))) in *.
  assert (cells (storeUser c user (storeSongs user i s1 (set_songMem smem' σ))) user
          = alter (Playlist.set_Songs s1) i (cells σ user)) as Hcells.
  { unfold cells, storeUser, storeSongs. simpl. by apply readSlice_alter_cell. }
  assert (∀ k q, k ≠ i → cells σ user !! k = Some q →
            encodePlaylist smem' q = encodePlaylist (songMem σ) q) as Hothers.
  { intros k q Hk Hq. unfold encodePlaylist. f_equal.
    apply readSlice_frame; [by eapply (live_valid user σ HI k q)|].
    intros Hcq. apply Hfr.
    - eapply validSlice_ptr_lt; [|done]. by eapply (live_valid user σ HI k q).
    - intros _. by eapply (Sep_own _ HS c user Hu k i q pl). }
  assert (0 < cap (User.Playlists user)) as Hcu.
  { destruct (Inv_users _ HI c user Hu). lia. }
  destruct (Sep_update σ (storeUser c user (storeSongs user i s1 (set_songMem smem' σ)))
              c user HI HS) as [HS' Hframe]; simpl.
  - done.
  - intros q _ Hq. rewrite list_lookup_total_alter_ne; [done|].
    intros E. by eapply (Hq user).
  - intros p Hp Hnot. apply Hfr; [done|]. intros _ ->.
    eapply (Hnot user Hu). by eapply cell_in_footprint.
  - intros _. left. by exists user.
  - rewrite Hcells. eapply distinctArrays_alter; [done|by eapply (Sep_own _ HS)|].
    by left.
  - intros p. unfold footprint. rewrite Hcells. intros [Hp|[-> _]]%footprint_alter.
    + left. by exists user.
    + left. exists user. split; [done|]. by eapply cell_in_footprint.
  - done.
Qed.
End deleteSong_sep.

Section addSong_sep.
Context `{GoRuntime}.
Context (c pid : string) (newSong : Song.t) (user : User.t) (σ : State).
Context (HI : Inv σ) (HS : Sep σ) (Hu : users σ !! c = Some user).

Lemma addSongRange_hit_sep i pl rest :
  cells σ user !! i = Some pl →
  Playlist.ID pl = pid →
  let σ' := (addSongRange c pid newSong user σ i (pl :: rest)).2 in
  Sep σ'
  ∧ (∀ c2, c2 ≠ c → profile σ' c2 = profile σ c2)
  ∧ (∀ k q, k ≠ i → cells σ user !! k = Some q →
       encodePlaylist (songMem σ') q = encodePlaylist (songMem σ) q).
Proof.
  intros Hpl Hid.
  destruct (live_valid user σ HI i pl Hpl) as [Hv Hi].
  simpl. rewrite decide_True by done.
  set (song := Song.set_ID _ newSong).
  pose proof (appendSlice_ptr SongElem Song.zero (songMem σ) (Playlist.Songs pl)
                [song] Hv) as Hptr.
  pose proof (λ q, appendSlice_frame SongElem Song.zero (songMem σ)
                (Playlist.Songs pl) [song] q) as Hfr.
  destruct (appendSlice SongElem Song.zero (songMem σ) (Playlist.Songs pl) [song])
    as [songs' smem']. simpl in *.
  set (σ1 := set_songMem smem' _).
  assert (cells (storeUser c user (storeSongs user i songs' σ1)) user
          = alter (Playlist.set_Songs songs') i (cells σ user)) as Hcells.
  { unfold cells, storeUser, storeSongs. simpl. by apply readSlice_alter_cell. }
  assert (∀ k q, cells σ user !! k = Some q → 0 < cap (Playlist.Songs q) →
                 ptr (Playlist.Songs q) < length (songMem σ)) as Hlt.
  { intros k q Hq Hcq. eapply validSlice_ptr_lt; [|done].
    by eapply (live_valid user σ HI k q). }
  assert (∀ k q, k ≠ i → cells σ user !! k = Some q →
            encodePlaylist smem' q = encodePlaylist (songMem σ) q) as Hothers.
  { intros k q Hk Hq. unfold encodePlaylist. f_equal.
    apply readSlice_frame; [by eapply (live_valid user σ HI k q)|].
    intros Hcq. apply Hfr; [by eapply Hlt|].
    intros Hcp. by eapply (Sep_own _ HS c user Hu k i q pl). }
  assert (0 < cap (User.Playlists user)) as Hcu.
  { destruct (Inv_users _ HI c user Hu). lia. }
  destruct (Sep_update σ (storeUser c user (storeSongs user i songs' σ1))
              c user HI HS) as [HS' Hframe]; simpl.
  - done.
  - intros q _ Hq. rewrite list_lookup_total_alter_ne; [done|].
    intros E. by eapply (Hq user).
  - intros p Hp Hnot. apply Hfr; [done|]. intros Hcp ->.
    eapply (Hnot user Hu). by eapply cell_in_footprint.
  - intros _. left. by exists user.
  - rewrite Hcells. eapply distinctArrays_alter; [done|by eapply (Sep_own _ HS)|].
    destruct Hptr as [Hsame|[Hfresh _]]; [by left|right].
    intros k q Hq Hcq. rewrite Hfresh. pose proof (Hlt k q Hq Hcq). lia.
  - intros p. unfold footprint. rewrite Hcells. intros [Hp|[-> Hcs]]%footprint_alter.
    + left. by exists user.
    + destruct Hptr as [[-> Hcap]|[-> _]]; [left|right; lia].
      exists user. split; [done|]. eapply cell_in_footprint; [done|]. by rewrite <- Hcap.
  - done.
Qed.
End addSong_sep.

Section more_cells_lemmas.

Lemma distinctArrays_app_fresh ps newp bound :
  distinctArrays ps →
  (∀ k q, ps !! k = Some q → 0 < cap (Playlist.Songs q) →
          ptr (Playlist.Songs q) < bound) →
  bound ≤ ptr (Playlist.Songs newp) →
  distinctArrays (ps ++ [newp]).
Proof.
  intros Hd Hlt Hfresh k1 k2 p1 p2 H1 H2 Hne Hc1 Hc2.
  apply lookup_app_Some in H1 as [H1|[Hk1 H1]];
    apply lookup_app_Some in H2 as [H2|[Hk2 H2]].
  - by eapply Hd.
  - apply list_lookup_singleton_Some in H2 as [_ <-].
    pose proof (Hlt k1 p1 H1 Hc1). lia.
  - apply list_lookup_singleton_Some in H1 as [_ <-].
    pose proof (Hlt k2 p2 H2 Hc2). lia.
  - apply list_lookup_singleton_Some in H1 as [? _].
    apply list_lookup_singleton_Some in H2 as [? _]. lia.
Qed.

Lemma lookup_delete_Some {A} (l : list A) i k x :
  delete i l !! k = Some x → ∃ k', l !! k' = Some x ∧ (k' = k ∨ k' = S k) ∧
                                  (k < i → k' = k) ∧ (i ≤ k → k' = S k).
Proof.
  destruct (decide (k < i)) as [Hk|Hk].
  - rewrite list_lookup_delete_lt by done. intros Hx. exists k. split_and!; [done|by left|done|lia].
  - rewrite list_lookup_delete_ge by lia. intros Hx. exists (S k).
    split_and!; [done|by right|lia|done].
Qed.

Lemma distinctArrays_delete ps i : distinctArrays ps → distinctArrays (delete i ps).
Proof.
  intros Hd k1 k2 p1 p2 H1 H2 Hne Hc1 Hc2.
  apply lookup_delete_Some in H1 as (k1' & H1 & _ & Hlt1 & Hge1).
  apply lookup_delete_Some in H2 as (k2' & H2 & _ & Hlt2 & Hge2).
  eapply (Hd k1' k2' p1 p2); try done.
  destruct (decide (k1 < i)), (decide (k2 < i)); lia.
Qed.

Lemma elem_of_delete {A} (l : list A) i x : x ∈ delete i l → x ∈ l.
Proof.
  intros [k Hk]%list_elem_of_lookup.
  apply lookup_delete_Some in Hk as (k' & Hk' & _). by eapply list_elem_of_lookup_2.
Qed.

End more_cells_lemmas.

Section createPlaylist_sep.
Context `{GoRuntime}.

Lemma cells_lt σ user k q :
  Inv σ → cells σ user !! k = Some q → 0 < cap (Playlist.Songs q) →
  ptr (Playlist.Songs q) < length (songMem σ).
Proof.
  intros HI Hq Hcq. eapply validSlice_ptr_lt; [|done].
  eapply cells_valid; [done|]. by eapply list_elem_of_lookup_2.
Qed.

Lemma createPlaylist_sep c name σ user :
  Inv σ → Sep σ → users σ !! c = Some user →
  let σ' := (createPlaylist c name σ).2 in
  Sep σ' ∧ ∀ c2, c2 ≠ c → profile σ' c2 = profile σ c2.
Proof.
  intros HI HS Hu. unfold createPlaylist. rewrite Hu.
  pose proof (Inv_users _ HI c user Hu) as Hv.
  pose proof (λ k q, cells_lt σ user k q HI) as Hlt.
  pose proof (Sep_update σ) as Hupd. pose proof (Sep_own _ HS c user Hu) as Hown.
  assert (∀ p, p ∈ footprint σ user → p ∈ footprint σ user) as Hfoot by done.
  destruct σ as [us pl [st dr] smem pmem]. unfold footprint, cells in *. simpl in *.
  set (song := Song.mk _ "Default Song" _ _).
  set (p := Playlist.mk _ name _).
  unfold appendPlaylist. simpl.
  pose proof (appendSlice_ptr PlaylistElem Playlist.zero pmem (User.Playlists user)
                [p] Hv) as Hptr.
  pose proof (appendSlice_read PlaylistElem Playlist.zero pmem (User.Playlists user)
                [p] Hv) as Hread.
  pose proof (λ q, appendSlice_frame PlaylistElem Playlist.zero pmem
                (User.Playlists user) [p] q) as Hfr.
  destruct (appendSlice PlaylistElem Playlist.zero pmem (User.Playlists user) [p])
    as [pls' pmem']. simpl in *.
  eapply (Hupd _ c (User.set_Playlists pls' user) HI HS); simpl.
  - done.
  - intros q Hq Hne. apply Hfr; [done|]. intros Hc. by eapply (Hne user).
  - intros q Hq _. by rewrite lookup_total_app_l.
  - intros Hc. destruct Hptr as [[-> Hcap]|[-> _]]; [left|right; lia].
    exists user. split_and!; [done| |done]. by rewrite <- Hcap.
  - rewrite Hread. eapply (distinctArrays_app_fresh _ _ (length smem)); [done|done|].
    done.
  - intros q. rewrite Hread, omap_app, elem_of_app.
    intros [Hq|Hq]; [left; by exists user|right].
    simpl in Hq. apply list_elem_of_singleton in Hq. lia.
Qed.
End createPlaylist_sep.

Section deletePlaylist_sep.
Context `{GoRuntime}.
Context (c pid : string) (user : User.t) (σ : State).
Context (HI : Inv σ) (HS : Sep σ) (Hu : users σ !! c = Some user).

Lemma deletePlaylistRange_hit_sep i pl rest :
  cells σ user !! i = Some pl →
  Playlist.ID pl = pid →
  let σ' := (deletePlaylistRange c pid user σ i (pl :: rest)).2 in
  Sep σ' ∧ ∀ c2, c2 ≠ c → profile σ' c2 = profile σ c2.
Proof.
  intros Hpl Hid.
  destruct (live_valid user σ HI i pl Hpl) as [_ Hi].
  pose proof (Inv_users _ HI c user Hu) as Hv.
  destruct (removeAt_spec PlaylistElem Playlist.zero (playlistMem σ)
              (User.Playlists user) i Hv Hi) as (E1 & Hv' & Hg' & Hr1 & _).
  pose proof (λ q, appendSlice_frame PlaylistElem Playlist.zero (playlistMem σ)
                (sliceTo (User.Playlists user) i)
                (elemsFrom (playlistMem σ) (User.Playlists user) (i + 1)) q) as Hfr.
  simpl. rewrite decide_True by done.
  destruct (appendSlice PlaylistElem Playlist.zero (playlistMem σ)
              (sliceTo (User.Playlists user) i)
              (elemsFrom (playlistMem σ) (User.Playlists user) (i + 1)))
    as [pls' pmem']. simpl in *. subst pls'.
  set (s1 := Slice _ _ _) in *.
  eapply (Sep_update σ _ c (User.set_Playlists s1 user) HI HS); simpl.
  - done.
  - intros q Hq Hne. apply Hfr; [done|]. intros Hc. by eapply (Hne user).
  - done.
  - intros Hc. left. by exists user.
  - unfold cells. simpl. rewrite Hr1. apply distinctArrays_delete.
    by eapply (Sep_own _ HS).
  - intros p. unfold footprint, cells. simpl. rewrite Hr1.
    intros (q & Hq & Hp)%list_elem_of_omap. left. exists user. split; [done|].
    apply list_elem_of_omap. exists q. split; [|done]. by eapply elem_of_delete.
Qed.
End deletePlaylist_sep.

Section register_sep.
Context `{GoRuntime}.

Lemma decodeSlice_ptr {A} ty (zero : A) mem elems :
  let r := decodeSlice ty zero mem elems in
  (cap r.1 = 0 ∧ r.2 = mem)
  ∨ (ptr r.1 = length mem ∧ length r.2 = S (length mem)).
Proof.
  destruct elems as [|x elems]; simpl; [by left|right].
  split; [done|]. rewrite length_app. simpl. lia.
Qed.

Lemma decodePlaylists_sep ps : ∀ smem,
  let r := decodePlaylists smem ps in
  length smem ≤ length r.2
  ∧ (∀ k q, r.1 !! k = Some q → 0 < cap (Playlist.Songs q) →
            length smem ≤ ptr (Playlist.Songs q) < length r.2)
  ∧ distinctArrays r.1.
Proof.
  induction ps as [|p ps IH]; intros smem; simpl.
  - split_and!; [done|done|]. by intros k1 k2 p1 p2 H1.
  - pose proof (decodeSlice_ptr SongElem Song.zero smem (PlaylistJSON.Songs p)) as Hp.
    destruct (decodeSlice SongElem Song.zero smem (PlaylistJSON.Songs p))
      as [songs smem1]. simpl in Hp.
    destruct (IH smem1) as (Hlen & Hbound & Hd).
    destruct (decodePlaylists smem1 ps) as [ps' smem2]. simpl in *.
    assert (length smem ≤ length smem1) as Hle1.
    { destruct Hp as [[_ ->]|[_ ->]]; lia. }
    assert (0 < cap songs → ptr songs = length smem ∧ length smem < length smem1)
      as Hfirst.
    { intros Hc. destruct Hp as [[Hc0 _]|[-> ->]]; lia. }
    split_and!; [lia| |].
    + intros [|k] q Hq Hc; simpl in Hq.
      * injection Hq as <-. simpl in *. destruct (Hfirst Hc) as [-> ?]. lia.
      * pose proof (Hbound k q Hq Hc). lia.
    + intros [|k1] [|k2] p1 p2 H1 H2 Hne Hc1 Hc2; simpl in H1, H2; try done.
      * injection H1 as <-. simpl in *. destruct (Hfirst Hc1) as [-> ?].
        pose proof (Hbound k2 p2 H2 Hc2). lia.
      * injection H2 as <-. simpl in *. destruct (Hfirst Hc2) as [-> ?].
        pose proof (Hbound k1 p1 H1 Hc1). lia.
      * eapply (Hd k1 k2); try done. lia.
Qed.

Lemma registerHandler_sep j σ :
  Inv σ → Sep σ →
  let σ' := (registerHandler (Some j) σ).2 in
  Sep σ' ∧ ∀ c2, c2 ≠ nextID σ 1 → profile σ' c2 = profile σ c2.
Proof.
  intros HI HS. unfold registerHandler, decodeUser.
  pose proof (decodePlaylists_sep (UserJSON.Playlists j) (songMem σ)) as Hsep.
  destruct (decodePlaylists_spec (UserJSON.Playlists j) (songMem σ))
    as (moreS & ES & HvS & HrS).
  destruct (decodePlaylists (songMem σ) (UserJSON.Playlists j)) as [ps smem1].
  simpl in ES, HvS, HrS, Hsep. subst smem1. destruct Hsep as (_ & Hbound & Hd).
  pose proof (decodeSlice_ptr PlaylistElem Playlist.zero (playlistMem σ) ps) as Hpp.
  destruct (decodeSlice_spec PlaylistElem Playlist.zero (playlistMem σ) ps)
    as (moreP & EP & HvP & HrP & _).
  destruct (decodeSlice PlaylistElem Playlist.zero (playlistMem σ) ps) as [pls pmem1].
  simpl in EP, HvP, HrP, Hpp. subst pmem1.
  pose proof (Sep_update σ) as Hupd.
  destruct σ as [us pl [st dr] smem pmem]. simpl in *.
  set (song := Song.mk _ "Default Song" _ _).
  set (p := Playlist.mk _ "Default" _).
  unfold appendPlaylist. simpl.
  pose proof (appendSlice_ptr PlaylistElem Playlist.zero (pmem ++ moreP) pls [p] HvP)
    as Hptr.
  pose proof (appendSlice_read PlaylistElem Playlist.zero (pmem ++ moreP) pls [p] HvP)
    as Hread.
  pose proof (λ q, appendSlice_frame PlaylistElem Playlist.zero (pmem ++ moreP)
                pls [p] q) as Hfr.
  destruct (appendSlice PlaylistElem Playlist.zero (pmem ++ moreP) pls [p])
    as [pls' pmem']. simpl in *.
  assert (0 < cap pls → ptr pls = length pmem) as Hfresh.
  { intros Hc. destruct Hpp as [[Hc0 _]|[-> _]]; [lia|done]. }
  eapply (Hupd _ _ _ HI HS); simpl.
  - reflexivity.
  - intros q Hq _. rewrite Hfr.
    + by rewrite lookup_total_app_l.
    + rewrite length_app. lia.
    + intros Hc. rewrite (Hfresh Hc). lia.
  - intros q Hq _. rewrite <- app_assoc. by rewrite lookup_total_app_l.
  - simpl. intros Hc. right. destruct Hptr as [[-> Hcap]|[-> _]].
    + rewrite Hfresh; [done|]. by rewrite <- Hcap.
    + rewrite length_app. lia.
  - unfold cells. simpl. rewrite Hread, HrP.
    eapply (distinctArrays_app_fresh _ _ (length (smem ++ moreS))); [done| |done].
    intros k q Hq Hc. by apply (Hbound k q).
  - intros q. unfold footprint, cells. simpl. rewrite Hread, HrP, omap_app, elem_of_app.
    intros [Hq|Hq]; right.
    + apply list_elem_of_omap in Hq as (pl0 & Hpl0 & Hq).
      apply list_elem_of_lookup in Hpl0 as [k Hk]. unfold songArray in Hq.
      case_decide as Hc; [|done]. injection Hq as <-.
      by apply (Hbound k pl0).
    + simpl in Hq. apply list_elem_of_singleton in Hq. rewrite length_app in Hq. lia.
Qed.
End register_sep.

(** ** Every reachable state keeps the arrays apart *)

Section sep_preservation.
Context `{GoRuntime}.

Lemma deleteSongRange_Sep c sid pid user σ :
  Inv σ → Sep σ → users σ !! c = Some user →
  ∀ rest i,
    (∀ k pl, rest !! k = Some pl → cells σ user !! (i + k) = Some pl) →
    Sep (deleteSongRange c sid pid user σ i rest).2.
Proof.
  intros HI HS Hu rest. induction rest as [|pl rest IH]; intros i Hs; [done|].
  apply suffix_tail in Hs as [Hpl Hs].
  destruct (decide (Playlist.ID pl = pid)) as [Hid|Hid].
  - destruct (decide (len (Playlist.Songs pl) = 1)) as [Hlen|Hlen].
    + simpl. by rewrite !decide_True.
    + destruct (songIndex sid 0 (readSlice (songMem σ) (Playlist.Songs pl)))
        as [j|] eqn:Hj.
      * by apply (deleteSongRange_hit_sep c sid pid user σ HI HS Hu i pl rest j).
      * simpl. rewrite decide_True, decide_False, Hj by done. by apply IH.
  - simpl. rewrite decide_False by done. by apply IH.
Qed.

Lemma addSongRange_Sep c pid song user σ :
  Inv σ → Sep σ → users σ !! c = Some user →
  ∀ rest i,
    (∀ k pl, rest !! k = Some pl → cells σ user !! (i + k) = Some pl) →
    Sep (addSongRange c pid song user σ i rest).2.
Proof.
  intros HI HS Hu rest. induction rest as [|pl rest IH]; intros i Hs; [done|].
  apply suffix_tail in Hs as [Hpl Hs].
  destruct (decide (Playlist.ID pl = pid)) as [Hid|Hid].
  - by apply (addSongRange_hit_sep c pid song user σ HI HS Hu i pl rest).
  - simpl. rewrite decide_False by done. by apply IH.
Qed.

Lemma deletePlaylistRange_Sep c pid user σ :
  Inv σ → Sep σ → users σ !! c = Some user →
  ∀ rest i,
    (∀ k pl, rest !! k = Some pl → cells σ user !! (i + k) = Some pl) →
    Sep (deletePlaylistRange c pid user σ i rest).2.
Proof.
  intros HI HS Hu rest. induction rest as [|pl rest IH]; intros i Hs; [done|].
  apply suffix_tail in Hs as [Hpl Hs].
  destruct (decide (Playlist.ID pl = pid)) as [Hid|Hid].
  - by apply (deletePlaylistRange_hit_sep c pid user σ HI HS Hu i pl rest).
  - simpl. rewrite decide_False by done. by apply IH.
Qed.

Lemma Sep_init seed : Sep (initState seed).
Proof.
  split; simpl.
  - intros c1 c2 u1 u2 _. by rewrite lookup_empty.
  - intros c u. by rewrite lookup_empty.
  - intros c1 c2 u1 u2 p _. by rewrite lookup_empty.
Qed.

Lemma serve_Sep r σ : Inv σ → Sep σ → Sep (serve r σ).2.
Proof.
  intros HI HS. destruct r as [c|b|c|c n|c s p|c p b|c p|c s]; simpl.
  - unfold loginHandler. by destruct (users σ !! c).
  - destruct b as [j|]; [|done]. by apply registerHandler_sep.
  - unfold viewProfile. by destruct (users σ !! c).
  - destruct (users σ !! c) as [user|] eqn:Hu.
    + by apply (createPlaylist_sep c n σ user).
    + unfold createPlaylist. by rewrite Hu.
  - unfold deleteSongFromPlaylist. destruct (users σ !! c) as [user|] eqn:Hu; [|done].
    by apply deleteSongRange_Sep.
  - unfold addSongToPlaylist. destruct b as [song|]; [|done].
    destruct (users σ !! c) as [user|] eqn:Hu; [|done].
    by apply addSongRange_Sep.
  - unfold deletePlaylist. destruct (users σ !! c) as [user|] eqn:Hu; [|done].
    by apply deletePlaylistRange_Sep.
  - unfold getSongDetail. destruct (users σ !! c); [|done].
    by destruct (getSongRange _ _ _).
Qed.

(** In every reachable state, the playlists of different users, and
    different playlists of one user, occupy different backing arrays. *)
Lemma reachable_Sep σ : reachable σ → Sep σ.
Proof.
  induction 1 as [seed|r σ Hr IH]; [apply Sep_init|].
  apply serve_Sep; [by apply reachable_Inv|done].
Qed.

End sep_preservation.

Lemma fmap_alter_insert {A B} (g g' : A → B) (f : A → A) (l : list A) i x y :
  l !! i = Some x →
  g' (f x) = y →
  (∀ k q, k ≠ i → l !! k = Some q → g' q = g q) →
  g' <$> alter f i l = <[i := y]> (g <$> l).
Proof.
  intros Hx Hy Hothers. apply list_eq. intros k.
  rewrite list_lookup_fmap, list_lookup_alter.
  destruct (decide (i = k)) as [<-|Hk].
  - rewrite list_lookup_insert_eq.
    + rewrite Hx. simpl. by rewrite Hy.
    + rewrite length_fmap. by eapply lookup_lt_Some.
  - rewrite list_lookup_insert_ne, list_lookup_fmap by done.
    destruct (l !! k) as [q|] eqn:Hq; simpl; [|done]. f_equal.
    by eapply Hothers.
Qed.

(** ** The stored documents after a removal and an addition *)

Section full_profiles.
Context `{GoRuntime}.
Context (c : string) (user : User.t) (σ : State).
Context (HI : Inv σ) (HS : Sep σ) (Hu : users σ !! c = Some user).

Lemma deleteSongRange_hit_profile sid pid i pl rest j :
  cells σ user !! i = Some pl →
  Playlist.ID pl = pid →
  len (Playlist.Songs pl) ≠ 1 →
  songIndex sid 0 (readSlice (songMem σ) (Playlist.Songs pl)) = Some j →
  let σ' := (deleteSongRange c sid pid user σ i (pl :: rest)).2 in
  let u := encodeUser σ user in
  profile σ' c
  = Some (UserJSON.mk (UserJSON.ID u) (UserJSON.SecretCode u) (UserJSON.Name u)
            (UserJSON.Email u)
            (<[i := PlaylistJSON.mk (Playlist.ID pl) (Playlist.Name pl)
                      (delete j (readSlice (songMem σ) (Playlist.Songs pl)))]>
               (UserJSON.Playlists u)))
  ∧ ∀ c2, c2 ≠ c → profile σ' c2 = profile σ c2.
Proof.
  intros Hpl Hid Hlen Hj.
  destruct (deleteSongRange_hit_sep c sid pid user σ HI HS Hu i pl rest j)
    as (_ & Hframe & Hothers); try done.
  destruct (deleteSongRange_hit c sid pid user σ HI Hu i pl rest j)
    as (σ' & user' & E & _ & Hus & Hcells & _ & Hsongs); try done.
  cbv zeta in *. rewrite E in Hframe, Hothers |- *. simpl in *. split; [|done].
  unfold profile. rewrite Hus, lookup_insert_eq. simpl. unfold encodeUser.
  do 2 f_equal. rewrite Hcells. eapply fmap_alter_insert; [done| |done].
  unfold encodePlaylist. simpl. by rewrite Hsongs.
Qed.

Lemma addSongRange_hit_profile pid newSong i pl rest :
  cells σ user !! i = Some pl →
  Playlist.ID pl = pid →
  let σ' := (addSongRange c pid newSong user σ i (pl :: rest)).2 in
  let u := encodeUser σ user in
  profile σ' c
  = Some (UserJSON.mk (UserJSON.ID u) (UserJSON.SecretCode u) (UserJSON.Name u)
            (UserJSON.Email u)
            (<[i := PlaylistJSON.mk (Playlist.ID pl) (Playlist.Name pl)
                      (readSlice (songMem σ) (Playlist.Songs pl)
                       ++ [Song.set_ID (nextID σ 0) newSong])]>
               (UserJSON.Playlists u)))
  ∧ ∀ c2, c2 ≠ c → profile σ' c2 = profile σ c2.
Proof.
  intros Hpl Hid.
  destruct (addSongRange_hit_sep c pid newSong user σ HI HS Hu i pl rest)
    as (_ & Hframe & Hothers); try done.
  destruct (addSongRange_hit c pid newSong user σ HI Hu i pl rest)
    as (σ' & songs' & E & _ & Hus & Hcells & Hsongs); try done.
  cbv zeta in *. rewrite E in Hframe, Hothers |- *. simpl in *. split; [|done].
  unfold profile. rewrite Hus, lookup_insert_eq. simpl. unfold encodeUser.
  do 2 f_equal. rewrite Hcells. eapply fmap_alter_insert; [done| |done].
  unfold encodePlaylist. simpl. by rewrite Hsongs.
Qed.

End full_profiles.

(** ** A loop either answers with an error or arrives at its playlist *)

Section cases.
Context `{GoRuntime}.

Lemma deleteSongRange_cases c sid pid user σ pls : ∀ i,
  let r := deleteSongRange c sid pid user σ i pls in
  (r.2 = σ ∧ ∃ k, errorKind r.1 = Some k)
  ∨ ∃ n pl j,
      pls !! n = Some pl ∧ Playlist.ID pl = pid ∧ len (Playlist.Songs pl) ≠ 1
      ∧ songIndex sid 0 (readSlice (songMem σ) (Playlist.Songs pl)) = Some j
      ∧ r = deleteSongRange c sid pid user σ (i + n) (pl :: drop (S n) pls).
Proof.
  induction pls as [|pl pls IH]; intros i; [left; split; [done|by eexists]|].
  assert (∀ X : Response * State,
    (X.2 = σ ∧ ∃ k, errorKind X.1 = Some k)
    ∨ (∃ n pl0 j, pls !! n = Some pl0 ∧ Playlist.ID pl0 = pid
         ∧ len (Playlist.Songs pl0) ≠ 1
         ∧ songIndex sid 0 (readSlice (songMem σ) (Playlist.Songs pl0)) = Some j
         ∧ X = deleteSongRange c sid pid user σ (S i + n) (pl0 :: drop (S n) pls)) →
    (X.2 = σ ∧ ∃ k, errorKind X.1 = Some k)
    ∨ (∃ n pl0 j, (pl :: pls) !! n = Some pl0 ∧ Playlist.ID pl0 = pid
         ∧ len (Playlist.Songs pl0) ≠ 1
         ∧ songIndex sid 0 (readSlice (songMem σ) (Playlist.Songs pl0)) = Some j
         ∧ X = deleteSongRange c sid pid user σ (i + n)
                 (pl0 :: drop (S n) (pl :: pls)))) as Hshift.
  { intros X [Herr|(n & pl0 & j & Hn & Hid & Hlen & Hj & E)]; [by left|right].
    exists (S n), pl0, j. split_and!; try done.
    by replace (i + S n) with (S i + n) by lia. }
  destruct (decide (Playlist.ID pl = pid)) as [Hid|Hid].
  - destruct (decide (len (Playlist.Songs pl) = 1)) as [Hlen|Hlen].
    + left. simpl. rewrite !decide_True by done. split; [done|by eexists].
    + destruct (songIndex sid 0 (readSlice (songMem σ) (Playlist.Songs pl)))
        as [j|] eqn:Hj.
      * right. exists 0, pl, j. rewrite Nat.add_0_r. by split_and!.
      * cbv zeta. replace (deleteSongRange c sid pid user σ i (pl :: pls))
          with (deleteSongRange c sid pid user σ (S i) pls).
        { apply Hshift, IH. }
        simpl. by rewrite decide_True, decide_False, Hj.
  - cbv zeta. replace (deleteSongRange c sid pid user σ i (pl :: pls))
      with (deleteSongRange c sid pid user σ (S i) pls).
    { apply Hshift, IH. }
    simpl. by rewrite decide_False.
Qed.

Lemma addSongRange_cases c pid song user σ pls : ∀ i,
  let r := addSongRange c pid song user σ i pls in
  (r.2 = σ ∧ ∃ k, errorKind r.1 = Some k)
  ∨ ∃ n pl,
      pls !! n = Some pl ∧ Playlist.ID pl = pid
      ∧ r = addSongRange c pid song user σ (i + n) (pl :: drop (S n) pls).
Proof.
  induction pls as [|pl pls IH]; intros i; [left; split; [done|by eexists]|].
  destruct (decide (Playlist.ID pl = pid)) as [Hid|Hid].
  - right. exists 0, pl. rewrite Nat.add_0_r. by split_and!.
  - cbv zeta. replace (addSongRange c pid song user σ i (pl :: pls))
      with (addSongRange c pid song user σ (S i) pls)
      by (simpl; by rewrite decide_False).
    destruct (IH (S i)) as [Herr|(n & pl0 & Hn & Hid0 & E)]; [by left|right].
    exists (S n), pl0. split_and!; try done.
    by replace (i + S n) with (S i + n) by lia.
Qed.

Lemma deletePlaylistRange_cases c pid user σ pls : ∀ i,
  let r := deletePlaylistRange c pid user σ i pls in
  (r.2 = σ ∧ ∃ k, errorKind r.1 = Some k)
  ∨ ∃ n pl,
      pls !! n = Some pl ∧ Playlist.ID pl = pid
      ∧ r = deletePlaylistRange c pid user σ (i + n) (pl :: drop (S n) pls).
Proof.
  induction pls as [|pl pls IH]; intros i; [left; split; [done|by eexists]|].
  destruct (decide (Playlist.ID pl = pid)) as [Hid|Hid].
  - right. exists 0, pl. rewrite Nat.add_0_r. by split_and!.
  - cbv zeta. replace (deletePlaylistRange c pid user σ i (pl :: pls))
      with (deletePlaylistRange c pid user σ (S i) pls)
      by (simpl; by rewrite decide_False).
    destruct (IH (S i)) as [Herr|(n & pl0 & Hn & Hid0 & E)]; [by left|right].
    exists (S n), pl0. split_and!; try done.
    by replace (i + S n) with (S i + n) by lia.
Qed.

End cases.

(** ** Playlists stay non-empty unless registered empty *)

Section nonempty.
Context `{GoRuntime}.

Lemma playlistsNonEmpty_at σ c u :
  playlistsNonEmpty σ → profile σ c = Some u → Forall holdsSongs (UserJSON.Playlists u).
Proof. intros Hne Hu. apply Forall_forall. intros p Hp. by eapply Hne. Qed.

Lemma playlistsNonEmpty_update σ σ' c u' :
  playlistsNonEmpty σ →
  (∀ c2, c2 ≠ c → profile σ' c2 = profile σ c2) →
  profile σ' c = Some u' →
  Forall holdsSongs (UserJSON.Playlists u') →
  playlistsNonEmpty σ'.
Proof.
  intros Hne Hframe Hc Hu' c2 u2 p Hu2 Hp.
  destruct (decide (c2 = c)) as [->|Hc2].
  - rewrite Hc in Hu2. injection Hu2 as <-.
    by eapply (proj1 (Forall_forall _ _) Hu').
  - rewrite Hframe in Hu2 by done. by eapply Hne.
Qed.

(** Every request keeps all playlists non-empty, unless it is a registration
    whose body carries a playlist without songs. *)
Lemma nonEmpty_preserved r σ :
  reachable σ →
  playlistsNonEmpty σ →
  (∀ j, r = R_register (Some j) → Forall holdsSongs (UserJSON.Playlists j)) →
  playlistsNonEmpty (serve r σ).2.
Proof.
  intros Hr Hne Hbody. pose proof (reachable_Inv σ Hr) as HI.
  pose proof (reachable_Sep σ Hr) as HS.
  destruct r as [c|b|c|c n|c s p|c p b|c p|c s]; simpl.
  - unfold loginHandler. by destruct (users σ !! c).
  - destruct b as [j|]; [|done].
    destruct (registerHandler_sep j σ HI HS) as [_ Hframe].
    destruct (registerHandler_spec j σ) as (σ' & E & Hprof & _).
    rewrite E in Hframe |- *. simpl in *.
    eapply playlistsNonEmpty_update; [done|done|done|].
    simpl. apply Forall_app. split; [by apply Hbody|].
    by apply Forall_singleton.
  - unfold viewProfile. by destruct (users σ !! c).
  - destruct (users σ !! c) as [user|] eqn:Hu.
    + destruct (createPlaylist_sep c n σ user HI HS Hu) as [_ Hframe].
      destruct (createPlaylist_spec c n σ user HI Hu)
        as (σ' & E & _ & u & Hprof & Hprof').
      rewrite E in Hframe |- *. simpl in *.
      eapply playlistsNonEmpty_update; [done|done|done|].
      simpl. apply Forall_app. split; [by eapply playlistsNonEmpty_at|].
      by apply Forall_singleton.
    + unfold createPlaylist. by rewrite Hu.
  - unfold deleteSongFromPlaylist. destruct (users σ !! c) as [user|] eqn:Hu; [|done].
    destruct (deleteSongRange_cases c s p user σ (cells σ user) 0)
      as [[E _]|(n & pl & j & Hn & Hid & Hlen & Hj & E)].
    { unfold cells in E. by rewrite E. }
    unfold cells in E. rewrite E. simpl (0 + n).
    destruct (deleteSongRange_hit_profile c user σ HI HS Hu s p n pl
                (drop (S n) (cells σ user)) j) as [Hprof Hframe]; try done.
    eapply playlistsNonEmpty_update; [done|done|done|].
    simpl. apply Forall_insert.
    + eapply (playlistsNonEmpty_at σ c (encodeUser σ user)); [done|].
      unfold profile. by rewrite Hu.
    + unfold holdsSongs. simpl.
      destruct (live_valid user σ HI n pl Hn) as [Hv _].
      pose proof (length_readSlice _ _ Hv) as Hl.
      apply songIndex_Some in Hj as (x & Hx & _).
      pose proof (lookup_lt_Some _ _ _ Hx) as Hjl.
      intros E0. apply (f_equal length) in E0.
      rewrite length_delete in E0 by eauto. simpl in E0. lia.
  - unfold addSongToPlaylist. destruct b as [song|]; [|done].
    destruct (users σ !! c) as [user|] eqn:Hu; [|done].
    destruct (addSongRange_cases c p song user σ (cells σ user) 0)
      as [[E _]|(n & pl & Hn & Hid & E)].
    { unfold cells in E. by rewrite E. }
    unfold cells in E. rewrite E. simpl (0 + n).
    destruct (addSongRange_hit_profile c user σ HI HS Hu p song n pl
                (drop (S n) (cells σ user))) as [Hprof Hframe]; try done.
    eapply playlistsNonEmpty_update; [done|done|done|].
    simpl. apply Forall_insert.
    + eapply (playlistsNonEmpty_at σ c (encodeUser σ user)); [done|].
      unfold profile. by rewrite Hu.
    + unfold holdsSongs. simpl. by intros [_ ?]%app_eq_nil.
  - unfold deletePlaylist. destruct (users σ !! c) as [user|] eqn:Hu; [|done].
    destruct (deletePlaylistRange_cases c p user σ (cells σ user) 0)
      as [[E _]|(n & pl & Hn & Hid & E)].
    { unfold cells in E. by rewrite E. }
    unfold cells in E. rewrite E. simpl (0 + n).
    destruct (deletePlaylistRange_hit_sep c p user σ HI HS Hu n pl
                (drop (S n) (cells σ user))) as [_ Hframe]; try done.
    destruct (deletePlaylistRange_hit c p user σ HI Hu n pl
                (drop (S n) (cells σ user))) as (σ' & u & E' & _ & Hprof & ->);
      try done.
    unfold cells in *. rewrite E' in Hframe |- *. simpl in *.
    eapply playlistsNonEmpty_update; [done|done|done|].
    simpl. apply Forall_delete.
    eapply (playlistsNonEmpty_at σ c (encodeUser σ user)); [done|].
    unfold profile. by rewrite Hu.
  - unfold getSongDetail. destruct (users σ !! c); [|done].
    by destruct (getSongRange _ _ _).
Qed.

End nonempty.

(** ** What a removal and an addition leave untouched *)

Section effects.
Context `{GoRuntime}.

(** A successful removal changes one playlist of one user: the user's other
    playlists and fields, and every other user, are as before. *)
Lemma removeSong_changes_nothing_else σ c songID playlistID u i p j s body :
  reachable σ →
  profile σ c = Some u →
  UserJSON.Playlists u !! i = Some p →
  PlaylistJSON.ID p = playlistID →
  2 ≤ length (PlaylistJSON.Songs p) →
  PlaylistJSON.Songs p !! j = Some s →
  Song.ID s = songID →
  (∀ j' s', j' < j → PlaylistJSON.Songs p !! j' = Some s' → Song.ID s' ≠ songID) →
  (∀ k q, k < i → UserJSON.Playlists u !! k = Some q →
          PlaylistJSON.ID q = playlistID →
          Forall (λ s, Song.ID s ≠ songID) (PlaylistJSON.Songs q)) →
  let r := deleteSongFromPlaylist c songID playlistID σ in
  r.1 = Encode body →
  profile r.2 c
  = Some (UserJSON.mk (UserJSON.ID u) (UserJSON.SecretCode u) (UserJSON.Name u)
            (UserJSON.Email u)
            (<[i := PlaylistJSON.mk (PlaylistJSON.ID p) (PlaylistJSON.Name p)
                      (delete j (PlaylistJSON.Songs p))]>
               (UserJSON.Playlists u)))
  ∧ ∀ c2, c2 ≠ c → profile r.2 c2 = profile σ c2.
Proof.
  intros Hr Hprof Hp Hid Hlen Hj Hs Hfirst Hearly r Hok.
  pose proof (reachable_Inv σ Hr) as HI. pose proof (reachable_Sep σ Hr) as HS.
  apply profile_Some in Hprof as (user & Hu & ->).
  apply playlists_lookup in Hp as (pl & Hpl & ->).
  subst r. unfold deleteSongFromPlaylist in *. rewrite Hu in *.
  pose proof (take_drop_middle _ i pl Hpl) as Hmid.
  pose proof (lookup_lt_Some _ _ _ Hpl) as Hi.
  destruct (live_valid user σ HI i pl Hpl) as [Hv _].
  set (pls := readSlice (playlistMem σ) (User.Playlists user)) in *.
  assert (deleteSongRange c songID playlistID user σ 0 pls
          = deleteSongRange c songID playlistID user σ 0
              (take i pls ++ pl :: drop (S i) pls)) as E0 by (by rewrite Hmid).
  rewrite E0 in Hok |- *.
  destruct (deleteSongRange_pre c songID playlistID user σ (take i pls) 0
              (pl :: drop (S i) pls) (earlier_lack σ user songID playlistID i Hearly))
    as [[E _]|E]; rewrite E in Hok |- *; [done|].
  rewrite length_take, Nat.min_l by lia. change (0 + i) with i.
  simpl in Hlen, Hj, Hfirst.
  apply (deleteSongRange_hit_profile c user σ HI HS Hu songID playlistID i pl
           (drop (S i) pls) j); [done|done| |].
  - rewrite <- (length_readSlice (songMem σ) _ Hv). lia.
  - apply songIndex_Some. exists s. split_and!; [done|done|].
    intros j' s' Hs' Hlt. by eapply Hfirst.
Qed.

(** An addition changes one playlist of one user and nothing else. *)
Lemma addSong_changes_nothing_else σ c playlistID newSong u i p :
  reachable σ →
  profile σ c = Some u →
  UserJSON.Playlists u !! i = Some p →
  PlaylistJSON.ID p = playlistID →
  (∀ k q, k < i → UserJSON.Playlists u !! k = Some q →
          PlaylistJSON.ID q ≠ playlistID) →
  let r := addSongToPlaylist c playlistID (Some newSong) σ in
  profile r.2 c
  = Some (UserJSON.mk (UserJSON.ID u) (UserJSON.SecretCode u) (UserJSON.Name u)
            (UserJSON.Email u)
            (<[i := PlaylistJSON.mk (PlaylistJSON.ID p) (PlaylistJSON.Name p)
                      (PlaylistJSON.Songs p ++ [Song.set_ID (nextID σ 0) newSong])]>
               (UserJSON.Playlists u)))
  ∧ ∀ c2, c2 ≠ c → profile r.2 c2 = profile σ c2.
Proof.
  intros Hr Hprof Hp Hid Hearly r.
  pose proof (reachable_Inv σ Hr) as HI. pose proof (reachable_Sep σ Hr) as HS.
  apply profile_Some in Hprof as (user & Hu & ->).
  apply playlists_lookup in Hp as (pl & Hpl & ->).
  subst r. unfold addSongToPlaylist. rewrite Hu.
  pose proof (take_drop_middle _ i pl Hpl) as Hmid.
  pose proof (lookup_lt_Some _ _ _ Hpl) as Hi.
  set (pls := readSlice (playlistMem σ) (User.Playlists user)) in *.
  rewrite <- Hmid. rewrite addSongRange_skip.
  2:{ apply Forall_lookup. intros k q Hk.
      apply lookup_take_Some in Hk as [Hk Hlt].
      apply (Hearly k (encodePlaylist (songMem σ) q) Hlt).
      apply playlists_lookup. by exists q. }
  rewrite length_take, Nat.min_l by lia. change (0 + i) with i.
  by apply (addSongRange_hit_profile c user σ HI HS Hu playlistID newSong i pl
              (drop (S i) pls)).
Qed.

(** So the playlists are non-empty after every sequence of requests in which
    no registration carries a playlist without songs. *)
Lemma nonEmpty_run rs : ∀ σ,
  reachable σ →
  playlistsNonEmpty σ →
  (∀ j, R_register (Some j) ∈ rs → Forall holdsSongs (UserJSON.Playlists j)) →
  playlistsNonEmpty (run rs σ).
Proof.
  induction rs as [|r rs IH]; intros σ Hr Hne Hbodies; [done|]. simpl.
  apply IH.
  - by constructor.
  - apply nonEmpty_preserved; [done|done|]. intros j ->. apply Hbodies. by left.
  - intros j Hj. apply Hbodies. by right.
Qed.

End effects.

(** ** When a removal answers "Playlist cannot be empty" *)

Section sole_song.
Context `{GoRuntime}.



End sole_song.

(** * The claims of the specification *)

Section claims.
Context `{GoRuntime}.

(** C1 (the playlist non-emptiness invariant does not hold of the handlers).
    The specification wants every playlist of every user to hold at least
    one song in every reachable state.  [registerHandler] decodes the
    caller's playlists into [user.Playlists] and keeps them next to the
    default playlist, so one request to [/register] whose body carries a
    playlist without songs leads from the initial state, for any seed, to a
    state in which that user owns a playlist with no song.  The sibling
    handler [deleteSongFromPlaylist] refuses to produce such a playlist
    ("Playlist cannot be empty"), and every request other than such a
    registration keeps all playlists non-empty ([nonEmpty_preserved]). *)
Theorem register_keeps_empty_playlist seed :
  let σ := (serve (R_register (Some emptyPlaylistBody)) (initState seed)).2 in
  reachable σ ∧ ¬ playlistsNonEmpty σ.
Proof.
  split; [apply reachable_serve, reachable_init|]. unfold serve. intros Hne.
  destruct (registerHandler_spec emptyPlaylistBody (initState seed))
    as (σ' & E & Hprof & _).
  rewrite E in Hne. simpl in Hne.
  apply (Hne _ _ (PlaylistJSON.mk "mine" "Mine" []) Hprof); [|done].
  simpl. by left.
Qed.


(** C4, amended (removing a song that is not the sole one).  In a reachable
    state, let the user of secret code [c] own, at position [i], a playlist
    with identifier [playlistID] and at least two songs, whose first song
    with identifier [songID] is at position [j], and let no playlist of that
    user before position [i] with the same identifier hold a song with
    [songID].  If [deleteSongFromPlaylist] succeeds, the stored playlist at
    position [i] keeps its identifier and name and holds the former songs
    without the one at position [j], in the same order: one song less. *)
Theorem removeSong_removes_first_holder σ c songID playlistID u i p j s body :
  reachable σ →
  profile σ c = Some u →
  UserJSON.Playlists u !! i = Some p →
  PlaylistJSON.ID p = playlistID →
  2 ≤ length (PlaylistJSON.Songs p) →
  PlaylistJSON.Songs p !! j = Some s →
  Song.ID s = songID →
  (∀ j' s', j' < j → PlaylistJSON.Songs p !! j' = Some s' → Song.ID s' ≠ songID) →
  (∀ k q, k < i → UserJSON.Playlists u !! k = Some q →
          PlaylistJSON.ID q = playlistID →
          Forall (λ s, Song.ID s ≠ songID) (PlaylistJSON.Songs q)) →
  let r := deleteSongFromPlaylist c songID playlistID σ in
  r.1 = Encode body →
  ∃ u', profile r.2 c = Some u'
    ∧ UserJSON.Playlists u' !! i
      = Some (PlaylistJSON.mk (PlaylistJSON.ID p) (PlaylistJSON.Name p)
                (delete j (PlaylistJSON.Songs p)))
    ∧ length (delete j (PlaylistJSON.Songs p)) + 1 = length (PlaylistJSON.Songs p).
Proof.
  intros Hr Hprof Hp Hid Hlen Hj Hs Hfirst Hearly r Hok.
  destruct (deleteSong_at σ c songID playlistID u i p j s (reachable_Inv σ Hr))
    as [[E _]|(_ & _ & u' & Hprof' & Hp')]; try done.
  - subst r. rewrite E in Hok. done.
  - exists u'. split_and!; [done|done|]. rewrite length_delete by eauto. lia.
Qed.

(** C5, amended (registration).  For every state and every decoded body [j],
    [registerHandler] answers with a user whose identifier and secret code
    are the next two outputs of [generateID], whatever identifier and secret
    code [j] carries; whose name and e-mail are those of [j]; and whose last
    playlist is the default playlist, named "Default", with exactly one
    song, the default song, under the next two generated identifiers.  That
    user is stored under its new secret code.  The state is arbitrary: the
    identifiers are the generator's next outputs whichever identifiers the
    store holds, and none is compared with them. *)
Theorem register_assigns_generated_identifiers σ j :
  ∃ u σ',
    registerHandler (Some j) σ = (Encode (UserBody u), σ')
    ∧ profile σ' (nextID σ 1) = Some u
    ∧ UserJSON.ID u = nextID σ 0
    ∧ UserJSON.SecretCode u = nextID σ 1
    ∧ UserJSON.Name u = UserJSON.Name j
    ∧ UserJSON.Email u = UserJSON.Email j
    ∧ UserJSON.Playlists u
      = UserJSON.Playlists j ++
        [PlaylistJSON.mk (nextID σ 2) "Default" [defaultSong (nextID σ 3)]].
Proof.
  destruct (registerHandler_spec j σ) as (σ' & E & Hprof & _).
  by exists (registered σ j), σ'.
Qed.

(** C6 (the two read paths agree).  For every state and every secret code,
    [loginHandler] and [viewProfile] give the same answer and the same
    state, which is the state they started from; the answer is the stored
    user when the secret code is that of a user, and NotAuthorized
    otherwise. *)
Theorem login_viewProfile_agree σ c :
  loginHandler c σ = viewProfile c σ
  ∧ (loginHandler c σ).2 = σ
  ∧ match profile σ c with
    | Some u => (loginHandler c σ).1 = Encode (UserBody u)
    | None => errorKind (loginHandler c σ).1 = Some NotAuthorized
    end.
Proof.
  unfold loginHandler, viewProfile, profile. by destruct (users σ !! c).
Qed.

(** C7 (song lookup).  [getSongDetail] leaves the state as it is.  When the
    secret code is that of no user it answers NotAuthorized.  Otherwise it
    answers with the first song with the given identifier among the songs of
    the user, taken playlist after playlist in stored order and song after
    song in sequence order, and with NotFound when there is none. *)
Theorem getSongDetail_first_match σ c songID :
  let r := getSongDetail c songID σ in
  r.2 = σ
  ∧ match profile σ c with
    | None => errorKind r.1 = Some NotAuthorized
    | Some u =>
      match list_find (λ s, Song.ID s = songID) (allSongs u) with
      | Some (_, song) => r.1 = Encode (SongBody song)
      | None => errorKind r.1 = Some NotFound
      end
    end.
Proof.
  unfold getSongDetail, profile, allSongs.
  destruct (users σ !! c) as [user|]; simpl; [|done].
  rewrite getSongRange_find.
  by destruct (list_find _ _) as [[k song]|].
Qed.

(** C8, amended (adding a song).  In a reachable state, let the user of
    secret code [c] own a playlist with identifier [playlistID], the first
    such at position [i].  Then [addSongToPlaylist] answers with the
    caller's song under the next output of [generateID], whatever identifier
    the caller's song carries, and the stored playlist at position [i] holds
    the former songs followed by that song.  The handler does not compare the
    new identifier with those in the store. *)
Theorem addSong_assigns_next_identifier σ c playlistID newSong u i p :
  reachable σ →
  profile σ c = Some u →
  UserJSON.Playlists u !! i = Some p →
  PlaylistJSON.ID p = playlistID →
  (∀ k q, k < i → UserJSON.Playlists u !! k = Some q →
          PlaylistJSON.ID q ≠ playlistID) →
  let added := Song.set_ID (nextID σ 0) newSong in
  let r := addSongToPlaylist c playlistID (Some newSong) σ in
  r.1 = Encode (SongBody added)
  ∧ ∃ u', profile r.2 c = Some u'
      ∧ UserJSON.Playlists u' !! i
        = Some (PlaylistJSON.mk (PlaylistJSON.ID p) (PlaylistJSON.Name p)
                  (PlaylistJSON.Songs p ++ [added])).
Proof.
  intros Hr Hprof Hp Hid Hearly added r.
  destruct (addSong_at σ c playlistID newSong u i p (reachable_Inv σ Hr))
    as (σ' & E & _ & Hu'); try done.
  subst r. by rewrite E.
Qed.

(** C9 (the map [playlists] is dead state).  In every reachable state the
    package-level map [playlists] is empty, and no handler reads it: put any
    map in its place, and every request is answered as before and leads to
    the same state, with that map still in place. *)
Theorem playlists_map_is_dead σ :
  reachable σ →
  playlists σ = ∅
  ∧ ∀ r m, serve r (set_playlists m σ)
           = ((serve r σ).1, set_playlists m (serve r σ).2).
Proof.
  intros Hr. split; [|intros r m; apply serve_set_playlists].
  induction Hr as [seed|r σ Hr IH]; [done|]. by rewrite serve_playlists.
Qed.

(** C10 (failure atomicity).  Whenever a handler answers with an error, of
    whatever kind, the state after the call is the state before it: the
    users, the playlists and songs in memory, and the random source. *)
Theorem errors_leave_store_unchanged r σ k :
  errorKind (serve r σ).1 = Some k → (serve r σ).2 = σ.
Proof.
  destruct r as [c|b|c|c n|c s p|c p b|c p|c s]; simpl.
  - unfold loginHandler. by destruct (users σ !! c).
  - destruct b as [j|]; [|done].
    by destruct (registerHandler_spec j σ) as (σ' & -> & _).
  - unfold viewProfile. by destruct (users σ !! c).
  - unfold createPlaylist. destruct (users σ !! c); [|done].
    unfold appendPlaylist. simpl. by split_pairs.
  - unfold deleteSongFromPlaylist. destruct (users σ !! c); [|done].
    apply deleteSongRange_error.
  - unfold addSongToPlaylist. destruct b; [|done].
    destruct (users σ !! c); [|done]. apply addSongRange_error.
  - unfold deletePlaylist. destruct (users σ !! c); [|done].
    apply deletePlaylistRange_error.
  - unfold getSongDetail. destruct (users σ !! c); [|done].
    by destruct (getSongRange _ _ _).
Qed.

End claims.

(** * The claims on example runs *)

Section runs.
#[local] Existing Instance doubling.

Lemma reachable_oneSong : reachable oneSong.
Proof. apply reachable_run, reachable_init. Qed.

Lemma reachable_twoSongs : reachable twoSongs.
Proof. apply reachable_run, reachable_init. Qed.

Lemma reachable_twins : reachable twins.
Proof. apply reachable_run, reachable_init. Qed.

Lemma reachable_guessed : reachable guessed.
Proof. apply reachable_run, reachable_init. Qed.


(** C2 (the answer of a successful removal is not the post-removal
    playlist).  Ann registers and adds song X to her default playlist; she
    then removes the default song.  The stored playlist holds X alone, and
    the handler answers with a playlist of two songs, X twice: it encodes
    the loop variable [playlist], whose [Songs] header still has the old
    length over the backing array that [append] has just shifted. *)
Theorem deleteSong_returns_stale_copy :
  let r := deleteSongFromPlaylist "1001" "1003" "1002" twoSongs in
  r.1 = Encode (PlaylistBody (PlaylistJSON.mk "1002" "Default"
                  [Song.set_ID "1004" songX; Song.set_ID "1004" songX]))
  ∧ profile r.2 "1001"
    = Some (UserJSON.mk "1000" "1001" "Ann" "ann@example.org"
              [PlaylistJSON.mk "1002" "Default" [Song.set_ID "1004" songX]]).
Proof. split; reflexivity. Qed.

(** The same run, against the wording of the specification. *)
Lemma returnsPostRemovalState_fails : ¬ returnsPostRemovalState.
Proof.
  intros Hc.
  destruct (Hc doubling twoSongs "1001" "1003" "1002" _ _ reachable_twoSongs eq_refl)
    as (u' & Hprof & Hin).
  vm_compute in Hprof. injection Hprof as <-. simpl in Hin.
  apply list_elem_of_singleton in Hin. discriminate Hin.
Qed.



(** C4 as the specification words it fails on the same registration: the
    third playlist "x" holds "a" and "c"; removing "a" from playlist "x"
    succeeds and leaves the third playlist as it was. *)
Lemma removesFromThePlaylist_fails : ¬ removesFromThePlaylist.
Proof.
  intros Hc.
  destruct (Hc doubling twins "1001" "a" _ 2
              (PlaylistJSON.mk "x" "Third" [songA; songC]) 0 songA
              (PlaylistBody (PlaylistJSON.mk "x" "First" [songB; songB]))
              (deleteSongFromPlaylist "1001" "a" "x" twins).2
              reachable_twins eq_refl eq_refl) as (u' & Hprof & Hp).
  - simpl. lia.
  - reflexivity.
  - reflexivity.
  - intros; lia.
  - reflexivity.
  - vm_compute in Hprof. injection Hprof as <-. discriminate Hp.
Qed.

Lemma removeSong_removes_first_holder_witness :
  let r := deleteSongFromPlaylist "1001" "1003" "1002" twoSongs in
  ∃ u', profile r.2 "1001" = Some u'
    ∧ UserJSON.Playlists u' !! 0
      = Some (PlaylistJSON.mk "1002" "Default" [Song.set_ID "1004" songX])
    ∧ length [Song.set_ID "1004" songX] + 1
      = length [defaultSong "1003"; Song.set_ID "1004" songX].
Proof.
  apply (removeSong_removes_first_holder twoSongs "1001" "1003" "1002"
           (UserJSON.mk "1000" "1001" "Ann" "ann@example.org"
              [PlaylistJSON.mk "1002" "Default"
                 [defaultSong "1003"; Song.set_ID "1004" songX]])
           0 (PlaylistJSON.mk "1002" "Default"
                [defaultSong "1003"; Song.set_ID "1004" songX])
           0 (defaultSong "1003")
           (PlaylistBody (PlaylistJSON.mk "1002" "Default"
                [Song.set_ID "1004" songX; Song.set_ID "1004" songX])));
    [apply reachable_twoSongs|reflexivity|reflexivity|reflexivity|simpl; lia
    |reflexivity|reflexivity|intros; lia|intros; lia|reflexivity].
Defined.

(** C5 as the specification words it fails: Ann registers with a song under
    the identifier "1004"; the user registered next is given the identifier
    "1004" by [generateID]. *)
Lemma registrationIsFresh_fails : ¬ registrationIsFresh.
Proof.
  intros Hc.
  destruct (Hc doubling guessed plainBody _ _ reachable_guessed eq_refl
              "1001" _ eq_refl) as [Hid _].
  apply Hid. vm_compute. do 3 right. left.
Qed.

(** C8 as the specification words it fails: Ann registers with a playlist
    whose song carries the identifier "1004"; the song she then adds is
    given the identifier "1004" by [generateID]. *)
Lemma addedSongIsDistinct_fails : ¬ addedSongIsDistinct.
Proof.
  intros Hc.
  apply (Hc doubling guessed "1001" "x" songX _ _ reachable_guessed eq_refl
            "1001" _ eq_refl).
  vm_compute. do 3 right. left.
Qed.

Lemma addSong_assigns_next_identifier_witness :
  let r := addSongToPlaylist "1001" "1002" (Some songX) oneSong in
  r.1 = Encode (SongBody (Song.set_ID "1004" songX))
  ∧ ∃ u', profile r.2 "1001" = Some u'
      ∧ UserJSON.Playlists u' !! 0
        = Some (PlaylistJSON.mk "1002" "Default"
                  [defaultSong "1003"; Song.set_ID "1004" songX]).
Proof.
  apply (addSong_assigns_next_identifier oneSong "1001" "1002" songX
           (UserJSON.mk "1000" "1001" "Ann" "ann@example.org"
              [PlaylistJSON.mk "1002" "Default" [defaultSong "1003"]])
           0 (PlaylistJSON.mk "1002" "Default" [defaultSong "1003"]));
    [apply reachable_oneSong|reflexivity|reflexivity|reflexivity|intros; lia].
Defined.

Lemma playlists_map_is_dead_witness :
  playlists twoSongs = ∅
  ∧ ∀ r m, serve r (set_playlists m twoSongs)
           = ((serve r twoSongs).1, set_playlists m (serve r twoSongs).2).
Proof. apply (playlists_map_is_dead twoSongs), reachable_twoSongs. Defined.

Lemma errors_leave_store_unchanged_witness :
  (serve (R_deleteSongFromPlaylist "1001" "1003" "1002") oneSong).2 = oneSong.
Proof.
  apply (errors_leave_store_unchanged
           (R_deleteSongFromPlaylist "1001" "1003" "1002") oneSong
           InvariantViolation).
  reflexivity.
Defined.

End runs.

(** * Further properties of the handlers *)

(** ** What a handler does to the stored documents *)

Section handler_effects.
Context `{GoRuntime}.

Lemma user_eta (u : UserJSON.t) :
  UserJSON.mk (UserJSON.ID u) (UserJSON.SecretCode u) (UserJSON.Name u)
              (UserJSON.Email u) (UserJSON.Playlists u) = u.
Proof. by destruct u. Qed.

Lemma createPlaylist_effect σ c name u :
  reachable σ →
  profile σ c = Some u →
  let new := PlaylistJSON.mk (nextID σ 0) name [defaultSong (nextID σ 1)] in
  let r := createPlaylist c name σ in
  r.1 = Encode (PlaylistBody new)
  ∧ profile r.2 c
    = Some (UserJSON.mk (UserJSON.ID u) (UserJSON.SecretCode u) (UserJSON.Name u)
              (UserJSON.Email u) (UserJSON.Playlists u ++ [new]))
  ∧ ∀ c2, c2 ≠ c → profile r.2 c2 = profile σ c2.
Proof.
  intros Hr Hprof new r.
  pose proof (reachable_Inv σ Hr) as HI. pose proof (reachable_Sep σ Hr) as HS.
  apply profile_Some in Hprof as (user & Hu & ->).
  destruct (createPlaylist_sep c name σ user HI HS Hu) as [_ Hframe].
  destruct (createPlaylist_spec c name σ user HI Hu)
    as (σ' & E & _ & u & Hprof & Hprof').
  subst r new. rewrite E in Hframe |- *. simpl in *.
  apply profile_Some in Hprof as (user' & Hu' & ->).
  rewrite Hu in Hu'. injection Hu' as <-. done.
Qed.

Lemma deletePlaylistRange_skip c pid user σ pre : ∀ i rest,
  Forall (λ q, Playlist.ID q ≠ pid) pre →
  deletePlaylistRange c pid user σ i (pre ++ rest)
  = deletePlaylistRange c pid user σ (i + length pre) rest.
Proof.
  induction pre as [|q pre IH]; intros i rest Hpre; simpl.
  - by rewrite Nat.add_0_r.
  - apply Forall_cons in Hpre as [Hq Hpre].
    replace (i + S (length pre)) with (S i + length pre) by lia.
    rewrite decide_False by done. by apply IH.
Qed.

Lemma earlier_other_ID σ user pid i :
  (∀ k q, k < i → UserJSON.Playlists (encodeUser σ user) !! k = Some q →
          PlaylistJSON.ID q ≠ pid) →
  Forall (λ q, Playlist.ID q ≠ pid) (take i (cells σ user)).
Proof.
  intros Hearly. apply Forall_lookup. intros k q Hk.
  apply lookup_take_Some in Hk as [Hk Hlt].
  apply (Hearly k (encodePlaylist (songMem σ) q) Hlt).
  apply playlists_lookup. by exists q.
Qed.

Lemma deletePlaylist_at σ c pid u i p :
  reachable σ →
  profile σ c = Some u →
  UserJSON.Playlists u !! i = Some p →
  PlaylistJSON.ID p = pid →
  (∀ k q, k < i → UserJSON.Playlists u !! k = Some q → PlaylistJSON.ID q ≠ pid) →
  let u' := UserJSON.mk (UserJSON.ID u) (UserJSON.SecretCode u) (UserJSON.Name u)
              (UserJSON.Email u) (delete i (UserJSON.Playlists u)) in
  let r := deletePlaylist c pid σ in
  r.1 = Encode (UserBody u')
  ∧ profile r.2 c = Some u'
  ∧ ∀ c2, c2 ≠ c → profile r.2 c2 = profile σ c2.
Proof.
  intros Hr Hprof Hp Hid Hearly u' r.
  pose proof (reachable_Inv σ Hr) as HI. pose proof (reachable_Sep σ Hr) as HS.
  apply profile_Some in Hprof as (user & Hu & ->).
  apply playlists_lookup in Hp as (pl & Hpl & ->).
  subst r u'. unfold deletePlaylist. rewrite Hu.
  pose proof (take_drop_middle _ i pl Hpl) as Hmid.
  pose proof (lookup_lt_Some _ _ _ Hpl) as Hi.
  pose proof (earlier_other_ID σ user pid i Hearly) as Hpre. unfold cells in Hpre.
  set (pls := readSlice (playlistMem σ) (User.Playlists user)) in *.
  rewrite <- Hmid. rewrite deletePlaylistRange_skip by done.
  rewrite length_take, Nat.min_l by lia. change (0 + i) with i.
  destruct (deletePlaylistRange_hit_sep c pid user σ HI HS Hu i pl (drop (S i) pls))
    as [_ Hframe]; [done|done|].
  destruct (deletePlaylistRange_hit c pid user σ HI Hu i pl (drop (S i) pls))
    as (σ' & u & E' & _ & Hprof & ->); [done|done|].
  rewrite E' in Hframe |- *. done.
Qed.

Lemma deleteSong_effect σ c sid pid u i p j s :
  reachable σ →
  profile σ c = Some u →
  UserJSON.Playlists u !! i = Some p →
  PlaylistJSON.ID p = pid →
  2 ≤ length (PlaylistJSON.Songs p) →
  PlaylistJSON.Songs p !! j = Some s →
  Song.ID s = sid →
  (∀ j' s', j' < j → PlaylistJSON.Songs p !! j' = Some s' → Song.ID s' ≠ sid) →
  (∀ k q, k < i → UserJSON.Playlists u !! k = Some q → PlaylistJSON.ID q = pid →
          length (PlaylistJSON.Songs q) ≠ 1
          ∧ Forall (λ s, Song.ID s ≠ sid) (PlaylistJSON.Songs q)) →
  let songs := PlaylistJSON.Songs p in
  let r := deleteSongFromPlaylist c sid pid σ in
  r.1 = Encode (PlaylistBody
          (PlaylistJSON.mk (PlaylistJSON.ID p) (PlaylistJSON.Name p)
             (delete j songs ++ drop (length songs - 1) songs)))
  ∧ profile r.2 c
    = Some (UserJSON.mk (UserJSON.ID u) (UserJSON.SecretCode u) (UserJSON.Name u)
              (UserJSON.Email u)
              (<[i := PlaylistJSON.mk (PlaylistJSON.ID p) (PlaylistJSON.Name p)
                        (delete j songs)]> (UserJSON.Playlists u)))
  ∧ ∀ c2, c2 ≠ c → profile r.2 c2 = profile σ c2.
Proof.
  intros Hr Hprof Hp Hid Hlen Hj Hs Hfirst Hearly songs r.
  assert (r.1 = Encode (PlaylistBody
          (PlaylistJSON.mk (PlaylistJSON.ID p) (PlaylistJSON.Name p)
             (delete j songs ++ drop (length songs - 1) songs)))) as Hresp.
  { destruct (deleteSong_at σ c sid pid u i p j s (reachable_Inv σ Hr))
      as [[_ (k & q & Hk & Hq & Hqid & Hql)]|(E & _)]; try done.
    - intros k q Hk Hq Hqid. by apply (Hearly k q).
    - by destruct (Hearly k q Hk Hq Hqid). }
  split; [done|].
  eapply (removeSong_changes_nothing_else σ c sid pid u i p j s); try done.
  intros k q Hk Hq Hqid. by apply (Hearly k q).
Qed.

Lemma addSong_effect σ c pid newSong u i p :
  reachable σ →
  profile σ c = Some u →
  UserJSON.Playlists u !! i = Some p →
  PlaylistJSON.ID p = pid →
  (∀ k q, k < i → UserJSON.Playlists u !! k = Some q → PlaylistJSON.ID q ≠ pid) →
  let added := Song.set_ID (nextID σ 0) newSong in
  let r := addSongToPlaylist c pid (Some newSong) σ in
  r.1 = Encode (SongBody added)
  ∧ profile r.2 c
    = Some (UserJSON.mk (UserJSON.ID u) (UserJSON.SecretCode u) (UserJSON.Name u)
              (UserJSON.Email u)
              (<[i := PlaylistJSON.mk (PlaylistJSON.ID p) (PlaylistJSON.Name p)
                        (PlaylistJSON.Songs p ++ [added])]> (UserJSON.Playlists u)))
  ∧ ∀ c2, c2 ≠ c → profile r.2 c2 = profile σ c2.
Proof.
  intros Hr Hprof Hp Hid Hearly added r. split.
  - destruct (addSong_at σ c pid newSong u i p (reachable_Inv σ Hr))
      as (σ' & E & _); try done. subst r. by rewrite E.
  - by apply (addSong_changes_nothing_else σ c pid newSong u i p).
Qed.

Lemma none_with_ID σ user pid :
  Forall (λ p, PlaylistJSON.ID p ≠ pid) (UserJSON.Playlists (encodeUser σ user)) →
  Forall (λ q, Playlist.ID q ≠ pid) (cells σ user).
Proof.
  intros Hall. apply Forall_lookup. intros k q Hk.
  apply (proj1 (Forall_lookup _ _) Hall k (encodePlaylist (songMem σ) q)).
  apply playlists_lookup. by exists q.
Qed.

(** The first playlist with an identifier, when there is one. *)
Lemma first_with_ID pid (ps : list PlaylistJSON.t) :
  match list_find (λ p, PlaylistJSON.ID p = pid) ps with
  | Some (i, p) =>
    ps !! i = Some p ∧ PlaylistJSON.ID p = pid
    ∧ ∀ k q, k < i → ps !! k = Some q → PlaylistJSON.ID q ≠ pid
  | None => Forall (λ p, PlaylistJSON.ID p ≠ pid) ps
  end.
Proof.
  destruct (list_find _ ps) as [[i p]|] eqn:E.
  - apply list_find_Some in E as (Hp & Hid & Hfirst). split_and!; [done|done|].
    intros k q Hk Hq. by eapply Hfirst.
  - by apply list_find_None in E.
Qed.

End handler_effects.

(** ** createPlaylist, deletePlaylist and the answers of addSongToPlaylist *)

Section answers.
Context `{GoRuntime}.

(** X1 (createPlaylist).  In every reachable state, createPlaylist with an
    unknown secret code answers 401 "Invalid secret code" and changes
    nothing.  With the secret code of a stored user it answers with a new
    playlist that carries the next identifier of the generator, the given
    name and one default song carrying the identifier after that; the
    playlist is appended to the end of that user's playlists, the user's
    other fields and playlists stay as they were, and no other user
    changes.  The name is not compared with the names of the playlists the
    user already has. *)
Theorem createPlaylist_appends_playlist σ c name :
  reachable σ →
  let r := createPlaylist c name σ in
  match profile σ c with
  | None => r = (sendError "Invalid secret code" StatusUnauthorized, σ)
  | Some u =>
    let new := PlaylistJSON.mk (nextID σ 0) name [defaultSong (nextID σ 1)] in
    r.1 = Encode (PlaylistBody new)
    ∧ profile r.2 c
      = Some (UserJSON.mk (UserJSON.ID u) (UserJSON.SecretCode u) (UserJSON.Name u)
                (UserJSON.Email u) (UserJSON.Playlists u ++ [new]))
    ∧ ∀ c2, c2 ≠ c → profile r.2 c2 = profile σ c2
  end.
Proof.
  intros Hr r. destruct (profile σ c) as [u|] eqn:Hprof.
  - by apply createPlaylist_effect.
  - subst r. unfold createPlaylist, profile in *.
    by destruct (users σ !! c).
Qed.

(** X2 (deletePlaylist).  In every reachable state, deletePlaylist answers
    401 for an unknown secret code and 404 "Invalid playlist ID" when the
    user has no playlist with the identifier, changing nothing in both
    cases.  Otherwise it removes the first playlist with that identifier in
    the user's stored order and only that one (a later playlist with the
    same identifier stays), answers with the user as stored afterwards, and
    changes no other user.  It removes a user's only playlist as well: no
    minimum number of playlists is kept. *)
Theorem deletePlaylist_removes_first σ c playlistID :
  reachable σ →
  let r := deletePlaylist c playlistID σ in
  match profile σ c with
  | None => r = (sendError "Invalid secret code" StatusUnauthorized, σ)
  | Some u =>
    match list_find (λ p, PlaylistJSON.ID p = playlistID) (UserJSON.Playlists u) with
    | None => r = (sendError "Invalid playlist ID" StatusNotFound, σ)
    | Some (i, _) =>
      let u' := UserJSON.mk (UserJSON.ID u) (UserJSON.SecretCode u) (UserJSON.Name u)
                  (UserJSON.Email u) (delete i (UserJSON.Playlists u)) in
      r.1 = Encode (UserBody u')
      ∧ profile r.2 c = Some u'
      ∧ ∀ c2, c2 ≠ c → profile r.2 c2 = profile σ c2
    end
  end.
Proof.
  intros Hr r. destruct (profile σ c) as [u|] eqn:Hprof.
  - pose proof (first_with_ID playlistID (UserJSON.Playlists u)) as Hfind.
    destruct (list_find _ (UserJSON.Playlists u)) as [[i p]|].
    + destruct Hfind as (Hp & Hid & Hfirst). by eapply deletePlaylist_at.
    + subst r. apply profile_Some in Hprof as (user & Hu & ->).
      unfold deletePlaylist. rewrite Hu.
      rewrite <- (app_nil_r (readSlice _ _)), deletePlaylistRange_skip; [done|].
      by apply none_with_ID.
  - subst r. unfold deletePlaylist, profile in *.
    by destruct (users σ !! c).
Qed.

(** X3 (addSongToPlaylist, the answer).  In every state: a body that does
    not decode is answered 400 "Invalid request body" before the secret code
    is looked at; then an unknown secret code is answered 401, a playlist
    identifier the user does not have 404 "Invalid playlist ID", all three
    with the state unchanged; otherwise the answer is the decoded song with
    its identifier replaced by the next identifier of the generator. *)
Theorem addSong_answers σ c playlistID body :
  let r := addSongToPlaylist c playlistID body σ in
  match body with
  | None => r = (sendError "Invalid request body" StatusBadRequest, σ)
  | Some newSong =>
    match profile σ c with
    | None => r = (sendError "Invalid secret code" StatusUnauthorized, σ)
    | Some u =>
      match list_find (λ p, PlaylistJSON.ID p = playlistID) (UserJSON.Playlists u) with
      | None => r = (sendError "Invalid playlist ID" StatusNotFound, σ)
      | Some _ => r.1 = Encode (SongBody (Song.set_ID (nextID σ 0) newSong))
      end
    end
  end.
Proof.
  intros r. subst r. destruct body as [newSong|]; [|done].
  unfold addSongToPlaylist, profile.
  destruct (users σ !! c) as [user|]; simpl; [|done].
  pose proof (first_with_ID playlistID (UserJSON.Playlists (encodeUser σ user)))
    as Hfind.
  destruct (list_find _ _) as [[i p]|].
  - destruct Hfind as (Hp & Hid & Hfirst).
    apply playlists_lookup in Hp as (pl & Hpl & ->).
    pose proof (take_drop_middle _ i pl Hpl) as Hmid.
    pose proof (earlier_other_ID σ user playlistID i Hfirst) as Hpre.
    unfold cells in Hpre.
    rewrite <- Hmid, addSongRange_skip by done. simpl.
    rewrite decide_True by done. by split_pairs.
  - rewrite <- (app_nil_r (readSlice _ _)), addSongRange_skip; [done|].
    by apply none_with_ID.
Qed.

End answers.

(** ** The failures of deleteSongFromPlaylist *)

Section removal_failures.
Context `{GoRuntime}.

Lemma deleteSongRange_answer c sid pid user σ pls : ∀ i,
  match (deleteSongRange c sid pid user σ i pls).1 with
  | Encode (PlaylistBody _) => True
  | Encode _ => False
  | sendError _ statusCode => statusCode = StatusBadRequest
  end.
Proof.
  induction pls as [|pl pls IH]; intros i; simpl; [done|].
  repeat case_decide; try done; try apply IH.
  destruct (songIndex _ _ _); [|apply IH]. by split_pairs.
Qed.

(** X5 (deleteSongFromPlaylist, the failures).  In every state,
    deleteSongFromPlaylist answers with a playlist or with status 400: it
    never sends 401 or 404.  An unknown secret code is answered 400
    "Invalid request" with the state unchanged, where the other handlers
    answer 401. *)
Theorem removeSong_fails_with_400_only σ c songID playlistID :
  let r := deleteSongFromPlaylist c songID playlistID σ in
  match profile σ c with
  | None => r = (sendError "Invalid request" StatusBadRequest, σ)
  | Some _ =>
    match r.1 with
    | Encode (PlaylistBody _) => True
    | Encode _ => False
    | sendError _ statusCode => statusCode = StatusBadRequest
    end
  end.
Proof.
  intros r. subst r. unfold deleteSongFromPlaylist, profile.
  destruct (users σ !! c) as [user|]; simpl; [|done].
  apply deleteSongRange_answer.
Qed.

Lemma deleteSongRange_bad_request c sid pid user σ pls : ∀ i,
  errorKind (deleteSongRange c sid pid user σ i pls).1 = Some BadRequest ↔
  Forall (λ q, Playlist.ID q = pid →
               len (Playlist.Songs q) ≠ 1
               ∧ songIndex sid 0 (readSlice (songMem σ) (Playlist.Songs q)) = None) pls.
Proof.
  induction pls as [|pl pls IH]; intros i; simpl; [done|].
  rewrite Forall_cons. destruct (decide (Playlist.ID pl = pid)) as [Hid|Hid].
  - destruct (decide (len (Playlist.Songs pl) = 1)) as [Hlen|Hlen].
    + split; [done|]. intros [Hpl _]. by destruct (Hpl Hid).
    + destruct (songIndex sid 0 (readSlice (songMem σ) (Playlist.Songs pl)))
        as [j|] eqn:Hj.
      * split.
        { destruct (appendSlice _ _ _ _ _). done. }
        intros [Hpl _]. by destruct (Hpl Hid).
      * rewrite IH. split; [|by intros [_ ?]]. intros Hrest. split; [|done].
        by intros _.
  - rewrite IH. split; [|by intros [_ ?]]. intros Hrest. split; [|done].
    by intros ?.
Qed.

(** X6 (deleteSongFromPlaylist, "Invalid request").  In every reachable
    state the removal is answered BadRequest ("Invalid request") exactly
    when the secret code is unknown or every playlist of the user with the
    given identifier has a number of songs other than one and holds no song
    with the given song identifier; in particular when the user has no
    playlist with that identifier. *)
Theorem removeSong_bad_request_iff σ c songID playlistID :
  reachable σ →
  let r := deleteSongFromPlaylist c songID playlistID σ in
  errorKind r.1 = Some BadRequest ↔
  match profile σ c with
  | None => True
  | Some u =>
    Forall (λ p, PlaylistJSON.ID p = playlistID →
                 length (PlaylistJSON.Songs p) ≠ 1
                 ∧ Forall (λ s, Song.ID s ≠ songID) (PlaylistJSON.Songs p))
           (UserJSON.Playlists u)
  end.
Proof.
  intros Hr r. subst r. pose proof (reachable_Inv σ Hr) as HI.
  unfold deleteSongFromPlaylist, profile.
  destruct (users σ !! c) as [user|] eqn:Hu; simpl; [|done].
  rewrite deleteSongRange_bad_request, Forall_fmap.
  rewrite !Forall_forall.
  apply forall_proper; intros q. apply forall_proper; intros Hq. simpl.
  assert (length (readSlice (songMem σ) (Playlist.Songs q)) = len (Playlist.Songs q))
    as ->.
  { apply length_readSlice. by eapply cells_valid. }
  by rewrite songIndex_None.
Qed.

End removal_failures.

(** ** A request fails and changes nothing, or rewrites one user *)

Section outcomes.
Context `{GoRuntime}.

Lemma deleteSongRange_first c sid pid user σ pls : ∀ i,
  let r := deleteSongRange c sid pid user σ i pls in
  (r.2 = σ ∧ ∃ k, errorKind r.1 = Some k)
  ∨ ∃ n pl j,
      pls !! n = Some pl ∧ Playlist.ID pl = pid ∧ len (Playlist.Songs pl) ≠ 1
      ∧ songIndex sid 0 (readSlice (songMem σ) (Playlist.Songs pl)) = Some j
      ∧ Forall (λ q, Playlist.ID q = pid →
                     len (Playlist.Songs q) ≠ 1
                     ∧ songIndex sid 0 (readSlice (songMem σ) (Playlist.Songs q))
                       = None) (take n pls)
      ∧ r = deleteSongRange c sid pid user σ (i + n) (pl :: drop (S n) pls).
Proof.
  induction pls as [|pl pls IH]; intros i; [left; split; [done|by eexists]|].
  destruct (decide (Playlist.ID pl = pid)) as [Hid|Hid].
  - destruct (decide (len (Playlist.Songs pl) = 1)) as [Hlen|Hlen].
    + left. simpl. rewrite !decide_True by done. split; [done|by eexists].
    + destruct (songIndex sid 0 (readSlice (songMem σ) (Playlist.Songs pl)))
        as [j|] eqn:Hj.
      * right. exists 0, pl, j. rewrite Nat.add_0_r. by split_and!.
      * cbv zeta. replace (deleteSongRange c sid pid user σ i (pl :: pls))
          with (deleteSongRange c sid pid user σ (S i) pls)
          by (simpl; by rewrite decide_True, decide_False, Hj).
        destruct (IH (S i)) as [Herr|(n & pl0 & j & Hn & ? & ? & ? & Hpre & E)];
          [by left|right].
        exists (S n), pl0, j. split_and!; try done.
        -- simpl. by apply Forall_cons.
        -- by replace (i + S n) with (S i + n) by lia.
  - cbv zeta. replace (deleteSongRange c sid pid user σ i (pl :: pls))
      with (deleteSongRange c sid pid user σ (S i) pls)
      by (simpl; by rewrite decide_False).
    destruct (IH (S i)) as [Herr|(n & pl0 & j & Hn & ? & ? & ? & Hpre & E)];
      [by left|right].
    exists (S n), pl0, j. split_and!; try done.
    + simpl. by apply Forall_cons.
    + by replace (i + S n) with (S i + n) by lia.
Qed.

Lemma deleteSong_outcome σ c songID playlistID :
  reachable σ →
  let r := deleteSongFromPlaylist c songID playlistID σ in
  (r.2 = σ ∧ ∃ k, errorKind r.1 = Some k)
  ∨ ∃ u i p j s,
      profile σ c = Some u
      ∧ UserJSON.Playlists u !! i = Some p
      ∧ PlaylistJSON.ID p = playlistID
      ∧ PlaylistJSON.Songs p !! j = Some s
      ∧ Song.ID s = songID
      ∧ 2 ≤ length (PlaylistJSON.Songs p)
      ∧ (∀ j' s', j' < j → PlaylistJSON.Songs p !! j' = Some s' →
                  Song.ID s' ≠ songID)
      ∧ (∀ k q, k < i → UserJSON.Playlists u !! k = Some q →
                PlaylistJSON.ID q = playlistID →
                length (PlaylistJSON.Songs q) ≠ 1
                ∧ Forall (λ s, Song.ID s ≠ songID) (PlaylistJSON.Songs q))
      ∧ r.1 = Encode (PlaylistBody
                (PlaylistJSON.mk (PlaylistJSON.ID p) (PlaylistJSON.Name p)
                   (delete j (PlaylistJSON.Songs p)
                    ++ drop (length (PlaylistJSON.Songs p) - 1)
                         (PlaylistJSON.Songs p))))
      ∧ profile r.2 c
        = Some (UserJSON.mk (UserJSON.ID u) (UserJSON.SecretCode u) (UserJSON.Name u)
                  (UserJSON.Email u)
                  (<[i := PlaylistJSON.mk (PlaylistJSON.ID p) (PlaylistJSON.Name p)
                            (delete j (PlaylistJSON.Songs p))]>
                     (UserJSON.Playlists u)))
      ∧ ∀ c2, c2 ≠ c → profile r.2 c2 = profile σ c2.
Proof.
  intros Hr r. subst r.
  pose proof (reachable_Inv σ Hr) as HI. pose proof (reachable_Sep σ Hr) as HS.
  unfold deleteSongFromPlaylist in *.
  destruct (users σ !! c) as [user|] eqn:Hu; [|left; split; [done|by eexists]].
  destruct (deleteSongRange_first c songID playlistID user σ
              (readSlice (playlistMem σ) (User.Playlists user)) 0)
    as [Herr|(n & pl & j & Hpl & Hid & Hlen & Hj & Hpre & E)]; [by left|right].
  cbv zeta in E. change (0 + n) with n in E. rewrite E.
  destruct (live_valid user σ HI n pl Hpl) as [Hv _].
  pose proof (length_readSlice (songMem σ) _ Hv) as Hlen'.
  destruct (deleteSongRange_hit c songID playlistID user σ HI Hu n pl
              (drop (S n) (readSlice (playlistMem σ) (User.Playlists user))) j)
    as (σ' & user' & E' & _); [done..|].
  destruct (deleteSongRange_hit_profile c user σ HI HS Hu songID playlistID n pl
              (drop (S n) (readSlice (playlistMem σ) (User.Playlists user))) j)
    as [Hprof Hframe]; [done..|].
  apply songIndex_Some in Hj as (s & Hs & Hsid & Hfirst).
  exists (encodeUser σ user), n, (encodePlaylist (songMem σ) pl), j, s.
  split_and!; try done.
  - apply profile_Some. by exists user.
  - apply playlists_lookup. by exists pl.
  - simpl. apply lookup_lt_Some in Hs. lia.
  - intros j' s' Hlt Hs'. by eapply Hfirst.
  - intros k q Hk Hq Hqid. apply playlists_lookup in Hq as (ql & Hql & ->).
    assert (take n (readSlice (playlistMem σ) (User.Playlists user)) !! k = Some ql)
      as Hin by (by rewrite lookup_take_lt).
    destruct (Forall_lookup_1 _ _ _ _ Hpre Hin Hqid) as [Hl1 Hnone].
    destruct (live_valid user σ HI k ql Hql) as [Hvq _].
    simpl. rewrite (length_readSlice (songMem σ) _ Hvq). split; [done|].
    by apply songIndex_None.
  - by rewrite E'.
Qed.

Lemma addSong_outcome σ c playlistID body :
  reachable σ →
  let r := addSongToPlaylist c playlistID body σ in
  (r.2 = σ ∧ ∃ k, errorKind r.1 = Some k)
  ∨ ∃ newSong u i p,
      body = Some newSong
      ∧ profile σ c = Some u
      ∧ UserJSON.Playlists u !! i = Some p
      ∧ PlaylistJSON.ID p = playlistID
      ∧ (∀ k q, k < i → UserJSON.Playlists u !! k = Some q →
                PlaylistJSON.ID q ≠ playlistID)
      ∧ r.1 = Encode (SongBody (Song.set_ID (nextID σ 0) newSong))
      ∧ profile r.2 c
        = Some (UserJSON.mk (UserJSON.ID u) (UserJSON.SecretCode u) (UserJSON.Name u)
                  (UserJSON.Email u)
                  (<[i := PlaylistJSON.mk (PlaylistJSON.ID p) (PlaylistJSON.Name p)
                            (PlaylistJSON.Songs p
                             ++ [Song.set_ID (nextID σ 0) newSong])]>
                     (UserJSON.Playlists u)))
      ∧ ∀ c2, c2 ≠ c → profile r.2 c2 = profile σ c2.
Proof.
  intros Hr r.
  destruct body as [newSong|]; [|left; split; [done|by eexists]].
  destruct (profile σ c) as [u|] eqn:Hprof.
  - pose proof (first_with_ID playlistID (UserJSON.Playlists u)) as Hfind.
    destruct (list_find _ (UserJSON.Playlists u)) as [[i p]|].
    + destruct Hfind as (Hp & Hid & Hfirst). right. exists newSong, u, i, p.
      split_and!; try done; by eapply addSong_effect.
    + left. subst r. apply profile_Some in Hprof as (user & Hu & ->).
      unfold addSongToPlaylist. rewrite Hu.
      rewrite <- (app_nil_r (readSlice _ _)), addSongRange_skip.
      * split; [done|by eexists].
      * by apply none_with_ID.
  - left. subst r. unfold addSongToPlaylist, profile in *.
    destruct (users σ !! c); [done|]. split; [done|by eexists].
Qed.

Lemma deletePlaylist_outcome σ c playlistID :
  reachable σ →
  let r := deletePlaylist c playlistID σ in
  (r.2 = σ ∧ ∃ k, errorKind r.1 = Some k)
  ∨ ∃ u i p,
      profile σ c = Some u
      ∧ UserJSON.Playlists u !! i = Some p
      ∧ PlaylistJSON.ID p = playlistID
      ∧ (∀ k q, k < i → UserJSON.Playlists u !! k = Some q →
                PlaylistJSON.ID q ≠ playlistID)
      ∧ r.1 = Encode (UserBody
                (UserJSON.mk (UserJSON.ID u) (UserJSON.SecretCode u) (UserJSON.Name u)
                   (UserJSON.Email u) (delete i (UserJSON.Playlists u))))
      ∧ profile r.2 c
        = Some (UserJSON.mk (UserJSON.ID u) (UserJSON.SecretCode u) (UserJSON.Name u)
                  (UserJSON.Email u) (delete i (UserJSON.Playlists u)))
      ∧ ∀ c2, c2 ≠ c → profile r.2 c2 = profile σ c2.
Proof.
  intros Hr r. destruct (profile σ c) as [u|] eqn:Hprof.
  - pose proof (first_with_ID playlistID (UserJSON.Playlists u)) as Hfind.
    destruct (list_find _ (UserJSON.Playlists u)) as [[i p]|].
    + destruct Hfind as (Hp & Hid & Hfirst). right. exists u, i, p.
      split_and!; try done; by eapply deletePlaylist_at.
    + left. subst r. apply profile_Some in Hprof as (user & Hu & ->).
      unfold deletePlaylist. rewrite Hu.
      rewrite <- (app_nil_r (readSlice _ _)), deletePlaylistRange_skip.
      * split; [done|by eexists].
      * by apply none_with_ID.
  - left. subst r. unfold deletePlaylist, profile in *.
    destruct (users σ !! c); [done|]. split; [done|by eexists].
Qed.

(** Every request but a registration with a well-formed body leaves the
    state as it is or rewrites the playlists of one stored user. *)
Lemma serve_rewrites_one_user r σ :
  reachable σ →
  (∀ j, r ≠ R_register (Some j)) →
  (serve r σ).2 = σ
  ∨ ∃ c u ps,
      profile σ c = Some u
      ∧ profile (serve r σ).2 c
        = Some (UserJSON.mk (UserJSON.ID u) (UserJSON.SecretCode u) (UserJSON.Name u)
                  (UserJSON.Email u) ps)
      ∧ ∀ c2, c2 ≠ c → profile (serve r σ).2 c2 = profile σ c2.
Proof.
  intros Hr Hreg. destruct r as [c|[j|]|c|c n|c s p|c p b|c p|c s]; unfold serve.
  - left. unfold loginHandler. by destruct (users σ !! c).
  - by destruct (Hreg j).
  - by left.
  - left. unfold viewProfile. by destruct (users σ !! c).
  - destruct (profile σ c) as [u|] eqn:Hprof.
    + right. destruct (createPlaylist_effect σ c n u Hr Hprof) as (_ & Hp & Hf).
      by eexists c, u, _.
    + left. unfold createPlaylist, profile in *. by destruct (users σ !! c).
  - destruct (deleteSong_outcome σ c s p Hr)
      as [[E _]|(u & i & q & j & s' & Hu & _ & _ & _ & _ & _ & _ & _ & _ & Hp & Hf)];
      [by left|right]. by eexists c, u, _.
  - destruct (addSong_outcome σ c p b Hr)
      as [[E _]|(s' & u & i & q & _ & Hu & _ & _ & _ & _ & Hp & Hf)];
      [by left|right]. by eexists c, u, _.
  - destruct (deletePlaylist_outcome σ c p Hr)
      as [[E _]|(u & i & q & Hu & _ & _ & _ & _ & Hp & Hf)];
      [by left|right]. by eexists c, u, _.
  - left. unfold getSongDetail. destruct (users σ !! c); [|done].
    by destruct (getSongRange _ _ _).
Qed.

Lemma register_profiles σ j c2 :
  reachable σ →
  profile (registerHandler (Some j) σ).2 c2
  = if decide (c2 = nextID σ 1) then Some (registered σ j) else profile σ c2.
Proof.
  intros Hr. case_decide as Hc.
  - subst c2. destruct (registerHandler_spec j σ) as (σ' & E & Hp & _).
    by rewrite E.
  - by apply registerHandler_sep; [apply reachable_Inv|apply reachable_Sep|].
Qed.

(** The key of a stored user is the secret code the user carries. *)
Lemma reachable_keys σ :
  reachable σ → ∀ c u, profile σ c = Some u → UserJSON.SecretCode u = c.
Proof.
  induction 1 as [seed|r σ Hr IH]; intros c u Hu; [done|].
  assert ((∃ j, r = R_register (Some j)) ∨ ∀ j, r ≠ R_register (Some j))
    as [[j ->]|Hreg] by (destruct r as [?|[?|]|?|? ?|? ? ?|? ? ?|? ?|? ?]; eauto).
  - unfold serve in Hu. rewrite register_profiles in Hu by done.
    case_decide; [by simplify_eq|by eapply IH].
  - destruct (serve_rewrites_one_user r σ Hr Hreg)
      as [E|(c0 & u0 & ps & Hu0 & Hp & Hf)].
    + rewrite E in Hu. by eapply IH.
    + destruct (decide (c = c0)) as [->|Hc].
      * rewrite Hp in Hu. simplify_eq. simpl. by eapply IH.
      * rewrite Hf in Hu by done. by eapply IH.
Qed.

End outcomes.

(** ** What every success did; the users map *)

Section successes.
Context `{GoRuntime}.

(** X7 (deleteSongFromPlaylist, every success).  Whenever a removal in a
    reachable state is answered with a playlist, the user exists and the
    store changed in exactly one place: one playlist of that user with the
    given identifier, holding at least two songs, lost the first of its
    songs with the given song identifier.  That playlist is the first one
    with the identifier that holds the song, and no earlier playlist with
    the identifier has exactly one song.  The user's other playlists and
    fields and all other users are as before. *)
Theorem removeSong_success_removes_one_song σ c songID playlistID body :
  reachable σ →
  let r := deleteSongFromPlaylist c songID playlistID σ in
  r.1 = Encode body →
  ∃ u i p j s,
    profile σ c = Some u
    ∧ UserJSON.Playlists u !! i = Some p
    ∧ PlaylistJSON.ID p = playlistID
    ∧ PlaylistJSON.Songs p !! j = Some s
    ∧ Song.ID s = songID
    ∧ 2 ≤ length (PlaylistJSON.Songs p)
    ∧ (∀ j' s', j' < j → PlaylistJSON.Songs p !! j' = Some s' → Song.ID s' ≠ songID)
    ∧ (∀ k q, k < i → UserJSON.Playlists u !! k = Some q →
              PlaylistJSON.ID q = playlistID →
              length (PlaylistJSON.Songs q) ≠ 1
              ∧ Forall (λ s, Song.ID s ≠ songID) (PlaylistJSON.Songs q))
    ∧ profile r.2 c
      = Some (UserJSON.mk (UserJSON.ID u) (UserJSON.SecretCode u) (UserJSON.Name u)
                (UserJSON.Email u)
                (<[i := PlaylistJSON.mk (PlaylistJSON.ID p) (PlaylistJSON.Name p)
                          (delete j (PlaylistJSON.Songs p))]>
                   (UserJSON.Playlists u)))
    ∧ ∀ c2, c2 ≠ c → profile r.2 c2 = profile σ c2.
Proof.
  intros Hr r Hok.
  destruct (deleteSong_outcome σ c songID playlistID Hr)
    as [[_ [k Hk]]|(u & i & p & j & s & ? & ? & ? & ? & ? & ? & ? & ? & E & ? & ?)].
  { fold r in Hk. by rewrite Hok in Hk. }
  by exists u, i, p, j, s.
Qed.

(** X8 (deleteSongFromPlaylist, the answer of every success).  Whenever a
    removal in a reachable state is answered with a playlist, the answer is
    the playlist as now stored followed by one more song: it has one song
    more than the stored playlist and is never the post-removal state. *)
Theorem removeSong_answer_has_extra_song σ c songID playlistID body :
  reachable σ →
  let r := deleteSongFromPlaylist c songID playlistID σ in
  r.1 = Encode body →
  ∃ u i p last,
    profile r.2 c = Some u
    ∧ UserJSON.Playlists u !! i = Some p
    ∧ PlaylistJSON.ID p = playlistID
    ∧ body = PlaylistBody
               (PlaylistJSON.mk (PlaylistJSON.ID p) (PlaylistJSON.Name p)
                  (PlaylistJSON.Songs p ++ [last])).
Proof.
  intros Hr r Hok.
  destruct (deleteSong_outcome σ c songID playlistID Hr)
    as [[_ [k Hk]]|(u & i & p & j & s & Hu & Hp & ? & Hs & ? & Hlen & ? & ? & E & Hu' & ?)].
  { fold r in Hk. by rewrite Hok in Hk. }
  fold r in E, Hu'. rewrite Hok in E. injection E as ->.
  pose proof (lookup_lt_Some _ _ _ Hp) as Hi.
  assert (∃ x, drop (length (PlaylistJSON.Songs p) - 1) (PlaylistJSON.Songs p) = [x])
    as [x ->].
  { destruct (PlaylistJSON.Songs p) as [|y l] using rev_ind; [simpl in Hlen; lia|].
    exists y. rewrite length_app. simpl.
    replace (length l + 1 - 1) with (length l) by lia.
    by rewrite drop_app_length. }
  eexists _, i, _, x. split_and!; [exact Hu'| | |].
  - simpl. by apply list_lookup_insert_eq.
  - done.
  - done.
Qed.

(** X4 (addSongToPlaylist, every success).  Whenever addSongToPlaylist in a
    reachable state is answered with a song, the body decoded, the user
    exists, and the store changed in exactly one place: the first playlist
    of that user with the given identifier has the answered song appended at
    its end.  The user's other playlists and fields and all other users are
    as before. *)
Theorem addSong_success_appends_one_song σ c playlistID body answer :
  reachable σ →
  let r := addSongToPlaylist c playlistID body σ in
  r.1 = Encode answer →
  ∃ newSong u i p,
    body = Some newSong
    ∧ profile σ c = Some u
    ∧ UserJSON.Playlists u !! i = Some p
    ∧ PlaylistJSON.ID p = playlistID
    ∧ (∀ k q, k < i → UserJSON.Playlists u !! k = Some q →
              PlaylistJSON.ID q ≠ playlistID)
    ∧ answer = SongBody (Song.set_ID (nextID σ 0) newSong)
    ∧ profile r.2 c
      = Some (UserJSON.mk (UserJSON.ID u) (UserJSON.SecretCode u) (UserJSON.Name u)
                (UserJSON.Email u)
                (<[i := PlaylistJSON.mk (PlaylistJSON.ID p) (PlaylistJSON.Name p)
                          (PlaylistJSON.Songs p ++ [Song.set_ID (nextID σ 0) newSong])]>
                   (UserJSON.Playlists u)))
    ∧ ∀ c2, c2 ≠ c → profile r.2 c2 = profile σ c2.
Proof.
  intros Hr r Hok.
  destruct (addSong_outcome σ c playlistID body Hr)
    as [[_ [k Hk]]|(newSong & u & i & p & ? & ? & ? & ? & ? & E & ? & ?)].
  { fold r in Hk. by rewrite Hok in Hk. }
  fold r in E. rewrite Hok in E. injection E as ->.
  by exists newSong, u, i, p.
Qed.

(** X9 (registerHandler, then loginHandler).  In every state, logging in
    with the secret code a registration has just answered returns the same
    user document as the registration did, and leaves the state as the
    registration left it. *)
Theorem register_then_login σ j :
  let r := registerHandler (Some j) σ in
  loginHandler (UserJSON.SecretCode (registered σ j)) r.2 = (r.1, r.2).
Proof.
  intros r. subst r. destruct (registerHandler_spec j σ) as (σ' & E & Hp & _).
  rewrite E. simpl. apply profile_Some in Hp as (user & Hu & Heq).
  unfold loginHandler. rewrite Hu. by rewrite Heq.
Qed.

(** X10 (registerHandler, the store afterwards).  In every reachable state
    a registration whose body does not decode is answered 400 "Invalid
    request body" and changes nothing; one with a well-formed body writes
    the user it answers with under the generated secret code and changes no
    other entry of the store.  The handler does not test whether the secret
    code is in use: a user already stored under it is replaced. *)
Theorem register_replaces_one_key σ body :
  reachable σ →
  let r := registerHandler body σ in
  match body with
  | None => r = (sendError "Invalid request body" StatusBadRequest, σ)
  | Some j =>
    r.1 = Encode (UserBody (registered σ j))
    ∧ ∀ c, profile r.2 c
           = if decide (c = nextID σ 1) then Some (registered σ j) else profile σ c
  end.
Proof.
  intros Hr r. destruct body as [j|]; [|done]. split.
  - destruct (registerHandler_spec j σ) as (σ' & E & _). subst r. by rewrite E.
  - intros c. by apply register_profiles.
Qed.

(** X11 (all handlers, the non-empty rule).  From start-up, after any
    sequence of requests in which no registration body carries a playlist
    without songs, every playlist of every stored user holds at least one
    song. *)
Theorem playlists_stay_nonEmpty seed rs :
  (∀ j, R_register (Some j) ∈ rs → Forall holdsSongs (UserJSON.Playlists j)) →
  playlistsNonEmpty (run rs (initState seed)).
Proof.
  intros Hrs. apply nonEmpty_run; [apply reachable_init| |done].
  intros c u p Hu. done.
Qed.

(** X12 (the users map).  In every reachable state the user stored under a
    key carries that key as its SecretCode, so logging in with the
    SecretCode shown in a stored user document returns that document. *)
Theorem secretCode_is_the_key σ c u :
  reachable σ →
  profile σ c = Some u →
  UserJSON.SecretCode u = c
  ∧ loginHandler (UserJSON.SecretCode u) σ = (Encode (UserBody u), σ).
Proof.
  intros Hr Hu. pose proof (reachable_keys σ Hr c u Hu) as ->. split; [done|].
  apply profile_Some in Hu as (user & Hu & ->). unfold loginHandler. by rewrite Hu.
Qed.

(** X13 (all handlers but registerHandler).  Serving, in a reachable state,
    any request other than a registration with a well-formed body adds no
    user and removes no user, and leaves the ID, SecretCode, Name and Email
    of every stored user as they were: only playlists change. *)
Theorem only_register_changes_users r σ c :
  reachable σ →
  (∀ j, r ≠ R_register (Some j)) →
  match profile σ c, profile (serve r σ).2 c with
  | Some u, Some u' =>
    UserJSON.ID u' = UserJSON.ID u ∧ UserJSON.SecretCode u' = UserJSON.SecretCode u
    ∧ UserJSON.Name u' = UserJSON.Name u ∧ UserJSON.Email u' = UserJSON.Email u
  | None, None => True
  | _, _ => False
  end.
Proof.
  intros Hr Hreg.
  destruct (serve_rewrites_one_user r σ Hr Hreg) as [E|(c0 & u0 & ps & Hu0 & Hp & Hf)].
  - rewrite E. by destruct (profile σ c).
  - destruct (decide (c = c0)) as [->|Hc].
    + by rewrite Hu0, Hp.
    + rewrite Hf by done. by destruct (profile σ c).
Qed.

End successes.

(** ** Requests in sequence *)

Section compose_lemmas.
Context `{GoRuntime}.

Lemma getSongDetail_profile σ c sid u :
  profile σ c = Some u →
  getSongDetail c sid σ
  = (match list_find (λ s, Song.ID s = sid) (allSongs u) with
     | Some (_, song) => Encode (SongBody song)
     | None => sendError "Invalid song ID" StatusNotFound
     end, σ).
Proof.
  intros (user & Hu & ->)%profile_Some. unfold getSongDetail, allSongs.
  rewrite Hu, getSongRange_find. simpl.
  by destruct (list_find _ _) as [[k song]|].
Qed.

Lemma allSongs_insert u i p p' :
  UserJSON.Playlists u !! i = Some p →
  allSongs (UserJSON.mk (UserJSON.ID u) (UserJSON.SecretCode u) (UserJSON.Name u)
              (UserJSON.Email u) (<[i := p']> (UserJSON.Playlists u)))
  = mjoin (PlaylistJSON.Songs <$> take i (UserJSON.Playlists u))
    ++ PlaylistJSON.Songs p'
    ++ mjoin (PlaylistJSON.Songs <$> drop (S i) (UserJSON.Playlists u))
  ∧ allSongs u
    = mjoin (PlaylistJSON.Songs <$> take i (UserJSON.Playlists u))
      ++ PlaylistJSON.Songs p
      ++ mjoin (PlaylistJSON.Songs <$> drop (S i) (UserJSON.Playlists u)).
Proof.
  intros Hp. unfold allSongs. simpl. split.
  - rewrite insert_take_drop by (by eapply lookup_lt_Some).
    by rewrite fmap_app, join_app, fmap_cons.
  - rewrite <- (take_drop_middle _ i p Hp) at 1.
    by rewrite fmap_app, join_app, fmap_cons.
Qed.

End compose_lemmas.

Section compositions.
Context `{GoRuntime}.

(** X14 (addSongToPlaylist, then getSongDetail).  After a successful
    addition in a reachable state, getSongDetail with the same secret code
    and the identifier of the answered song finds a song with that
    identifier, and the state stays as the addition left it.  When none of
    the user's songs carried that identifier before, the song found is the
    one the addition answered with. *)
Theorem addSong_then_getSongDetail σ c playlistID body answer :
  reachable σ →
  let r := addSongToPlaylist c playlistID body σ in
  r.1 = Encode answer →
  ∃ u found,
    profile σ c = Some u
    ∧ getSongDetail c (nextID σ 0) r.2 = (Encode (SongBody found), r.2)
    ∧ Song.ID found = nextID σ 0
    ∧ (Forall (λ s, Song.ID s ≠ nextID σ 0) (allSongs u) → answer = SongBody found).
Proof.
  intros Hr r Hok.
  destruct (addSong_outcome σ c playlistID body Hr)
    as [[_ [k Hk]]|(newSong & u & i & p & -> & Hu & Hp & Hid & _ & E & Hu' & _)].
  { fold r in Hk. by rewrite Hok in Hk. }
  fold r in E, Hu'. rewrite Hok in E. injection E as ->.
  rewrite (getSongDetail_profile _ _ _ _ Hu').
  destruct (allSongs_insert u i p
              (PlaylistJSON.mk (PlaylistJSON.ID p) (PlaylistJSON.Name p)
                 (PlaylistJSON.Songs p ++ [Song.set_ID (nextID σ 0) newSong])) Hp)
    as [-> Hold]. simpl.
  set (new := Song.set_ID (nextID σ 0) newSong).
  set (l := _ ++ _ ++ _).
  assert (new ∈ l) as Hin
    by (subst l; rewrite !elem_of_app, list_elem_of_singleton; auto).
  destruct (list_find_elem_of (λ s, Song.ID s = nextID σ 0) l new Hin)
    as [[n found] Hfind]; [done|].
  rewrite Hfind. apply list_find_Some in Hfind as (Hn & Hfid & _).
  exists u, found. split_and!; try done.
  intros Hnone. f_equal. apply list_elem_of_lookup_2 in Hn.
  rewrite Hold in Hnone. rewrite !Forall_app in Hnone.
  destruct Hnone as (Hpre & Hmid & Hpost). rewrite Forall_forall in Hpre, Hmid, Hpost.
  subst l. rewrite !elem_of_app, list_elem_of_singleton in Hn.
  destruct Hn as [Hn|[[Hn|Hn]|Hn]]; [by destruct (Hpre _ Hn)|by destruct (Hmid _ Hn)
                                    |done|by destruct (Hpost _ Hn)].
Qed.

(** X15 (createPlaylist, then deletePlaylist).  In a reachable state, when
    none of the user's playlists carries the identifier the generator gives
    next, creating a playlist and then deleting the playlist with the new
    identifier answers with the user as stored before the two calls, and
    every stored user document is as before. *)
Theorem createPlaylist_then_deletePlaylist σ c name u :
  reachable σ →
  profile σ c = Some u →
  Forall (λ p, PlaylistJSON.ID p ≠ nextID σ 0) (UserJSON.Playlists u) →
  let r := deletePlaylist c (nextID σ 0) (createPlaylist c name σ).2 in
  r.1 = Encode (UserBody u) ∧ ∀ c2, profile r.2 c2 = profile σ c2.
Proof.
  intros Hr Hu Hfresh r.
  destruct (createPlaylist_effect σ c name u Hr Hu) as (_ & Hu1 & Hf1).
  cbv zeta in Hu1, Hf1.
  assert (reachable (createPlaylist c name σ).2) as Hr1
    by apply (reachable_serve (R_createPlaylist c name) σ Hr).
  destruct (deletePlaylist_at _ c (nextID σ 0) _ (length (UserJSON.Playlists u))
              (PlaylistJSON.mk (nextID σ 0) name [defaultSong (nextID σ 1)])
              Hr1 Hu1) as (E & Hu2 & Hf2).
  - simpl. by rewrite lookup_app_r, Nat.sub_diag.
  - done.
  - simpl. intros k q Hk Hq. rewrite lookup_app_l in Hq by done.
    by eapply Forall_lookup_1 in Hfresh.
  - cbv zeta in E, Hu2, Hf2. simpl in E, Hu2.
    assert (delete (length (UserJSON.Playlists u))
              (UserJSON.Playlists u
               ++ [PlaylistJSON.mk (nextID σ 0) name [defaultSong (nextID σ 1)]])
            = UserJSON.Playlists u) as Hdel.
    { rewrite delete_take_drop, take_app_length.
      rewrite drop_ge by (rewrite length_app; simpl; lia). apply app_nil_r. }
    rewrite Hdel, user_eta in E, Hu2. split; [done|].
    intros c2. destruct (decide (c2 = c)) as [->|Hc].
    + by rewrite Hu.
    + subst r. rewrite Hf2 by done. by apply Hf1.
Qed.

(** X16 (addSongToPlaylist, then deleteSongFromPlaylist).  In a reachable
    state, take the first playlist of a user with the given identifier; when
    it holds a song and none of its songs carries the identifier the
    generator gives next, adding a song and then removing the song with the
    new identifier leaves every stored user document as before.  The answer
    of the removal still lists the removed song at the end of the
    playlist. *)
Theorem addSong_then_removeSong σ c playlistID newSong u i p :
  reachable σ →
  profile σ c = Some u →
  UserJSON.Playlists u !! i = Some p →
  PlaylistJSON.ID p = playlistID →
  (∀ k q, k < i → UserJSON.Playlists u !! k = Some q →
          PlaylistJSON.ID q ≠ playlistID) →
  PlaylistJSON.Songs p ≠ [] →
  Forall (λ s, Song.ID s ≠ nextID σ 0) (PlaylistJSON.Songs p) →
  let added := Song.set_ID (nextID σ 0) newSong in
  let r := deleteSongFromPlaylist c (nextID σ 0) playlistID
             (addSongToPlaylist c playlistID (Some newSong) σ).2 in
  r.1 = Encode (PlaylistBody
          (PlaylistJSON.mk (PlaylistJSON.ID p) (PlaylistJSON.Name p)
             (PlaylistJSON.Songs p ++ [added])))
  ∧ ∀ c2, profile r.2 c2 = profile σ c2.
Proof.
  intros Hr Hu Hp Hid Hfirst Hne Hfresh added r.
  destruct (addSong_effect σ c playlistID newSong u i p Hr Hu Hp Hid Hfirst)
    as (_ & Hu1 & Hf1). cbv zeta in Hu1, Hf1. fold added in Hu1.
  assert (reachable (addSongToPlaylist c playlistID (Some newSong) σ).2) as Hr1
    by apply (reachable_serve (R_addSongToPlaylist c playlistID (Some newSong)) σ Hr).
  pose proof (lookup_lt_Some _ _ _ Hp) as Hi.
  assert (0 < length (PlaylistJSON.Songs p)) as Hlen
    by (destruct (PlaylistJSON.Songs p); [done|simpl; lia]).
  destruct (deleteSong_effect _ c (nextID σ 0) playlistID _ i
              (PlaylistJSON.mk (PlaylistJSON.ID p) (PlaylistJSON.Name p)
                 (PlaylistJSON.Songs p ++ [added]))
              (length (PlaylistJSON.Songs p)) added Hr1 Hu1)
    as (E & Hu2 & Hf2).
  - simpl. by apply list_lookup_insert_eq.
  - done.
  - simpl. rewrite length_app. simpl. lia.
  - simpl. by rewrite lookup_app_r, Nat.sub_diag.
  - done.
  - simpl. intros j' s' Hj' Hs'. rewrite lookup_app_l in Hs' by done.
    by eapply Forall_lookup_1 in Hfresh.
  - simpl. intros k q Hk Hq Hqid.
    rewrite list_lookup_insert_ne in Hq by lia. by destruct (Hfirst k q).
  - cbv zeta in E, Hu2, Hf2.
    cbn [PlaylistJSON.Songs PlaylistJSON.ID PlaylistJSON.Name UserJSON.ID
         UserJSON.SecretCode UserJSON.Name UserJSON.Email UserJSON.Playlists]
      in E, Hu2.
    assert (delete (length (PlaylistJSON.Songs p)) (PlaylistJSON.Songs p ++ [added])
            = PlaylistJSON.Songs p) as Hdel.
    { rewrite delete_take_drop, take_app_length.
      rewrite drop_ge by (rewrite length_app; simpl; lia). apply app_nil_r. }
    rewrite Hdel in E, Hu2. split.
    + subst r. rewrite E. do 3 f_equal. rewrite length_app. simpl.
      replace (length (PlaylistJSON.Songs p) + 1 - 1)
        with (length (PlaylistJSON.Songs p)) by lia.
      by rewrite drop_app_length.
    + intros c2. destruct (decide (c2 = c)) as [->|Hc].
      * subst r. rewrite Hu2, Hu. f_equal. rewrite list_insert_insert_eq.
        destruct p as [pid0 pname psongs]. simpl.
        rewrite list_insert_id by done. apply user_eta.
      * subst r. rewrite Hf2 by done. by apply Hf1.
Qed.

End compositions.

(** ** How many identifiers a handler draws *)

Section source_lemmas.
Context `{GoRuntime}.

Lemma advanced_0 σ : advanced 0 σ σ.
Proof. unfold advanced. by destruct (randSrc σ). Qed.

Lemma registerHandler_randSrc j σ : advanced 4 σ (registerHandler (Some j) σ).2.
Proof.
  unfold registerHandler, decodeUser, defaultSongs, appendPlaylist, advanced.
  destruct σ as [us pl [st dr] smem pmem]. simpl. by split_pairs.
Qed.

Lemma createPlaylist_randSrc c name σ :
  is_Some (users σ !! c) → advanced 2 σ (createPlaylist c name σ).2.
Proof.
  intros [user Hu]. unfold createPlaylist, defaultSongs, appendPlaylist, advanced.
  rewrite Hu. destruct σ as [us pl [st dr] smem pmem]. simpl. by split_pairs.
Qed.

Lemma addSongRange_randSrc c pid song user σ pls : ∀ i,
  let r := addSongRange c pid song user σ i pls in
  match r.1 with Encode _ => advanced 1 σ r.2 | sendError _ _ => r.2 = σ end.
Proof.
  induction pls as [|pl pls IH]; intros i; simpl; [done|].
  case_decide; [|apply IH]. unfold advanced.
  destruct σ as [us pl0 [st dr] smem pmem]. simpl. by split_pairs.
Qed.

Lemma deleteSongRange_randSrc c sid pid user σ pls : ∀ i,
  randSrc (deleteSongRange c sid pid user σ i pls).2 = randSrc σ.
Proof.
  induction pls as [|pl pls IH]; intros i; simpl; [done|].
  repeat case_decide; try done; try apply IH.
  destruct (songIndex _ _ _); [|apply IH]. by split_pairs.
Qed.

Lemma deletePlaylistRange_randSrc c pid user σ pls : ∀ i,
  randSrc (deletePlaylistRange c pid user σ i pls).2 = randSrc σ.
Proof.
  induction pls as [|pl pls IH]; intros i; simpl; [done|].
  case_decide; [|apply IH]. by split_pairs.
Qed.

End source_lemmas.

(** ** Where the identifiers in the store come from *)

Section generated.
Context `{GoRuntime}.

Lemma identifiers_elem u id :
  id ∈ identifiers u ↔
  id = UserJSON.ID u ∨ id = UserJSON.SecretCode u
  ∨ ∃ p, p ∈ UserJSON.Playlists u
         ∧ (id = PlaylistJSON.ID p ∨ ∃ s, s ∈ PlaylistJSON.Songs p ∧ id = Song.ID s).
Proof.
  unfold identifiers. rewrite !elem_of_cons, list_elem_of_join.
  do 2 apply or_iff_compat_l. split.
  - intros (l & Hid & (p & -> & Hp)%list_elem_of_fmap). exists p. split; [done|].
    apply elem_of_cons in Hid as [->|(s & -> & Hs)%list_elem_of_fmap]; [by left|].
    right. by exists s.
  - intros (p & Hp & Hid). eexists. split; [|by apply list_elem_of_fmap_2].
    apply elem_of_cons. destruct Hid as [->|(s & Hs & ->)]; [by left|right].
    by apply list_elem_of_fmap_2.
Qed.

Lemma drawnID_advanced n σ σ' id : advanced n σ σ' → drawnID σ id → drawnID σ' id.
Proof.
  unfold advanced, drawnID. intros -> (k & Hk & ->). exists k. simpl.
  split; [lia|done].
Qed.

Lemma drawnID_nextID n σ σ' k : advanced n σ σ' → k < n → drawnID σ' (nextID σ k).
Proof.
  unfold advanced, drawnID, nextID. intros -> Hk.
  exists (k + drawn (randSrc σ)). simpl. split; [lia|done].
Qed.

Lemma generatedOnly_rewrite σ σ' n c u ps :
  generatedOnly σ →
  advanced n σ σ' →
  profile σ c = Some u →
  profile σ' c
  = Some (UserJSON.mk (UserJSON.ID u) (UserJSON.SecretCode u) (UserJSON.Name u)
            (UserJSON.Email u) ps) →
  (∀ c2, c2 ≠ c → profile σ' c2 = profile σ c2) →
  (∀ id, id ∈ identifiers (UserJSON.mk (UserJSON.ID u) (UserJSON.SecretCode u)
                             (UserJSON.Name u) (UserJSON.Email u) ps) →
         id ∈ identifiers u ∨ ∃ k, k < n ∧ id = nextID σ k) →
  generatedOnly σ'.
Proof.
  intros Hg Hadv Hu Hu' Hframe Hids c2 u2 id Hu2 Hid.
  destruct (decide (c2 = c)) as [->|Hc].
  - rewrite Hu' in Hu2. injection Hu2 as <-.
    destruct (Hids id Hid) as [Hold|(k & Hk & ->)].
    + eapply drawnID_advanced; [done|]. by eapply Hg.
    + by eapply drawnID_nextID.
  - rewrite Hframe in Hu2 by done.
    eapply drawnID_advanced; [done|]. by eapply Hg.
Qed.

Lemma identifiers_insert u i p songs id :
  UserJSON.Playlists u !! i = Some p →
  id ∈ identifiers (UserJSON.mk (UserJSON.ID u) (UserJSON.SecretCode u)
                      (UserJSON.Name u) (UserJSON.Email u)
                      (<[i := PlaylistJSON.mk (PlaylistJSON.ID p) (PlaylistJSON.Name p)
                                songs]> (UserJSON.Playlists u))) →
  id ∈ identifiers u ∨ ∃ s, s ∈ songs ∧ id = Song.ID s.
Proof.
  intros Hp. rewrite !identifiers_elem. simpl.
  intros [->|[->|(q & Hq & Hid)]]; [by left; left|by left; right; left|].
  apply list_elem_of_lookup in Hq as [k Hq].
  apply list_lookup_insert_Some in Hq as [(-> & <- & _)|[_ Hq]].
  - simpl in Hid. destruct Hid as [->|Hs]; [|by right].
    left. right. right. exists p. split; [by eapply list_elem_of_lookup_2|by left].
  - left. right. right. exists q. split; [by eapply list_elem_of_lookup_2|done].
Qed.

Lemma identifiers_app u new id :
  id ∈ identifiers (UserJSON.mk (UserJSON.ID u) (UserJSON.SecretCode u)
                      (UserJSON.Name u) (UserJSON.Email u)
                      (UserJSON.Playlists u ++ [new])) →
  id ∈ identifiers u ∨ id = PlaylistJSON.ID new
  ∨ ∃ s, s ∈ PlaylistJSON.Songs new ∧ id = Song.ID s.
Proof.
  rewrite !identifiers_elem. simpl.
  intros [->|[->|(q & Hq & Hid)]]; [by left; left|by left; right; left|].
  apply elem_of_app in Hq as [Hq|Hq%list_elem_of_singleton].
  - left. right. right. by exists q.
  - subst q. by right.
Qed.

Lemma identifiers_delete u i id :
  id ∈ identifiers (UserJSON.mk (UserJSON.ID u) (UserJSON.SecretCode u)
                      (UserJSON.Name u) (UserJSON.Email u)
                      (delete i (UserJSON.Playlists u))) →
  id ∈ identifiers u.
Proof.
  rewrite !identifiers_elem. simpl.
  intros [->|[->|(q & Hq & Hid)]]; [by left|by right; left|].
  right. right. exists q. split; [by eapply elem_of_delete|done].
Qed.

Lemma generatedOnly_serve r σ :
  reachable σ →
  generatedOnly σ →
  (∀ j, r = R_register (Some j) → UserJSON.Playlists j = []) →
  generatedOnly (serve r σ).2.
Proof.
  intros Hr Hg Hreg.
  destruct r as [c|[j|]|c|c n|c s p|c p b|c p|c s]; unfold serve.
  - unfold loginHandler. by destruct (users σ !! c).
  - intros c u id Hu Hid. rewrite register_profiles in Hu by done.
    pose proof (registerHandler_randSrc j σ) as Hadv.
    case_decide.
    + injection Hu as <-. unfold identifiers, registered in Hid.
      rewrite (Hreg j eq_refl) in Hid. simpl in Hid.
      rewrite !elem_of_cons in Hid.
      destruct Hid as [->|[->|[->|[->|Hid]]]].
      * eapply drawnID_nextID; [done|lia].
      * eapply drawnID_nextID; [done|lia].
      * eapply drawnID_nextID; [done|lia].
      * eapply drawnID_nextID; [done|lia].
      * by apply elem_of_nil in Hid.
    + eapply drawnID_advanced; [done|]. by eapply Hg.
  - done.
  - unfold viewProfile. by destruct (users σ !! c).
  - destruct (profile σ c) as [u|] eqn:Hu.
    + destruct (createPlaylist_effect σ c n u Hr Hu) as (_ & Hu' & Hf).
      eapply (generatedOnly_rewrite σ _ 2 c u); [done| |done|exact Hu'|exact Hf|].
      * apply createPlaylist_randSrc. unfold profile in Hu.
        by destruct (users σ !! c).
      * intros id [Hid|[->|(s0 & Hs & ->)]]%identifiers_app; [by left|..].
        -- right. exists 0. split; [lia|done].
        -- right. exists 1. split; [lia|].
           simpl in Hs. by apply list_elem_of_singleton in Hs as ->.
    + unfold createPlaylist, profile in *. by destruct (users σ !! c).
  - destruct (deleteSong_outcome σ c s p Hr)
      as [[E _]|(u & i & q & j & s' & Hu & Hq & _ & _ & _ & _ & _ & _ & _ & Hu' & Hf)].
    + by rewrite E.
    + eapply (generatedOnly_rewrite σ _ 0 c u); [done| |done|exact Hu'|exact Hf|].
      * assert (randSrc (deleteSongFromPlaylist c s p σ).2 = randSrc σ) as E.
        { unfold deleteSongFromPlaylist.
          destruct (users σ !! c); [apply deleteSongRange_randSrc|done]. }
        unfold advanced. rewrite E. by destruct (randSrc σ).
      * intros id [Hid|(s0 & Hs & ->)]%identifiers_insert; [by left|left|done].
        apply identifiers_elem. right. right. exists q.
        split; [by eapply list_elem_of_lookup_2|]. right. exists s0.
        split; [by eapply elem_of_delete|done].
  - destruct (addSong_outcome σ c p b Hr)
      as [[E _]|(s' & u & i & q & -> & Hu & Hq & _ & _ & E & Hu' & Hf)].
    + by rewrite E.
    + eapply (generatedOnly_rewrite σ _ 1 c u); [done| |done|exact Hu'|exact Hf|].
      * unfold addSongToPlaylist in E |- *.
        destruct (users σ !! c) as [user|]; [|done].
        pose proof (addSongRange_randSrc c p s' user σ
                      (readSlice (playlistMem σ) (User.Playlists user)) 0) as Hadv.
        cbv zeta in Hadv. by rewrite E in Hadv.
      * intros id [Hid|(s0 & Hs & ->)]%identifiers_insert; [by left| |done].
        apply elem_of_app in Hs as [Hs|Hs%list_elem_of_singleton].
        -- left. apply identifiers_elem. right. right. exists q.
           split; [by eapply list_elem_of_lookup_2|]. right. by exists s0.
        -- subst s0. right. exists 0. split; [lia|]. by destruct s'.
  - destruct (deletePlaylist_outcome σ c p Hr)
      as [[E _]|(u & i & q & Hu & _ & _ & _ & _ & Hu' & Hf)].
    + by rewrite E.
    + eapply (generatedOnly_rewrite σ _ 0 c u); [done| |done|exact Hu'|exact Hf|].
      * assert (randSrc (deletePlaylist c p σ).2 = randSrc σ) as E.
        { unfold deletePlaylist.
          destruct (users σ !! c); [apply deletePlaylistRange_randSrc|done]. }
        unfold advanced. rewrite E. by destruct (randSrc σ).
      * intros id Hid%identifiers_delete. by left.
  - unfold getSongDetail. destruct (users σ !! c); [|done].
    by destruct (getSongRange _ _ _).
Qed.

Lemma generatedOnly_run rs : ∀ σ,
  reachable σ →
  generatedOnly σ →
  (∀ j, R_register (Some j) ∈ rs → UserJSON.Playlists j = []) →
  generatedOnly (run rs σ).
Proof.
  induction rs as [|r rs IH]; intros σ Hr Hg Hrs; [done|].
  simpl. apply IH.
  - by apply reachable_serve.
  - apply generatedOnly_serve; [done|done|]. intros j ->. apply Hrs. by left.
  - intros j Hj. apply Hrs. by right.
Qed.

End generated.

(** ** The format of an identifier *)

Section identifiers_format.

Lemma to_int_nonnil (v : Z) :
  Z.to_int v ≠ Decimal.Pos Decimal.Nil ∧ Z.to_int v ≠ Decimal.Neg Decimal.Nil.
Proof.
  destruct v as [|p|p]; simpl; split; try discriminate;
    intros [= E]; by apply DecimalPos.Unsigned.to_uint_nonnil in E.
Qed.

Lemma Sprintf_d_parse (v : Z) :
  NilZero.int_of_string (Sprintf_d v) = Some (Z.to_int v).
Proof. unfold Sprintf_d. apply NilZero.isi; apply to_int_nonnil. Qed.

Lemma Sprintf_d_inj (v w : Z) : Sprintf_d v = Sprintf_d w → v = w.
Proof.
  intros E. apply (f_equal NilZero.int_of_string) in E.
  rewrite !Sprintf_d_parse in E. injection E as E.
  by apply DecimalZ.to_int_inj.
Qed.

End identifiers_format.

Section freshness.
Context `{GoRuntime}.

(** X17 (generateID, new identifiers).  From start-up, after any sequence
    of requests in which no registration body carries playlists, every
    identifier in the store was given out by generateID; so an identifier
    the generator gives later differs from all identifiers of every stored
    user whenever the number the source returns for it differs from the
    numbers the source has returned so far. *)
Theorem next_identifier_is_new seed rs n c u :
  (∀ j, R_register (Some j) ∈ rs → UserJSON.Playlists j = []) →
  let σ := run rs (initState seed) in
  (∀ k, k < drawn (randSrc σ) →
        Z.land (stream (randSrc σ) k) (Z.ones 63)
        ≠ Z.land (stream (randSrc σ) (n + drawn (randSrc σ))) (Z.ones 63)) →
  profile σ c = Some u →
  nextID σ n ∉ identifiers u.
Proof.
  intros Hrs σ Hnew Hu Hin.
  assert (generatedOnly σ) as Hg.
  { apply generatedOnly_run; [apply reachable_init| |done]. by intros c0 u0 id0 Hu0. }
  destruct (Hg c u _ Hu Hin) as (k & Hk & E).
  apply (Hnew k Hk). unfold nextID in E. by apply Sprintf_d_inj in E.
Qed.

(** X19 (generateID).  The identifier generateID returns is the decimal
    numeral of the number the source returns, a number from 0 up to
    2^63 - 1: it parses back to that number, and two calls return the same
    identifier exactly when the source returned the same number. *)
Theorem generateID_decimal σ1 σ2 :
  let v1 := (Int63 (randSrc σ1)).1 in
  let v2 := (Int63 (randSrc σ2)).1 in
  (0 ≤ v1 < 2 ^ 63)%Z
  ∧ Z.of_int <$> NilZero.int_of_string (generateID σ1).1 = Some v1
  ∧ ((generateID σ1).1 = (generateID σ2).1 ↔ v1 = v2).
Proof.
  intros v1 v2. split; [|split].
  - unfold v1, Int63. simpl. rewrite Z.land_ones by lia. apply Z.mod_pos_bound. lia.
  - change (generateID σ1).1 with (Sprintf_d v1).
    rewrite Sprintf_d_parse. simpl. by rewrite DecimalZ.of_to.
  - change (generateID σ1).1 with (Sprintf_d v1).
    change (generateID σ2).1 with (Sprintf_d v2).
    split; [apply Sprintf_d_inj|by intros ->].
Qed.

End freshness.

Section secret_codes.
Context `{GoRuntime}.

Lemma Sprintf_d_nonempty v : Sprintf_d v ≠ "".
Proof.
  intros E. pose proof (Sprintf_d_parse v) as Hp. rewrite E in Hp.
  discriminate Hp.
Qed.

Lemma serve_advanced r σ : ∃ n, advanced n σ (serve r σ).2.
Proof.
  destruct r as [c|[j|]|c|c n|c s p|c p b|c p|c s]; unfold serve.
  - exists 0. unfold loginHandler. destruct (users σ !! c); apply advanced_0.
  - exists 4. apply registerHandler_randSrc.
  - exists 0. apply advanced_0.
  - exists 0. unfold viewProfile. destruct (users σ !! c); apply advanced_0.
  - destruct (users σ !! c) as [user|] eqn:Hu.
    + exists 2. by apply createPlaylist_randSrc.
    + exists 0. unfold createPlaylist. rewrite Hu. apply advanced_0.
  - exists 0. unfold advanced.
    assert (randSrc (deleteSongFromPlaylist c s p σ).2 = randSrc σ) as ->.
    { unfold deleteSongFromPlaylist.
      destruct (users σ !! c); [apply deleteSongRange_randSrc|done]. }
    by destruct (randSrc σ).
  - unfold addSongToPlaylist. destruct b as [newSong|]; [|exists 0; apply advanced_0].
    destruct (users σ !! c) as [user|]; [|exists 0; apply advanced_0].
    pose proof (addSongRange_randSrc c p newSong user σ
                  (readSlice (playlistMem σ) (User.Playlists user)) 0) as Hadv.
    cbv zeta in Hadv.
    destruct (addSongRange c p newSong user σ 0 _) as [[body|msg code] σ'];
      simpl in *.
    + by exists 1.
    + subst σ'. exists 0. apply advanced_0.
  - exists 0. unfold advanced.
    assert (randSrc (deletePlaylist c p σ).2 = randSrc σ) as ->.
    { unfold deletePlaylist.
      destruct (users σ !! c); [apply deletePlaylistRange_randSrc|done]. }
    by destruct (randSrc σ).
  - exists 0. unfold getSongDetail. destruct (users σ !! c); [|apply advanced_0].
    destruct (getSongRange _ _ _); apply advanced_0.
Qed.

Lemma drawnID_range σ c :
  drawnID σ c → ∃ v, (0 ≤ v < 2 ^ 63)%Z ∧ c = Sprintf_d v.
Proof.
  intros (k & _ & ->). eexists. split; [|done].
  rewrite Z.land_ones by lia. apply Z.mod_pos_bound. lia.
Qed.

(** The keys of the users map are identifiers [generateID] has given out. *)
Lemma reachable_drawn_keys σ :
  reachable σ → ∀ c u, profile σ c = Some u → drawnID σ c.
Proof.
  induction 1 as [seed|r σ Hr IH]; intros c u Hu; [done|].
  destruct (serve_advanced r σ) as [n Hadv].
  assert ((∃ j, r = R_register (Some j)) ∨ ∀ j, r ≠ R_register (Some j))
    as [[j ->]|Hreg] by (destruct r as [?|[?|]|?|? ?|? ? ?|? ? ?|? ?|? ?]; eauto).
  - unfold serve in Hu. rewrite register_profiles in Hu by done.
    case_decide as Hc.
    + subst c. eapply drawnID_nextID; [apply registerHandler_randSrc|lia].
    + eapply drawnID_advanced; [exact Hadv|]. by eapply IH.
  - eapply drawnID_advanced; [exact Hadv|].
    destruct (serve_rewrites_one_user r σ Hr Hreg)
      as [E|(c0 & u0 & ps & Hu0 & Hp & Hf)].
    + rewrite E in Hu. by eapply IH.
    + destruct (decide (c = c0)) as [->|Hc]; [by eapply IH|].
      rewrite Hf in Hu by done. by eapply IH.
Qed.

(** X18 (the users map, its keys).  In every reachable state a secret code
    under which a user is stored is an identifier generateID has produced:
    the decimal numeral of one of the numbers the source has returned so
    far.  It is therefore a non-empty decimal numeral of a number from 0 up
    to 2^63 - 1: a request with an empty secret code never matches a
    user. *)
Theorem accepted_secretCode_is_generated σ c u :
  reachable σ →
  profile σ c = Some u →
  c ≠ "" ∧ drawnID σ c ∧ ∃ v, (0 ≤ v < 2 ^ 63)%Z ∧ c = Sprintf_d v.
Proof.
  intros Hr Hu. pose proof (reachable_drawn_keys σ Hr c u Hu) as Hd.
  destruct (drawnID_range σ c Hd) as (v & Hv & ->).
  split_and!; [apply Sprintf_d_nonempty|done|by exists v].
Qed.

End secret_codes.

(** ** The further properties on the example runs *)

Section further_runs.
#[local] Existing Instance doubling.

Lemma createPlaylist_appends_playlist_witness :
  let r := createPlaylist "1001" "Mix" oneSong in
  r.1 = Encode (PlaylistBody (PlaylistJSON.mk "1004" "Mix" [defaultSong "1005"]))
  ∧ profile r.2 "1001"
    = Some (UserJSON.mk "1000" "1001" "Ann" "ann@example.org"
              [PlaylistJSON.mk "1002" "Default" [defaultSong "1003"];
               PlaylistJSON.mk "1004" "Mix" [defaultSong "1005"]])
  ∧ ∀ c2, c2 ≠ "1001" → profile r.2 c2 = profile oneSong c2.
Proof.
  exact (createPlaylist_appends_playlist oneSong "1001" "Mix" reachable_oneSong).
Defined.

Lemma deletePlaylist_removes_first_witness :
  let r := deletePlaylist "1001" "1002" oneSong in
  r.1 = Encode (UserBody (UserJSON.mk "1000" "1001" "Ann" "ann@example.org" []))
  ∧ profile r.2 "1001"
    = Some (UserJSON.mk "1000" "1001" "Ann" "ann@example.org" [])
  ∧ ∀ c2, c2 ≠ "1001" → profile r.2 c2 = profile oneSong c2.
Proof.
  exact (deletePlaylist_removes_first oneSong "1001" "1002" reachable_oneSong).
Defined.

Lemma addSong_success_appends_one_song_witness :
  let r := addSongToPlaylist "1001" "1002" (Some songX) oneSong in
  ∃ newSong u i p,
    Some songX = Some newSong
    ∧ profile oneSong "1001" = Some u
    ∧ UserJSON.Playlists u !! i = Some p
    ∧ PlaylistJSON.ID p = "1002"
    ∧ (∀ k q, k < i → UserJSON.Playlists u !! k = Some q → PlaylistJSON.ID q ≠ "1002")
    ∧ SongBody (Song.set_ID "1004" songX)
      = SongBody (Song.set_ID (nextID oneSong 0) newSong)
    ∧ profile r.2 "1001"
      = Some (UserJSON.mk (UserJSON.ID u) (UserJSON.SecretCode u) (UserJSON.Name u)
                (UserJSON.Email u)
                (<[i := PlaylistJSON.mk (PlaylistJSON.ID p) (PlaylistJSON.Name p)
                          (PlaylistJSON.Songs p
                           ++ [Song.set_ID (nextID oneSong 0) newSong])]>
                   (UserJSON.Playlists u)))
    ∧ ∀ c2, c2 ≠ "1001" → profile r.2 c2 = profile oneSong c2.
Proof.
  apply (addSong_success_appends_one_song oneSong "1001" "1002" (Some songX)
           (SongBody (Song.set_ID "1004" songX)));
    [apply reachable_oneSong|reflexivity].
Defined.

Lemma removeSong_bad_request_iff_witness :
  let r := deleteSongFromPlaylist "1001" "1003" "none" oneSong in
  errorKind r.1 = Some BadRequest ↔
  Forall (λ p, PlaylistJSON.ID p = "none" →
               length (PlaylistJSON.Songs p) ≠ 1
               ∧ Forall (λ s, Song.ID s ≠ "1003") (PlaylistJSON.Songs p))
         [PlaylistJSON.mk "1002" "Default" [defaultSong "1003"]].
Proof.
  exact (removeSong_bad_request_iff oneSong "1001" "1003" "none" reachable_oneSong).
Defined.

Lemma removeSong_success_removes_one_song_witness :
  let r := deleteSongFromPlaylist "1001" "1003" "1002" twoSongs in
  ∃ u i p j s,
    profile twoSongs "1001" = Some u
    ∧ UserJSON.Playlists u !! i = Some p
    ∧ PlaylistJSON.ID p = "1002"
    ∧ PlaylistJSON.Songs p !! j = Some s
    ∧ Song.ID s = "1003"
    ∧ 2 ≤ length (PlaylistJSON.Songs p)
    ∧ (∀ j' s', j' < j → PlaylistJSON.Songs p !! j' = Some s' → Song.ID s' ≠ "1003")
    ∧ (∀ k q, k < i → UserJSON.Playlists u !! k = Some q →
              PlaylistJSON.ID q = "1002" →
              length (PlaylistJSON.Songs q) ≠ 1
              ∧ Forall (λ s, Song.ID s ≠ "1003") (PlaylistJSON.Songs q))
    ∧ profile r.2 "1001"
      = Some (UserJSON.mk (UserJSON.ID u) (UserJSON.SecretCode u) (UserJSON.Name u)
                (UserJSON.Email u)
                (<[i := PlaylistJSON.mk (PlaylistJSON.ID p) (PlaylistJSON.Name p)
                          (delete j (PlaylistJSON.Songs p))]>
                   (UserJSON.Playlists u)))
    ∧ ∀ c2, c2 ≠ "1001" → profile r.2 c2 = profile twoSongs c2.
Proof.
  apply (removeSong_success_removes_one_song twoSongs "1001" "1003" "1002"
           (PlaylistBody (PlaylistJSON.mk "1002" "Default"
              [Song.set_ID "1004" songX; Song.set_ID "1004" songX])));
    [apply reachable_twoSongs|reflexivity].
Defined.

Lemma removeSong_answer_has_extra_song_witness :
  let r := deleteSongFromPlaylist "1001" "1003" "1002" twoSongs in
  ∃ u i p last,
    profile r.2 "1001" = Some u
    ∧ UserJSON.Playlists u !! i = Some p
    ∧ PlaylistJSON.ID p = "1002"
    ∧ PlaylistBody (PlaylistJSON.mk "1002" "Default"
        [Song.set_ID "1004" songX; Song.set_ID "1004" songX])
      = PlaylistBody
          (PlaylistJSON.mk (PlaylistJSON.ID p) (PlaylistJSON.Name p)
             (PlaylistJSON.Songs p ++ [last])).
Proof.
  apply (removeSong_answer_has_extra_song twoSongs "1001" "1003" "1002"
           (PlaylistBody (PlaylistJSON.mk "1002" "Default"
              [Song.set_ID "1004" songX; Song.set_ID "1004" songX])));
    [apply reachable_twoSongs|reflexivity].
Defined.

Lemma register_replaces_one_key_witness :
  let r := registerHandler (Some plainBody) oneSong in
  r.1 = Encode (UserBody (registered oneSong plainBody))
  ∧ ∀ c, profile r.2 c
         = if decide (c = nextID oneSong 1) then Some (registered oneSong plainBody)
           else profile oneSong c.
Proof.
  exact (register_replaces_one_key oneSong (Some plainBody) reachable_oneSong).
Defined.

Lemma playlists_stay_nonEmpty_witness : playlistsNonEmpty oneSong.
Proof.
  apply (playlists_stay_nonEmpty exampleSeed [R_register (Some plainBody)]).
  intros j Hj. apply list_elem_of_singleton in Hj. injection Hj as ->.
  constructor.
Defined.

Lemma secretCode_is_the_key_witness :
  "1001" = "1001"
  ∧ loginHandler "1001" oneSong
    = (Encode (UserBody (UserJSON.mk "1000" "1001" "Ann" "ann@example.org"
                 [PlaylistJSON.mk "1002" "Default" [defaultSong "1003"]])), oneSong).
Proof.
  apply (secretCode_is_the_key oneSong "1001"
           (UserJSON.mk "1000" "1001" "Ann" "ann@example.org"
              [PlaylistJSON.mk "1002" "Default" [defaultSong "1003"]]));
    [apply reachable_oneSong|reflexivity].
Defined.

Lemma only_register_changes_users_witness :
  match profile oneSong "1001",
        profile (serve (R_createPlaylist "1001" "Mix") oneSong).2 "1001" with
  | Some u, Some u' =>
    UserJSON.ID u' = UserJSON.ID u ∧ UserJSON.SecretCode u' = UserJSON.SecretCode u
    ∧ UserJSON.Name u' = UserJSON.Name u ∧ UserJSON.Email u' = UserJSON.Email u
  | None, None => True
  | _, _ => False
  end.
Proof.
  apply (only_register_changes_users (R_createPlaylist "1001" "Mix") oneSong "1001");
    [apply reachable_oneSong|discriminate].
Defined.

Lemma addSong_then_getSongDetail_witness :
  let r := addSongToPlaylist "1001" "1002" (Some songX) oneSong in
  ∃ u found,
    profile oneSong "1001" = Some u
    ∧ getSongDetail "1001" (nextID oneSong 0) r.2 = (Encode (SongBody found), r.2)
    ∧ Song.ID found = nextID oneSong 0
    ∧ (Forall (λ s, Song.ID s ≠ nextID oneSong 0) (allSongs u) →
       SongBody (Song.set_ID "1004" songX) = SongBody found).
Proof.
  apply (addSong_then_getSongDetail oneSong "1001" "1002" (Some songX)
           (SongBody (Song.set_ID "1004" songX)));
    [apply reachable_oneSong|reflexivity].
Defined.

Lemma createPlaylist_then_deletePlaylist_witness :
  let r := deletePlaylist "1001" (nextID oneSong 0)
             (createPlaylist "1001" "Mix" oneSong).2 in
  r.1 = Encode (UserBody (UserJSON.mk "1000" "1001" "Ann" "ann@example.org"
                   [PlaylistJSON.mk "1002" "Default" [defaultSong "1003"]]))
  ∧ ∀ c2, profile r.2 c2 = profile oneSong c2.
Proof.
  apply (createPlaylist_then_deletePlaylist oneSong "1001" "Mix"
           (UserJSON.mk "1000" "1001" "Ann" "ann@example.org"
              [PlaylistJSON.mk "1002" "Default" [defaultSong "1003"]]));
    [apply reachable_oneSong|reflexivity|].
  repeat constructor. discriminate.
Defined.

Lemma addSong_then_removeSong_witness :
  let r := deleteSongFromPlaylist "1001" (nextID oneSong 0) "1002"
             (addSongToPlaylist "1001" "1002" (Some songX) oneSong).2 in
  r.1 = Encode (PlaylistBody (PlaylistJSON.mk "1002" "Default"
                  [defaultSong "1003"; Song.set_ID (nextID oneSong 0) songX]))
  ∧ ∀ c2, profile r.2 c2 = profile oneSong c2.
Proof.
  apply (addSong_then_removeSong oneSong "1001" "1002" songX
           (UserJSON.mk "1000" "1001" "Ann" "ann@example.org"
              [PlaylistJSON.mk "1002" "Default" [defaultSong "1003"]])
           0 (PlaylistJSON.mk "1002" "Default" [defaultSong "1003"]));
    [apply reachable_oneSong|reflexivity|reflexivity|reflexivity|intros; lia
    |discriminate|].
  repeat constructor. discriminate.
Defined.

Lemma next_identifier_is_new_witness :
  nextID oneSong 0
  ∉ identifiers (UserJSON.mk "1000" "1001" "Ann" "ann@example.org"
                   [PlaylistJSON.mk "1002" "Default" [defaultSong "1003"]]).
Proof.
  apply (next_identifier_is_new exampleSeed [R_register (Some plainBody)] 0 "1001").
  - intros j Hj. apply list_elem_of_singleton in Hj. by injection Hj as ->.
  - intros k Hk. change (k < 4) in Hk.
    do 4 (destruct k as [|k]; [discriminate|]). lia.
  - reflexivity.
Defined.

Lemma accepted_secretCode_is_generated_witness :
  "1001" ≠ "" ∧ drawnID oneSong "1001"
  ∧ ∃ v, (0 ≤ v < 2 ^ 63)%Z ∧ "1001" = Sprintf_d v.
Proof.
  apply (accepted_secretCode_is_generated oneSong "1001"
           (UserJSON.mk "1000" "1001" "Ann" "ann@example.org"
              [PlaylistJSON.mk "1002" "Default" [defaultSong "1003"]]));
    [apply reachable_oneSong|reflexivity].
Defined.

End further_runs.
